(** * Bridging of connected components

    A shallow embedding of [mintpy/objects/conncomp.py] (class
    [connectComponent]) and the properties of its four stages: region
    labelling, bridge search, spanning-tree ordering and phase stitching.

    Conventions of the model.
    - A 2-D numpy array is a shape [(length, width)] together with its
      row-major buffer; the pixel at flat position [i] has row
      [i / width] and column [i mod width].
    - Integer arrays hold [Z]; the [uint8] cast is written out as
      [mod 256].
    - Floating-point values are idealised: a value is either not-a-number
      or a real number.  Rounding and infinities are not represented, the
      constant [np.pi] is the real [PI].  NaN behaves as in IEEE 754:
      it propagates through arithmetic and every ordered comparison with
      it is false, while [!=] is true.  Where a property depends on how
      the arithmetic rounds (a second pass over a stitched field), the
      stitching pass is written out again in module [Rounded], with a
      rounding after every floating-point operation.
    - Python exceptions are an error monad [result]; where the state that
      a failing call leaves behind matters, statements are run on the
      state ([run]).
    - Routines of numpy, scipy and scikit-image are modelled by their
      documented behaviour; each such definition says so. *)

From Stdlib Require Import ZArith List Reals Lra Lia QArith String Ascii.
From Stdlib Require Import DecimalString Sorted.
From stdpp Require Import base list gmap strings.

Close Scope Q_scope.
Local Open Scope Z_scope.

(** ** Exceptions *)

Inductive exception :=
| ValueError
| IndexError
| OverflowError
| KeyError (key : string)
| AttributeError (name : string).

Inductive result (A : Type) :=
| Ok (a : A)
| Raise (e : exception).
Arguments Ok {A} a.
Arguments Raise {A} e.

#[global] Instance result_ret : MRet result := fun A a => Ok a.
#[global] Instance result_bind : MBind result := fun A B f m =>
  match m with Ok a => f a | Raise e => Raise e end.
#[global] Instance result_fmap : FMap result := fun A B f m =>
  match m with Ok a => Ok (f a) | Raise e => Raise e end.

(** [getattr name o]: reading an attribute that a method has not set yet
    raises [AttributeError]. *)
Definition getattr {A} (name : string) (o : option A) : result A :=
  match o with Some a => Ok a | None => Raise (AttributeError name) end.

(** ** Idealised floating-point values *)

Inductive float :=
| NaN
| Fin (x : R).

Definition Rltb (x y : R) : bool := if Rlt_dec x y then true else false.
Definition Rleb (x y : R) : bool := if Rle_dec x y then true else false.
Definition Reqb (x y : R) : bool := if Req_dec_T x y then true else false.

Definition fadd (a b : float) : float :=
  match a, b with Fin x, Fin y => Fin (x + y) | _, _ => NaN end.
Definition fsub (a b : float) : float :=
  match a, b with Fin x, Fin y => Fin (x - y) | _, _ => NaN end.
Definition fmul (a b : float) : float :=
  match a, b with Fin x, Fin y => Fin (x * y) | _, _ => NaN end.
Definition fabs (a : float) : float :=
  match a with Fin x => Fin (Rabs x) | NaN => NaN end.

(** [a // b] on floats: the floor of the quotient.  A zero divisor gives
    NaN here (numpy gives an infinity or NaN); the only divisor in the
    program is [2 * pi]. *)
Definition ffloordiv (a b : float) : float :=
  match a, b with
  | Fin x, Fin y => if Reqb y 0 then NaN else Fin (IZR (Zfloor (x / y)))
  | _, _ => NaN
  end.

(** [a > b] and [a != b]. *)
Definition fgt (a b : float) : bool :=
  match a, b with Fin x, Fin y => Rltb y x | _, _ => false end.
Definition fne (a b : float) : bool :=
  match a, b with Fin x, Fin y => negb (Reqb x y) | _, _ => true end.

Definition fisnan (a : float) : bool :=
  match a with NaN => true | Fin _ => false end.

Definition np_pi : float := Fin PI.

(** *** [np.nanmedian]

    Library routine (numpy), modelled by its documentation: the NaN
    entries are dropped, the remaining values are sorted, and the result
    is the middle value, or the mean of the two middle values when their
    number is even.  An empty or all-NaN input gives NaN (numpy also
    emits a [RuntimeWarning], which is not an exception). *)

Fixpoint finite_values (l : list float) : list R :=
  match l with
  | [] => []
  | NaN :: l' => finite_values l'
  | Fin x :: l' => x :: finite_values l'
  end.

Fixpoint Rinsert (x : R) (l : list R) : list R :=
  match l with
  | [] => [x]
  | y :: l' => if Rleb x y then x :: l else y :: Rinsert x l'
  end.

Fixpoint Rsort (l : list R) : list R :=
  match l with
  | [] => []
  | x :: l' => Rinsert x (Rsort l')
  end.

Definition median_sorted (s : list R) : float :=
  let n := List.length s in
  match n with
  | O => NaN
  | _ =>
      if Nat.even n
      then Fin ((nth (n / 2 - 1) s 0%R + nth (n / 2) s 0%R) / 2)
      else Fin (nth (n / 2) s 0%R)
  end.

Definition nanmedian (l : list float) : float :=
  median_sorted (Rsort (finite_values l)).

(** ** Two-dimensional arrays *)

Record ndarray (A : Type) := NdArray {
  shape : Z * Z;      (* (length, width) *)
  data : list A       (* row-major buffer *)
}.
Arguments NdArray {A} shape data.
Arguments shape {A} n.
Arguments data {A} n.

Definition size {A} (a : ndarray A) : Z := fst (shape a) * snd (shape a).

(** An array is well formed when its buffer has [length * width] cells. *)
Definition wf_shape {A} (a : ndarray A) : Prop :=
  0 <= fst (shape a) /\ 0 <= snd (shape a) /\
  Z.of_nat (List.length (data a)) = size a.

Definition shape_eqb (s t : Z * Z) : bool :=
  (fst s =? fst t) && (snd s =? snd t).

Definition row_of (width : Z) (i : nat) : Z := Z.of_nat i / width.
Definition col_of (width : Z) (i : nat) : Z := Z.of_nat i mod width.

Definition np_full {A} (shp : Z * Z) (v : A) : ndarray A :=
  NdArray shp (repeat v (Z.to_nat (fst shp * snd shp))).

Definition np_map {A B} (f : A -> B) (a : ndarray A) : ndarray B :=
  NdArray (shape a) (map f (data a)).

(** [a == v] for an integer array and a scalar. *)
Definition np_equal (a : ndarray Z) (v : Z) : ndarray bool :=
  np_map (fun x => x =? v) a.

(** [m0 * m1] on boolean arrays of one shape. *)
Definition np_mul_bool (m0 m1 : ndarray bool) : ndarray bool :=
  NdArray (shape m0) (zip_with andb (data m0) (data m1)).

(** Normalisation of a slice bound against an axis of [n] cells
    (Python semantics: negative bounds count from the end, everything is
    clipped to [0..n]). *)
Definition slice_bound (n i : Z) : Z :=
  if i <? 0 then Z.max 0 (i + n) else Z.min i n.

Definition in_slice (n lo hi k : Z) : bool :=
  (slice_bound n lo <=? k) && (k <? slice_bound n hi).

(** [a[y0:y1, x0:x1] = v] *)
Definition slice_assign {A} (a : ndarray A) (y0 y1 x0 x1 : Z) (v : A)
  : ndarray A :=
  let '(len, wid) := shape a in
  NdArray (shape a)
    (imap (fun i old =>
             if in_slice len y0 y1 (row_of wid i)
                && in_slice wid x0 x1 (col_of wid i)
             then v else old) (data a)).

(** [a[mask]] with a boolean mask: the selected cells in row-major order.
    numpy raises [IndexError] when the mask's shape differs. *)
Fixpoint select_cells {A} (l : list A) (m : list bool) : list A :=
  match l, m with
  | x :: l', b :: m' => if b then x :: select_cells l' m' else select_cells l' m'
  | _, _ => []
  end.

Definition np_select {A} (a : ndarray A) (m : ndarray bool) : result (list A) :=
  if shape_eqb (shape a) (shape m) then Ok (select_cells (data a) (data m))
  else Raise IndexError.

(** [a[mask] = f(a[mask])], cell by cell (the in-place [+=] and [-=]). *)
Fixpoint update_cells {A} (f : A -> A) (l : list A) (m : list bool) : list A :=
  match l, m with
  | x :: l', b :: m' => (if b then f x else x) :: update_cells f l' m'
  | _, _ => l
  end.

Definition np_update {A} (f : A -> A) (a : ndarray A) (m : ndarray bool)
  : result (ndarray A) :=
  if shape_eqb (shape a) (shape m)
  then Ok (NdArray (shape a) (update_cells f (data a) (data m)))
  else Raise IndexError.

(** [a[y, x]] with integer indices: negative indices wrap once, anything
    else out of range raises [IndexError]. *)
Definition axis_index (n i : Z) : result Z :=
  if (0 <=? i) && (i <? n) then Ok i
  else if (- n <=? i) && (i <? 0) then Ok (i + n)
  else Raise IndexError.

Definition np_getitem {A} (a : ndarray A) (y x : Z) : result A :=
  y' ← axis_index (fst (shape a)) y;
  x' ← axis_index (snd (shape a)) x;
  match data a !! Z.to_nat (y' * snd (shape a) + x') with
  | Some v => Ok v
  | None => Raise IndexError
  end.

(** ** The [connectComponent] object *)

(** A bridge, the dictionary built by [find_mst_bridge]. *)
Record bridge := Bridge {
  x0 : Z; y0 : Z;
  x1 : Z; y1 : Z;
  label0 : Z;
  label1 : Z
}.

(** A boundary distance.  Distances between pixels are square roots of
    integers; the model keeps the radicand, so comparisons are exact. *)
Inductive root := Sqrt (radicand : Z).

Definition radicand (d : root) : Z := let 'Sqrt n := d in n.

(** The dictionary [conn] of [get_all_bridge]: the two label strings map
    to an end point [(y, x)], the key ["distance"] to the distance. *)
Inductive conn_value :=
| Coord (y x : Z)
| Dist (d : root).

(** Attributes set by [__init__] are plain fields; those that later
    methods create are optional, and absent until then. *)
Record connectComponent := ConnectComponent {
  conncomp : ndarray Z;
  metadata : gmap string Z;
  refY : option Z;
  refX : option Z;
  length_ : Z;
  width : Z;
  labelImg : option (ndarray Z);
  numLabel : option Z;
  labelBound : option (ndarray Z);
  labelRef : option Z;
  connDict : option (gmap string (gmap string conn_value));
  distMat : option (ndarray root);
  bridges : option (list bridge);
  num_bridge : option Z
}.

(** *** [get_bridge_endpoint_aoi_mask] *)

Definition get_bridge_endpoint_aoi_mask
    (self : connectComponent) (b : bridge) (radius : Z)
  : result (ndarray bool * ndarray bool) :=
  let x00 := Z.max 0 (x0 b - radius) in
  let x01 := Z.min (width self) (x0 b + radius) in
  let y00 := Z.max 0 (y0 b - radius) in
  let y01 := Z.min (length_ self) (y0 b + radius) in
  let x10 := Z.max 0 (x1 b - radius) in
  let x11 := Z.min (width self) (x1 b + radius) in
  let y10 := Z.max 0 (y1 b - radius) in
  let y11 := Z.min (length_ self) (y1 b + radius) in
  img ← getattr "labelImg" (labelImg self);
  let aoi_mask0 := np_full (shape img) false in
  let aoi_mask1 := np_full (shape img) false in
  Ok (slice_assign aoi_mask0 y00 y01 x00 x01 true,
      slice_assign aoi_mask1 y10 y11 x10 x11 true).

(** *** The radius rule of [unwrap_conn_comp]

    [radius = int(min(radius, min(self.conncomp.shape) * 0.05))].
    The constant [0.05] is taken as the decimal 5/100; [min(a, b)] is
    Python's (the second argument only when it is strictly smaller) and
    [int] truncates towards zero. *)
Definition py_min_Q (a b : Q) : Q :=
  if Qle_bool a b then a else b.

Definition py_int (q : Q) : Z := Z.quot (Qnum q) (Z.pos (Qden q)).

Definition aoi_radius (self : connectComponent) (radius : Z) : Z :=
  let shp := shape (conncomp self) in
  py_int (py_min_Q (inject_Z radius)
                   (Qmult (inject_Z (Z.min (fst shp) (snd shp))) (5 # 100))).

(** *** The body of the loop over the bridges *)

(** [num_jump = (np.abs(diff_value) + np.pi) // (2.*np.pi)], negated
    when [diff_value > 0]. *)
Definition estimate_num_jump (diff_value : float) : float :=
  let num_jump :=
    ffloordiv (fadd (fabs diff_value) np_pi) (fmul (Fin 2) np_pi) in
  if fgt diff_value (Fin 0) then fmul num_jump (Fin (-1)) else num_jump.

(** The two sampling masks of one bridge: each window restricted to the
    region of its own end point. *)
Definition endpoint_masks (self : connectComponent) (radius : Z) (b : bridge)
  : result (ndarray bool * ndarray bool) :=
  '(aoi_mask0, aoi_mask1) ← get_bridge_endpoint_aoi_mask self b radius;
  img ← getattr "labelImg" (labelImg self);
  let label_mask0 := np_equal img (label0 b) in
  let label_mask1 := np_equal img (label1 b) in
  Ok (np_mul_bool aoi_mask0 label_mask0, np_mul_bool aoi_mask1 label_mask1).

(** The two medians [value0], [value1] of one bridge. *)
Definition bridge_values (self : connectComponent) (radius : Z)
    (unw : ndarray float) (b : bridge) : result (float * float) :=
  '(m0, m1) ← endpoint_masks self radius b;
  sel0 ← np_select unw m0;
  sel1 ← np_select unw m1;
  Ok (nanmedian sel0, nanmedian sel1).

(** What [print_msg] reports for a bridge: [diff_value] and
    [num_jump]. *)
Definition report := (float * float)%type.

(** One iteration: the new field and the report of the bridge. *)
Definition stitch_bridge (self : connectComponent) (radius : Z)
    (unw : ndarray float) (b : bridge) : result (ndarray float * report) :=
  '(value0, value1) ← bridge_values self radius unw b;
  img ← getattr "labelImg" (labelImg self);
  let label_mask1 := np_equal img (label1 b) in
  let diff_value := fsub value1 value0 in
  let num_jump := estimate_num_jump diff_value in
  unw' ← np_update
           (fun v => fadd v (fmul (fmul (Fin 2) np_pi) num_jump))
           unw label_mask1;
  Ok (unw', (diff_value, num_jump)).

(** The whole loop, with the reports in the order of the bridges. *)
Fixpoint stitch_bridges (self : connectComponent) (radius : Z)
    (unw : ndarray float) (bs : list bridge)
  : result (ndarray float * list report) :=
  match bs with
  | [] => Ok (unw, [])
  | b :: bs' =>
      '(unw1, r) ← stitch_bridge self radius unw b;
      '(unw2, rs) ← stitch_bridges self radius unw1 bs';
      Ok (unw2, r :: rs)
  end.

(** Reference normalisation: [unw[unw != 0.] -= unw[refY, refX]]. *)
Definition subtract_reference (self : connectComponent) (unw : ndarray float)
  : result (ndarray float) :=
  match refY self with
  | None => Ok unw
  | Some ry =>
      rx ← getattr "refX" (refX self);
      ref ← np_getitem unw ry rx;
      np_update (fun v => fsub v ref) unw (np_map (fun v => fne v (Fin 0)) unw)
  end.

(** ** Arrays as objects: the heap

    [unwrap_conn_comp] receives a reference to the caller's array, so the
    arrays it touches live in a heap of objects. *)

Abbreviation loc := positive (only parsing).
Abbreviation heap := (gmap positive (ndarray float)) (only parsing).

Definition heap_load (h : heap) (l : loc) : result (ndarray float) :=
  match h !! l with Some a => Ok a | None => Raise (AttributeError "unw") end.

(** A new object, at an address the heap does not use yet. *)
Definition heap_alloc (h : heap) (a : ndarray float) : loc * heap :=
  let l := fresh (dom h) in (l, <[l := a]> h).

(** An operation that works in place on the object at [l]. *)
Definition heap_modify (h : heap) (l : loc)
    (f : ndarray float -> result (ndarray float)) : result heap :=
  a ← heap_load h l;
  a' ← f a;
  Ok (<[l := a']> h).

(** [a += b] on whole arrays of one shape. *)
Definition np_iadd (a b : ndarray float) : result (ndarray float) :=
  if shape_eqb (shape a) (shape b)
  then Ok (NdArray (shape a) (zip_with fadd (data a) (data b)))
  else Raise ValueError.

(** ** [unwrap_conn_comp] *)

Section unwrap.

(** [deramp] lives in [mintpy/objects/ramp.py]; it is a parameter here:
    from a field, a mask, a ramp type and the metadata it returns the
    detrended field and the ramp, as two new arrays. *)
Variable deramp :
  ndarray float -> ndarray bool -> string -> gmap string Z ->
  ndarray float * ndarray float.

(** The loop over the bridges, working in place on the object [unw]. *)
Fixpoint stitch_loop (self : connectComponent) (radius : Z) (unw : loc)
    (bs : list bridge) (h : heap) : result (list report * heap) :=
  match bs with
  | [] => Ok ([], h)
  | b :: bs' =>
      a ← heap_load h unw;
      '(a', r) ← stitch_bridge self radius a b;
      '(rs, h') ← stitch_loop self radius unw bs' (<[unw := a']> h);
      Ok (r :: rs, h')
  end.

(** The method.  It returns the reference it hands back to the caller,
    the report of every bridge, and the final heap. *)
Definition unwrap_conn_comp (self : connectComponent) (h : heap)
    (unw : loc) (radius : Z) (ramp_type : option string)
  : result (loc * list report * heap) :=
  let radius := aoi_radius self radius in
  (* unw = np.array(unw, dtype=np.float32) *)
  a ← heap_load h unw;
  let '(unw, h) := heap_alloc h a in
  (* unw[unw != 0.] -= unw[self.refY, self.refX] *)
  h ← heap_modify h unw (subtract_reference self);
  (* unw, ramp = deramp(unw, ramp_mask, ramp_type, metadata) *)
  '(unw, ramp, h) ←
    match ramp_type with
    | None => Ok (unw, None, h)
    | Some rt =>
        img ← getattr "labelImg" (labelImg self);
        ref ← getattr "labelRef" (labelRef self);
        let ramp_mask := np_equal img ref in
        a ← heap_load h unw;
        let '(detrended, ramp) := deramp a ramp_mask rt (metadata self) in
        let '(unw, h) := heap_alloc h detrended in
        let '(ramp, h) := heap_alloc h ramp in
        Ok (unw, Some ramp, h)
    end;
  bs ← getattr "bridges" (bridges self);
  '(jumps, h) ← stitch_loop self radius unw bs h;
  (* unw += ramp *)
  h ←
    match ramp with
    | None => Ok h
    | Some ramp =>
        r ← heap_load h ramp;
        heap_modify h unw (fun a => np_iadd a r)
    end;
  Ok (unw, jumps, h).

(** The same computation on array values, without the heap. *)
Definition unwrap_array (self : connectComponent) (unw : ndarray float)
    (radius : Z) (ramp_type : option string)
  : result (ndarray float * list report) :=
  let radius := aoi_radius self radius in
  a ← subtract_reference self unw;
  '(a, ramp) ←
    match ramp_type with
    | None => Ok (a, None)
    | Some rt =>
        img ← getattr "labelImg" (labelImg self);
        ref ← getattr "labelRef" (labelRef self);
        let '(detrended, ramp) :=
          deramp a (np_equal img ref) rt (metadata self) in
        Ok (detrended, Some ramp)
    end;
  bs ← getattr "bridges" (bridges self);
  '(a, jumps) ← stitch_bridges self radius a bs;
  a ← match ramp with None => Ok a | Some r => np_iadd a r end;
  Ok (a, jumps).

End unwrap.

(** ** [__init__] *)

(** What the constructor can observe of the Python object it is given:
    the module of its type, its [shape] attribute when it has one, its
    element type and its cells. *)
Inductive dtype := Dbool | Dint | Dfloat.

Record pyobject := PyObject {
  type_module : string;
  obj_shape : option (list Z);
  obj_dtype : dtype;
  obj_data : list Z
}.

Definition dict_get (d : gmap string Z) (k : string) : result Z :=
  match d !! k with Some v => Ok v | None => Raise (KeyError k) end.

Definition init (conncomp : pyobject) (metadata : gmap string Z)
  : result connectComponent :=
  if negb (String.eqb (type_module conncomp) "numpy") then Raise ValueError
  else
    '(refY, refX) ←
      match metadata !! "REF_Y" with
      | Some y => x ← dict_get metadata "REF_X"; Ok (Some y, Some x)
      | None => Ok (None, None)
      end;
    shp ← getattr "shape" (obj_shape conncomp);
    (* self.length, self.width = self.conncomp.shape *)
    match shp with
    | [length; width] =>
        Ok {| conncomp := NdArray (length, width) (obj_data conncomp);
              metadata := metadata;
              refY := refY; refX := refX;
              length_ := length; width := width;
              labelImg := None; numLabel := None; labelBound := None;
              labelRef := None; connDict := None; distMat := None;
              bridges := None; num_bridge := None |}
    | _ => Raise ValueError
    end.

(** ** Routines of scikit-image and numpy used by the labelling stage *)

(** *** [measure.label(img, connectivity=1, return_num=True)]

    Library routine, modelled by its documentation: the 4-connected
    regions of equal non-zero value are numbered 1, 2, ... in the raster
    order of their first pixel; 0 is the background.  The model scans
    the buffer and flood-fills each region it meets. *)

Definition neighbours4 (shp : Z * Z) (i : nat) : list nat :=
  let w := Z.to_nat (snd shp) in
  let n := Z.to_nat (fst shp * snd shp) in
  ((if (i mod w =? 0)%nat then [] else [(i - 1)%nat]) ++
   (if ((i + 1) mod w =? 0)%nat then [] else [(i + 1)%nat]) ++
   (if (i <? w)%nat then [] else [(i - w)%nat]) ++
   (if (i + w <? n)%nat then [(i + w)%nat] else []))%list.

Fixpoint flood (fuel : nat) (shp : Z * Z) (img : list Z) (v k : Z)
    (todo : list nat) (out : list Z) : list Z :=
  match fuel with
  | O => out
  | S fuel' =>
      match todo with
      | [] => out
      | i :: todo' =>
          match img !! i, out !! i with
          | Some u, Some 0 =>
              if u =? v
              then flood fuel' shp img v k (neighbours4 shp i ++ todo')
                         (<[i := k]> out)
              else flood fuel' shp img v k todo' out
          | _, _ => flood fuel' shp img v k todo' out
          end
      end
  end.

Definition label_step (shp : Z * Z) (img : list Z)
    (st : list Z * Z) (i : nat) : list Z * Z :=
  let '(out, k) := st in
  match img !! i, out !! i with
  | Some v, Some 0 =>
      if v =? 0 then st
      else (flood (4 * List.length img + 2) shp img v (k + 1) [i] out, k + 1)
  | _, _ => st
  end.

Definition measure_label (img : ndarray Z) : ndarray Z * Z :=
  let n := List.length (data img) in
  let '(out, k) :=
    foldl (label_step (shape img) (data img)) (repeat 0 n, 0) (seq 0 n) in
  (NdArray (shape img) out, k).

(** *** [np.bincount], [np.where] *)

Definition count_eq (v : Z) (l : list Z) : Z :=
  Z.of_nat (List.length (filter (fun x => x = v) l)).

Definition list_max (l : list Z) : Z := foldr Z.max 0 l.

(** [np.bincount(l)]: the number of occurrences of 0, 1, ..., max(l);
    empty for an empty input. *)
Definition np_bincount (l : list Z) : list Z :=
  match l with
  | [] => []
  | _ => map (fun v => count_eq v l) (seqZ 0 (list_max l + 1))
  end.

(** [np.where(flags)[0]]: the indices of the true cells. *)
Definition np_where (flags : list bool) : list Z :=
  omap (fun p : nat * bool => if p.2 then Some (Z.of_nat p.1) else None)
       (imap pair flags).

(** [img[img == i] = 0] *)
Definition clear_label (img : ndarray Z) (i : Z) : ndarray Z :=
  np_map (fun v => if v =? i then 0 else v) img.

(** *** [morph.erosion], [seg.find_boundaries], [measure.regionprops]

    Library routines, modelled by their documentation.  Grey-scale
    erosion and dilation take the minimum and the maximum over the
    footprint around each pixel; positions outside the image are
    reflected back into it (scipy's [reflect] border mode, the default of
    the routines involved). *)

Definition reflect (n i : Z) : Z :=
  let m := i mod (2 * n) in
  if m <? n then m else 2 * n - 1 - m.

Definition pixel (a : ndarray Z) (y x : Z) : Z :=
  let '(len, wid) := shape a in
  nth (Z.to_nat (reflect len y * wid + reflect wid x)) (data a) 0.

Definition footprint := list (Z * Z).

(** [np.ones((s, s))], as offsets from the centre.  An odd side is
    centred; an even side is padded to the next odd side at its start
    (scikit-image's [pad_footprint]), so it reaches one cell further
    down and right than up and left.  A side of 0 gives no offset at
    all (scikit-image raises [ValueError] there). *)
Definition square_footprint (s : Z) : footprint :=
  let offs := map (fun k => k - (s - 1) / 2) (seqZ 0 s) in
  dy ← offs; dx ← offs; [(dy, dx)].

(** [ndi.generate_binary_structure(2, 1)]: the cross. *)
Definition cross_footprint : footprint :=
  [(-1, 0); (0, -1); (0, 0); (0, 1); (1, 0)].

Definition window (fp : footprint) (a : ndarray Z) (i : nat) : list Z :=
  let wid := snd (shape a) in
  map (fun d : Z * Z => pixel a (row_of wid i + d.1) (col_of wid i + d.2)) fp.

Definition list_min_of (l : list Z) : Z :=
  match l with [] => 0 | x :: l' => foldl Z.min x l' end.
Definition list_max_of (l : list Z) : Z :=
  match l with [] => 0 | x :: l' => foldl Z.max x l' end.

Definition grey_erosion (fp : footprint) (a : ndarray Z) : ndarray Z :=
  NdArray (shape a) (imap (fun i _ => list_min_of (window fp a i)) (data a)).
Definition grey_dilation (fp : footprint) (a : ndarray Z) : ndarray Z :=
  NdArray (shape a) (imap (fun i _ => list_max_of (window fp a i)) (data a)).

(** [morph.erosion(img, np.ones((s, s)))] *)
Definition morph_erosion (a : ndarray Z) (s : Z) : ndarray Z :=
  grey_erosion (square_footprint s) a.

(** [seg.find_boundaries(img, mode='thick')]: the pixels where dilation
    and erosion by the cross differ. *)
Definition seg_find_boundaries (a : ndarray Z) : ndarray bool :=
  NdArray (shape a)
    (zip_with (fun d e => negb (d =? e))
       (data (grey_dilation cross_footprint a))
       (data (grey_erosion cross_footprint a))).

(** [a.astype(np.uint8)] on integers and on booleans. *)
Definition astype_uint8 (a : ndarray Z) : ndarray Z :=
  np_map (fun v => v mod 256) a.
Definition bool_astype_uint8 (a : ndarray bool) : ndarray Z :=
  np_map (fun b : bool => if b then 1 else 0) a.

(** [a *= b] on [uint8] arrays of one shape. *)
Definition uint8_imul (a b : ndarray Z) : ndarray Z :=
  NdArray (shape a) (zip_with (fun x y => (x * y) mod 256) (data a) (data b)).

(** One entry of [measure.regionprops]. *)
Record region := Region {
  region_label : Z;
  area : Z;
  coords : list (Z * Z)     (* (row, column), in raster order *)
}.

Definition coords_of (a : ndarray Z) (l : Z) : list (Z * Z) :=
  let wid := snd (shape a) in
  omap (fun p : nat * Z =>
          if p.2 =? l then Some (row_of wid p.1, col_of wid p.1) else None)
       (imap pair (data a)).

(** [measure.regionprops(img)]: one region per label that occurs,
    by increasing label. *)
Definition measure_regionprops (a : ndarray Z) : list region :=
  omap (fun l =>
          match coords_of a l with
          | [] => None
          | cs => Some (Region l (Z.of_nat (List.length cs)) cs)
          end)
       (seqZ 1 (list_max (data a))).

(** ** [get_large_label] and [label] *)

Definition Qltb (a b : Q) : bool := negb (Qle_bool b a).

(** Lines 84-93: the regions whose pixel count is below the threshold are
    cleared, and the image is labelled again.  [3e-3] is taken as the
    decimal 3/1000. *)
Definition small_area_threshold (label_img : ndarray Z) (min_area : Q) : Q :=
  py_min_Q min_area (Qmult (inject_Z (size label_img)) (3 # 1000)).

Definition small_labels (label_img : ndarray Z) (min_area : Q)
  : result (list Z) :=
  let min_area := small_area_threshold label_img min_area in
  let flag_slabel :=
    map (fun c => Qltb (inject_Z c) min_area) (np_bincount (data label_img)) in
  (* flag_slabel[0] = False *)
  match flag_slabel with
  | [] => Raise IndexError
  | _ :: flags => Ok (np_where (false :: flags))
  end.

Definition clear_small (label_img : ndarray Z) (min_area : Q)
  : result (ndarray Z) :=
  label_small ← small_labels label_img min_area;
  Ok (foldl clear_label label_img label_small).

Definition remove_small_regions (mask : ndarray Z) (min_area : Q)
  : result (ndarray Z * Z) :=
  let '(label_img, num_label) := measure_label mask in
  label_img ← clear_small label_img min_area;
  Ok (measure_label label_img).

(** Line 97: the eroded label image, cast to [uint8]. *)
Definition eroded_labels (label_img : ndarray Z) (erosion_size : Z)
  : ndarray Z :=
  astype_uint8 (morph_erosion label_img erosion_size).

(** Lines 98-110: the regions that the erosion made disappear are
    cleared. *)
Definition clear_eroded (label_img label_erosion_img : ndarray Z)
    (num_label : Z) : ndarray Z :=
  let erosion_regions := measure_regionprops label_erosion_img in
  if Z.of_nat (List.length erosion_regions) <? num_label then
    let label_erosion := map region_label erosion_regions in
    foldl (fun img orig_reg =>
             if bool_decide (region_label orig_reg ∈ label_erosion) then img
             else clear_label img (region_label orig_reg))
          label_img (measure_regionprops label_img)
  else label_img.

(** Lines 114-115: the thick boundaries, carrying the eroded labels. *)
Definition boundary_labels (label_erosion_img : ndarray Z) : ndarray Z :=
  let label_bound :=
    bool_astype_uint8 (seg_find_boundaries label_erosion_img) in
  uint8_imul label_bound label_erosion_img.

Definition get_large_label (mask : ndarray Z) (min_area : Q)
    (erosion_size : Z) (get_boundary : bool)
  : result (ndarray Z * Z * option (ndarray Z)) :=
  '(label_img, num_label) ← remove_small_regions mask min_area;
  let label_erosion_img := eroded_labels label_img erosion_size in
  let label_img := clear_eroded label_img label_erosion_img num_label in
  let '(label_img, num_label) := measure_label label_img in
  if get_boundary
  then Ok (label_img, num_label, Some (boundary_labels label_erosion_img))
  else Ok (label_img, num_label, None).

(** [np.argmax]: the first index of the maximum; [ValueError] on an empty
    sequence. *)
Fixpoint argmax_from (l : list Z) (i : nat) (best : nat) (bv : Z) : nat :=
  match l with
  | [] => best
  | v :: l' => if bv <? v then argmax_from l' (S i) i v
               else argmax_from l' (S i) best bv
  end.

Definition np_argmax (l : list Z) : result nat :=
  match l with
  | [] => Raise ValueError
  | v :: l' => Ok (argmax_from l' 1 0 v)
  end.

Definition label (self : connectComponent) (min_area : Q) (erosion_size : Z)
  : result connectComponent :=
  '(img, num, bound) ←
    get_large_label (conncomp self) min_area erosion_size true;
  ref ←
    match refY self with
    | Some ry => rx ← getattr "refX" (refX self); np_getitem img ry rx
    | None =>
        let regions := measure_regionprops img in
        idx ← np_argmax (map area regions);
        match regions !! idx with
        | Some r => Ok (region_label r)
        | None => Raise IndexError
        end
    end;
  Ok {| conncomp := conncomp self; metadata := metadata self;
        refY := refY self; refX := refX self;
        length_ := length_ self; width := width self;
        labelImg := Some img; numLabel := Some num; labelBound := bound;
        labelRef := Some ref;
        connDict := connDict self; distMat := distMat self;
        bridges := bridges self; num_bridge := num_bridge self |}.

(** ** Routines of scipy used by the bridge stages *)

(** [for x in xs: acc = f(acc, x)] where the body may raise. *)
Fixpoint fold_result {A B} (f : A -> B -> result A) (acc : A) (xs : list B)
  : result A :=
  match xs with
  | [] => Ok acc
  | x :: xs' => acc' ← f acc x; fold_result f acc' xs'
  end.

Definition sqdist (p q : Z * Z) : Z :=
  (p.1 - q.1) * (p.1 - q.1) + (p.2 - q.2) * (p.2 - q.2).

(** [np.argmin]: the first index of the minimum. *)
Fixpoint argmin_from (l : list Z) (i : nat) (best : nat) (bv : Z) : nat :=
  match l with
  | [] => best
  | v :: l' => if v <? bv then argmin_from l' (S i) i v
               else argmin_from l' (S i) best bv
  end.

Definition np_argmin (l : list Z) : result nat :=
  match l with
  | [] => Raise ValueError
  | v :: l' => Ok (argmin_from l' 1 0 v)
  end.

(** [cKDTree(points).query(xs)]: for every point of [xs] the distance to
    its nearest point of the tree and the index of that point.  Library
    routine, modelled by its documentation; among equidistant points the
    model returns the first one. *)
Definition cKDTree_query (points xs : list (Z * Z))
  : result (list (root * nat)) :=
  mapM (fun x =>
          let ds := map (sqdist x) points in
          idx ← np_argmin ds;
          Ok (Sqrt (nth idx ds 0), idx)) xs.

(** [csg.minimum_spanning_tree] on a dense matrix.  Library routine,
    modelled after scipy's implementation: the non-zero cells are the
    edges, Kruskal's algorithm goes through them by increasing weight
    and keeps an edge when it joins two components; the result is the
    matrix with the other cells set to zero.  Cells of equal weight are
    taken in row-major order here. *)

Definition cell := (nat * Z)%type.   (* flat position, radicand *)

Fixpoint insert_cell (c : cell) (l : list cell) : list cell :=
  match l with
  | [] => [c]
  | d :: l' => if c.2 <=? d.2 then c :: l else d :: insert_cell c l'
  end.

Definition argsort_cells (l : list cell) : list cell :=
  foldr insert_cell [] l.

Definition kruskal_step (n : nat) (st : list nat * list nat) (c : cell)
  : list nat * list nat :=
  let '(comp, kept) := st in
  let v1 := (c.1 / n)%nat in
  let v2 := (c.1 mod n)%nat in
  let r1 := nth v1 comp 0%nat in
  let r2 := nth v2 comp 0%nat in
  if (r1 =? r2)%nat then st
  else (map (fun r => if (r =? r2)%nat then r1 else r) comp, c.1 :: kept).

Definition csg_minimum_spanning_tree (m : ndarray root) : ndarray root :=
  let n := Z.to_nat (fst (shape m)) in
  let cells :=
    filter (fun c : cell => c.2 ≠ 0)
           (imap (fun i d => (i, radicand d)) (data m)) in
  let '(_, kept) :=
    foldl (kruskal_step n) (seq 0 n, []) (argsort_cells cells) in
  NdArray (shape m)
    (imap (fun i d => if bool_decide (i ∈ kept) then d else Sqrt 0) (data m)).

(** [csg.breadth_first_order(tree, i_start, directed=False)]: the nodes
    in breadth-first order and the predecessor of every node (-9999 for
    the start node and for unreached nodes).  Library routine, modelled
    after scipy's implementation: the neighbours of a node are the
    columns of its row, then the rows of its column, by increasing
    index.  A negative start node does not fit the unsigned index of the
    routine ([OverflowError]); one beyond [n-1] is rejected. *)

Definition NULL_IDX : Z := -9999.

Definition tree_neighbours (m : ndarray root) (p : nat) : list nat :=
  let n := Z.to_nat (fst (shape m)) in
  let nz (i : nat) := negb (radicand (nth i (data m) (Sqrt 0)) =? 0) in
  (filter (fun c => nz (p * n + c)%nat = true) (seq 0 n) ++
   filter (fun r => nz (r * n + p)%nat = true) (seq 0 n))%list.

Definition bfs_visit (head pnode : nat) (st : list nat * list Z) (cnode : nat)
  : list nat * list Z :=
  let '(node_list, preds) := st in
  if (cnode =? head)%nat then st
  else if nth cnode preds 0 =? NULL_IDX
       then ((node_list ++ [cnode])%list, <[cnode := Z.of_nat pnode]> preds)
       else st.

Fixpoint bfs_loop (fuel : nat) (m : ndarray root) (head i_nl : nat)
    (st : list nat * list Z) : list nat * list Z :=
  match fuel with
  | O => st
  | S fuel' =>
      match st.1 !! i_nl with
      | None => st
      | Some pnode =>
          bfs_loop fuel' m head (S i_nl)
                   (foldl (bfs_visit head pnode) st (tree_neighbours m pnode))
      end
  end.

Definition csg_breadth_first_order (m : ndarray root) (i_start : Z)
  : result (list Z * list Z) :=
  let n := Z.to_nat (fst (shape m)) in
  if (0 <=? i_start) && (i_start <? fst (shape m)) then
    let head := Z.to_nat i_start in
    let '(node_list, preds) :=
      bfs_loop n m head 0 ([head], repeat NULL_IDX n) in
    Ok (map Z.of_nat node_list, preds)
  else if i_start <? 0 then Raise OverflowError   (* an unsigned index *)
  else Raise ValueError.

(** ** [get_all_bridge] and [find_mst_bridge] *)

(** [str(n)] *)
Definition str (n : Z) : string := NilZero.string_of_int (Z.to_int n).

Definition list_get {A} (l : list A) (i : nat) : result A :=
  match l !! i with Some a => Ok a | None => Raise IndexError end.

(** [itertools.combinations(range(n), 2)] *)
Definition combinations2 (n : nat) : list (nat * nat) :=
  i ← seq 0 n; j ← seq (S i) (n - S i); [(i, j)].

Definition set_cell {A} (m : ndarray A) (i j : nat) (v : A) : ndarray A :=
  NdArray (shape m) (<[(i * Z.to_nat (snd (shape m)) + j)%nat := v]> (data m)).

Definition get_all_bridge (self : connectComponent) : result connectComponent :=
  bound ← getattr "labelBound" (labelBound self);
  num ← getattr "numLabel" (numLabel self);
  let regions := measure_regionprops bound in
  trees ← mapM (fun i => r ← list_get regions i; Ok (coords r))
               (seq 0 (Z.to_nat num));
  '(dict, mat) ←
    fold_result
      (fun (acc : gmap string (gmap string conn_value) * ndarray root)
           (ij : nat * nat) =>
         let '(dict, mat) := acc in
         let '(i, j) := ij in
         (* find shortest bridge *)
         tree_i ← list_get trees i;
         reg_j ← list_get regions j;
         reg_i ← list_get regions i;
         q ← cKDTree_query tree_i (coords reg_j);
         idx_min ← np_argmin (map (fun di : root * nat => radicand di.1) q);
         '(dist_min, idx) ← list_get q idx_min;
         yxj ← list_get (coords reg_j) idx_min;
         yxi ← list_get (coords reg_i) idx;
         (* save *)
         let n0 := str (Z.of_nat i + 1) in
         let n1 := str (Z.of_nat j + 1) in
         let conn : gmap string conn_value :=
           <["distance" := Dist dist_min]>
             (<[n1 := Coord yxj.1 yxj.2]>
                (<[n0 := Coord yxi.1 yxi.2]> ∅)) in
         Ok (<[String.append n0 n1 := conn]> dict,
             set_cell (set_cell mat j i dist_min) i j dist_min))
      (∅, np_full (num, num) (Sqrt 0))
      (combinations2 (Z.to_nat num));
  Ok {| conncomp := conncomp self; metadata := metadata self;
        refY := refY self; refX := refX self;
        length_ := length_ self; width := width self;
        labelImg := labelImg self; numLabel := numLabel self;
        labelBound := labelBound self; labelRef := labelRef self;
        connDict := Some dict; distMat := Some mat;
        bridges := bridges self; num_bridge := num_bridge self |}.

(** [sorted([a, b])] on two strings: by code points, stable. *)
Definition sorted2 (a b : string) : string * string :=
  if String.ltb b a then (b, a) else (a, b).

(** [y, x = conn[key]] *)
Definition conn_point (conn : gmap string conn_value) (key : string)
  : result (Z * Z) :=
  match conn !! key with
  | Some (Coord y x) => Ok (y, x)
  | Some (Dist _) => Raise ValueError
  | None => Raise (KeyError key)
  end.

(** The body of the loop of [find_mst_bridge] for position [i] of
    [succs]. *)
Definition mst_bridge (dict : gmap string (gmap string conn_value))
    (succs preds : list Z) (i : nat) : result bridge :=
  s ← list_get succs i;
  p ← list_get preds (Z.to_nat s);
  let n0 := p + 1 in
  let n1 := s + 1 in
  (* read conn *)
  let nn := sorted2 (str n0) (str n1) in
  let key := String.append nn.1 nn.2 in
  conn ← match dict !! key with
         | Some c => Ok c
         | None => Raise (KeyError key)
         end;
  '(y0, x0) ← conn_point conn (str n0);
  '(y1, x1) ← conn_point conn (str n1);
  (* save bdg *)
  Ok {| x0 := x0; y0 := y0; x1 := x1; y1 := y1;
        label0 := n0; label1 := n1 |}.

(** The method gives the object with [bridges] and [num_bridge] set.
    When an iteration raises, Python leaves the object with the bridges
    appended so far and without [num_bridge]; the model gives the
    exception alone. *)
Definition find_mst_bridge (self : connectComponent) : result connectComponent :=
  self ← match distMat self with
         | None => get_all_bridge self
         | Some _ => Ok self
         end;
  mat ← getattr "distMat" (distMat self);
  ref ← getattr "labelRef" (labelRef self);
  dict ← getattr "connDict" (connDict self);
  (* MST bridges with breadth_first_order *)
  let distMatMst := csg_minimum_spanning_tree mat in
  '(succs, preds) ← csg_breadth_first_order distMatMst (ref - 1);
  (* save to self.bridges *)
  bs ← mapM (mst_bridge dict succs preds)
            (seq 1 (List.length succs - 1));
  Ok {| conncomp := conncomp self; metadata := metadata self;
        refY := refY self; refX := refX self;
        length_ := length_ self; width := width self;
        labelImg := labelImg self; numLabel := numLabel self;
        labelBound := labelBound self; labelRef := labelRef self;
        connDict := connDict self; distMat := distMat self;
        bridges := Some bs; num_bridge := Some (Z.of_nat (List.length bs)) |}.

(** ** The sampling of a bridge, as a specification

    The window of a bridge end point is the square of side [2 * radius]
    centred on it, clipped to the image; the sampled cells are the cells
    of the field inside the window that carry the end point's label. *)

Definition in_aoi (self : connectComponent) (xc yc radius : Z) (i : nat)
  : bool :=
  let y := row_of (width self) i in
  let x := col_of (width self) i in
  (Z.max 0 (yc - radius) <=? y) && (y <? Z.min (length_ self) (yc + radius))
  && (Z.max 0 (xc - radius) <=? x) && (x <? Z.min (width self) (xc + radius)).

Definition sampled_cells (self : connectComponent) (img : ndarray Z)
    (unw : ndarray float) (xc yc radius lbl : Z) : list float :=
  select_cells (data unw)
    (imap (fun i l => in_aoi self xc yc radius i && (l =? lbl)) (data img)).

(** The medians as the specification words them: the cells equal to the
    zero sentinel count as no-data and are left out. *)
Definition median_ignoring_zero (l : list float) : float :=
  nanmedian (List.filter (fun v => fne v (Fin 0)) l).

Definition spec_bridge_values (self : connectComponent) (radius : Z)
    (unw : ndarray float) (b : bridge) : result (float * float) :=
  '(m0, m1) ← endpoint_masks self radius b;
  sel0 ← np_select unw m0;
  sel1 ← np_select unw m1;
  Ok (median_ignoring_zero sel0, median_ignoring_zero sel1).

(** ** Sample objects *)

(** An object as [label] and [find_mst_bridge] leave it, from its
    parts. *)
Definition make_object (mask img : ndarray Z) (ref : option (Z * Z))
    (lref : Z) (bs : list bridge) : connectComponent :=
  {| conncomp := mask; metadata := ∅;
     refY := fst <$> ref; refX := snd <$> ref;
     length_ := fst (shape mask); width := snd (shape mask);
     labelImg := Some img; numLabel := Some (list_max (data img));
     labelBound := None; labelRef := Some lref;
     connDict := None; distMat := None;
     bridges := Some bs; num_bridge := Some (Z.of_nat (List.length bs)) |}.

(** One row of two cells, one region each. *)
Definition two_img : ndarray Z := NdArray (1, 2) [1; 2].
Definition two_bridge : bridge := Bridge 0 0 1 0 1 2.
Definition two_object : connectComponent :=
  make_object (NdArray (1, 2) [1; 1]) two_img None 1 [two_bridge].
Definition two_field (a b : float) : ndarray float := NdArray (1, 2) [a; b].

(** One row of six cells, two regions of three cells. *)
Definition six_img : ndarray Z := NdArray (1, 6) [1; 1; 1; 2; 2; 2].
Definition six_bridge : bridge := Bridge 2 0 3 0 1 2.
Definition six_object : connectComponent :=
  make_object (NdArray (1, 6) [1; 1; 1; 1; 1; 1]) six_img None 1 [six_bridge].
Definition six_field : ndarray float :=
  NdArray (1, 6) [Fin 0; Fin 0; Fin 5; Fin 7; Fin 0; Fin 0].

(** The update of one cell of the [label1] region: [v + 2.*np.pi*num_jump]. *)
Definition jump_offset (num_jump : float) (v : float) : float :=
  fadd v (fmul (fmul (Fin 2) np_pi) num_jump).

(** A sampling mask that selects no cell. *)
Definition mask_empty (m : ndarray bool) : bool := forallb negb (data m).

(** A stand-in for [deramp] on sample objects: no trend at all. *)
Definition no_ramp (a : ndarray float) (mask : ndarray bool) (ramp_type : string)
    (meta : gmap string Z) : ndarray float * ndarray float :=
  (a, np_full (shape a) (Fin 0)).

(** The labels under the two sampling masks of a bridge. *)
Definition sampled_labels (self : connectComponent) (radius : Z) (b : bridge)
  : result (list Z * list Z) :=
  '(m0, m1) ← endpoint_masks self radius b;
  img ← getattr "labelImg" (labelImg self);
  Ok (select_cells (data img) (data m0), select_cells (data img) (data m1)).

(** The preparation of an object, as the docstring of the class gives
    it: constructor, [label()], [find_mst_bridge()], with the default
    arguments [min_area=2.5e3] and [erosion_size=5]. *)
Definition labelled (conncomp : pyobject) (metadata : gmap string Z)
  : result connectComponent :=
  cc ← init conncomp metadata;
  label cc 2500 5.

Definition prepare (conncomp : pyobject) (metadata : gmap string Z)
  : result connectComponent :=
  cc ← labelled conncomp metadata;
  find_mst_bridge cc.

(** The reference pixel at row 2, column 5. *)
Definition ref_metadata : gmap string Z :=
  <["REF_Y" := 2]> (<["REF_X" := 5]> ∅).

(** A 10 x 10 scene: every cell of the mask is true; the field is [a] on
    rows 0-4 and [b] on rows 5-9. *)
Definition ten_mask : pyobject :=
  PyObject "numpy" (Some [10; 10]) Dbool (repeat 1 100).
Definition ten_field (a b : float) : ndarray float :=
  NdArray (10, 10)
    (imap (fun i _ => if row_of 10 i <? 5 then a else b) (repeat a 100)).

(** The same scene with the two halves given as two regions by hand. *)
Definition split_img : ndarray Z :=
  NdArray (10, 10)
    (imap (fun i _ => if row_of 10 i <? 5 then 1 else 2) (repeat 0 100)).
Definition split_bridge : bridge := Bridge 0 4 0 5 1 2.
Definition split_object : connectComponent :=
  make_object (np_full (10, 10) 1) split_img (Some (2, 5)) 1 [split_bridge].

(** A 20 x 20 scene: rows 0-8 and rows 11-19 of the mask are true, rows 9
    and 10 are false; the field is [a] on rows 0-10 and [b] on rows
    11-19. *)
Definition gap_mask : pyobject :=
  PyObject "numpy" (Some [20; 20]) Dbool
    (imap (fun i _ => if (9 <=? row_of 20 i) && (row_of 20 i <=? 10)
                      then 0 else 1) (repeat 0 400)).
Definition gap_img : ndarray Z :=
  NdArray (20, 20)
    (imap (fun i _ => if row_of 20 i <? 9 then 1
                      else if row_of 20 i <? 11 then 0 else 2)
          (repeat 0 400)).
Definition gap_field (a b : float) : ndarray float :=
  NdArray (20, 20)
    (imap (fun i _ => if row_of 20 i <? 11 then a else b) (repeat a 400)).
Definition gap_bridge : bridge := Bridge 0 6 0 13 1 2.

(** A field with value [a] outside region 2 and [b] on region 2. *)
Definition two_level (a b : float) (l : Z) : float :=
  if l =? 2 then b else a.

(** A 2 x 2 mask whose cells are floating-point numbers. *)
Definition float_mask : pyobject :=
  PyObject "numpy" (Some [2; 2]) Dfloat [1; 0; 1; 1].

(** An object with two regions and no bridge. *)
Definition bare_object : connectComponent :=
  make_object (NdArray (1, 2) [1; 1]) two_img None 1 [].

(** A 9 x 61 mask with ten stripes, five cells wide and seven cells
    high, one cell apart and one cell away from the border. *)
Definition stripes_mask : pyobject :=
  PyObject "numpy" (Some [9; 61]) Dbool
    (imap (fun i _ =>
             if (1 <=? row_of 61 i) && (row_of 61 i <=? 7)
                && (1 <=? col_of 61 i) && (col_of 61 i <=? 59)
                && negb (col_of 61 i mod 6 =? 0)
             then 1 else 0) (repeat 0 549)).

(** A field of three rows and one column. *)
Definition column_field : ndarray float :=
  NdArray (3, 1) [Fin 1; Fin 2; Fin 3].

(** ** The order of the bridges, as a specification

    The breadth-first order of the bridge list: the [label0] of a bridge
    is the reference label or the [label1] of an earlier bridge, and its
    [label1] is neither the reference label nor the [label1] of an
    earlier bridge. *)
Fixpoint bfs_ordered_from (seen : list Z) (bs : list bridge) : bool :=
  match bs with
  | [] => true
  | b :: bs' =>
      bool_decide (label0 b ∈ seen)
      && negb (bool_decide (label1 b ∈ seen))
      && bfs_ordered_from (label1 b :: seen) bs'
  end.

Definition bfs_ordered (ref : Z) (bs : list bridge) : bool :=
  bfs_ordered_from [ref] bs.

(** The cells of a buffer inside a window and inside the region [lbl];
    the window is a list of flags, the labels are the buffer of the
    label image. *)
Definition sample (aoi : list bool) (labels : list Z) (lbl : Z)
    (cells : list float) : list float :=
  select_cells cells (zip_with andb aoi (map (fun x => x =? lbl) labels)).

(** A 20 x 20 mask with one large region (rows 0-8) and one isolated
    true cell at row 15, column 5. *)
Definition speck_mask : ndarray Z :=
  NdArray (20, 20)
    (imap (fun i _ => if (row_of 20 i <? 9) || (Z.of_nat i =? 305)
                      then 1 else 0) (repeat 0 400)).
Definition speck_labels : ndarray Z :=
  NdArray (20, 20)
    (imap (fun i _ => if row_of 20 i <? 9 then 1 else 0) (repeat 0 400)).

(** The reference pixel of an object, when it has one, lies in the
    reference region (as [label] leaves it) and holds a number in the
    field. *)
Definition reference_ok (self : connectComponent) (img : ndarray Z) (ref : Z)
    (unw : ndarray float) : Prop :=
  match refY self, refX self with
  | None, _ => True
  | Some ry, Some rx =>
      np_getitem img ry rx = Ok ref /\
      exists x : R, np_getitem unw ry rx = Ok (Fin x)
  | Some _, None => False
  end.

(** ** The stitching pass in rounded arithmetic

    The idealised values above compute with real numbers.  What a second
    pass over a stitched field does depends on how the arithmetic
    rounds, so the pass is written out once more with every
    floating-point operation followed by its rounding.

    - [rnd] is the rounding of the [float32] operations on the cells of
      the field: the cast [np.array(unw, dtype=np.float32)], the in-place
      [-=] and [+=], the mean of the two middle values of a median, and
      the difference of the two medians (two [float32] scalars).
    - [rnd_s] is the rounding of the scalar arithmetic on [diff_value]
      and [np.pi]; numpy computes it in double precision or in single
      precision, depending on its version.
    - [pi_s] is the constant [np.pi] as that arithmetic sees it.
    - The products [2.*np.pi] and [num_jump * -1] and the floor division
      are exact on their operands.

    Values stay real numbers or NaN; what is known of the roundings is a
    hypothesis of the theorems that use them. *)

Module Rounded.

Record arith := Arith {
  rnd : R -> R;
  rnd_s : R -> R;
  pi_s : R
}.

Section model.

Variable ar : arith.

Definition cast (v : float) : float :=
  match v with Fin x => Fin (rnd ar x) | NaN => NaN end.

Definition cast_s (v : float) : float :=
  match v with Fin x => Fin (rnd_s ar x) | NaN => NaN end.

Definition np_pi : float := Fin (pi_s ar).

(** [np.nanmedian] on [float32] values: the mean of the two middle values
    is a [float32] sum followed by a [float32] division. *)
Definition median_sorted (s : list R) : float :=
  let n := List.length s in
  match n with
  | O => NaN
  | _ =>
      if Nat.even n
      then Fin (rnd ar (rnd ar (nth (n / 2 - 1) s 0%R + nth (n / 2) s 0%R) / 2))
      else Fin (nth (n / 2) s 0%R)
  end.

Definition nanmedian (l : list float) : float :=
  median_sorted (Rsort (finite_values l)).

(** [num_jump = (np.abs(diff_value) + np.pi) // (2.*np.pi)], negated
    when [diff_value > 0]. *)
Definition estimate_num_jump (diff_value : float) : float :=
  let num_jump :=
    ffloordiv (cast_s (fadd (fabs diff_value) np_pi)) (fmul (Fin 2) np_pi) in
  if fgt diff_value (Fin 0) then fmul num_jump (Fin (-1)) else num_jump.

(** The update of one cell: [v + 2.*np.pi*num_jump], the scalar product
    brought to [float32] and added in [float32]. *)
Definition jump_offset (num_jump : float) (v : float) : float :=
  cast (fadd v (cast (cast_s (fmul (fmul (Fin 2) np_pi) num_jump)))).

Definition bridge_values (self : connectComponent) (radius : Z)
    (unw : ndarray float) (b : bridge) : result (float * float) :=
  '(m0, m1) ← endpoint_masks self radius b;
  sel0 ← np_select unw m0;
  sel1 ← np_select unw m1;
  Ok (nanmedian sel0, nanmedian sel1).

Definition stitch_bridge (self : connectComponent) (radius : Z)
    (unw : ndarray float) (b : bridge) : result (ndarray float * report) :=
  '(value0, value1) ← bridge_values self radius unw b;
  img ← getattr "labelImg" (labelImg self);
  let label_mask1 := np_equal img (label1 b) in
  let diff_value := cast (fsub value1 value0) in
  let num_jump := estimate_num_jump diff_value in
  unw' ← np_update (jump_offset num_jump) unw label_mask1;
  Ok (unw', (diff_value, num_jump)).

Fixpoint stitch_bridges (self : connectComponent) (radius : Z)
    (unw : ndarray float) (bs : list bridge)
  : result (ndarray float * list report) :=
  match bs with
  | [] => Ok (unw, [])
  | b :: bs' =>
      '(unw1, r) ← stitch_bridge self radius unw b;
      '(unw2, rs) ← stitch_bridges self radius unw1 bs';
      Ok (unw2, r :: rs)
  end.

(** [unw[unw != 0.] -= unw[refY, refX]] *)
Definition subtract_reference (self : connectComponent) (unw : ndarray float)
  : result (ndarray float) :=
  match refY self with
  | None => Ok unw
  | Some ry =>
      rx ← getattr "refX" (refX self);
      ref ← np_getitem unw ry rx;
      np_update (fun v => cast (fsub v ref)) unw
                (np_map (fun v => fne v (Fin 0)) unw)
  end.

(** [unw += ramp] *)
Definition np_iadd (a b : ndarray float) : result (ndarray float) :=
  if shape_eqb (shape a) (shape b)
  then Ok (NdArray (shape a)
             (zip_with (fun x y => cast (fadd x y)) (data a) (data b)))
  else Raise ValueError.

Variable deramp :
  ndarray float -> ndarray bool -> string -> gmap string Z ->
  ndarray float * ndarray float.

(** [unwrap_conn_comp] on array values. *)
Definition unwrap_array (self : connectComponent) (unw : ndarray float)
    (radius : Z) (ramp_type : option string)
  : result (ndarray float * list report) :=
  let radius := aoi_radius self radius in
  (* unw = np.array(unw, dtype=np.float32) *)
  let a := np_map cast unw in
  a ← subtract_reference self a;
  '(a, ramp) ←
    match ramp_type with
    | None => Ok (a, None)
    | Some rt =>
        img ← getattr "labelImg" (labelImg self);
        ref ← getattr "labelRef" (labelRef self);
        let '(detrended, ramp) :=
          deramp a (np_equal img ref) rt (metadata self) in
        Ok (detrended, Some ramp)
    end;
  bs ← getattr "bridges" (bridges self);
  '(a, jumps) ← stitch_bridges self radius a bs;
  a ← match ramp with None => Ok a | Some r => np_iadd a r end;
  Ok (a, jumps).

End model.

End Rounded.

(** Arithmetic that does not round: the idealised values. *)
Definition exact_arith : Rounded.arith :=
  Rounded.Arith (fun x => x) (fun x => x) PI.

(** What is known of the roundings: the relative error [eps] and the
    absolute error [eta] (underflow) on values up to [omega] (overflow),
    zero is exact, a [float32] value rounds to itself, and [pi_s] is
    [PI] rounded. *)
Record standard_model (ar : Rounded.arith) (eps eta omega : R) : Prop := {
  eps_nonneg : (0 <= eps)%R;
  eta_nonneg : (0 <= eta)%R;
  rnd_error : forall x, (Rabs x <= omega)%R ->
    (Rabs (Rounded.rnd ar x - x) <= eps * Rabs x + eta)%R;
  rnd_s_error : forall x, (Rabs x <= omega)%R ->
    (Rabs (Rounded.rnd_s ar x - x) <= eps * Rabs x + eta)%R;
  rnd_zero : Rounded.rnd ar 0 = 0%R;
  rnd_s_zero : Rounded.rnd_s ar 0 = 0%R;
  rnd_idem : forall x, Rounded.rnd ar (Rounded.rnd ar x) = Rounded.rnd ar x;
  pi_s_error : (Rabs (Rounded.pi_s ar - PI) <= eps * PI)%R
}.

(** A value of magnitude at most [m]; NaN carries no magnitude. *)
Definition within (m : R) (v : float) : Prop :=
  match v with Fin x => (Rabs x <= m)%R | NaN => True end.

(** The distance that the rounding errors of one bridge stay below, for
    a reported difference [d] and cells of magnitude at most [m]. *)
Definition rounding_margin (eps eta m d : R) : R :=
  (32 * eps * (Rabs d + m + 2) + 16 * eta)%R.

(** A report whose difference is a number that keeps more than the
    rounding margin away from every odd multiple of pi. *)
Definition clear_report (eps eta m : R) (r : report) : Prop :=
  exists d : R, r.1 = Fin d /\
    forall k : Z,
      (Rabs (d - IZR (2 * k + 1) * PI) > rounding_margin eps eta m d)%R.

(** ** State that survives an exception

    The error monad above forgets the state when an exception is raised.
    To say what a failing call leaves behind, a statement is run on a
    state and gives its outcome together with the state it leaves. *)

Definition run (S A : Type) : Type := S -> result A * S.

#[global] Instance run_ret {S} : MRet (run S) := fun A a s => (Ok a, s).
#[global] Instance run_bind {S} : MBind (run S) := fun A B f m s =>
  match m s with
  | (Ok a, s') => f a s'
  | (Raise e, s') => (Raise e, s')
  end.

(** A computation that does not touch the state. *)
Definition lift {S A} (r : result A) : run S A := fun s => (r, s).

(** *** [__init__], attribute by attribute

    An instance is its attribute dictionary; [self.name = v] writes one
    entry of it. *)

Inductive attr :=
| AObject (o : pyobject)
| ADict (d : gmap string Z)
| AInt (n : Z)
| ANone.

Definition instance := gmap string attr.

Definition setattr (name : string) (v : attr) : run instance unit :=
  fun self => (Ok tt, <[name := v]> self).

Definition init_run (conncomp : pyobject) (metadata : gmap string Z)
  : run instance unit :=
  if negb (String.eqb (type_module conncomp) "numpy")
  then lift (Raise ValueError)
  else
    _ ← setattr "conncomp" (AObject conncomp);
    _ ← setattr "metadata" (ADict metadata);
    _ ← match metadata !! "REF_Y" with
        | Some y =>
            _ ← setattr "refY" (AInt y);
            x ← lift (dict_get metadata "REF_X");
            setattr "refX" (AInt x)
        | None =>
            _ ← setattr "refY" ANone;
            setattr "refX" ANone
        end;
    shp ← lift (getattr "shape" (obj_shape conncomp));
    (* self.length, self.width = self.conncomp.shape *)
    match shp with
    | [length; width] =>
        _ ← setattr "length" (AInt length);
        setattr "width" (AInt width)
    | _ => lift (Raise ValueError)
    end.

(** The call [connectComponent(conncomp, metadata)] in a store of
    instances: a new instance is allocated, [__init__] runs on it, and
    the caller receives its address only when [__init__] returns. *)
Definition construct (conncomp : pyobject) (metadata : gmap string Z)
  : run (gmap positive instance) positive :=
  fun objs =>
    let l := fresh (dom objs) in
    let '(r, self) := init_run conncomp metadata ∅ in
    (match r with Ok _ => Ok l | Raise e => Raise e end, <[l := self]> objs).

(** *** [unwrap_conn_comp] on the heap, with the heap it leaves

    The same statements as [unwrap_conn_comp] above, run on the heap:
    the outcome comes with the heap as the method leaves it, also when
    it raises. *)

Definition load (l : loc) : run heap (ndarray float) :=
  fun h => (heap_load h l, h).

Definition store (l : loc) (a : ndarray float) : run heap unit :=
  fun h => (Ok tt, <[l := a]> h).

Definition alloc (a : ndarray float) : run heap loc :=
  fun h => let '(l, h') := heap_alloc h a in (Ok l, h').

Section unwrap_run.

Variable deramp :
  ndarray float -> ndarray bool -> string -> gmap string Z ->
  ndarray float * ndarray float.

Fixpoint stitch_loop_run (self : connectComponent) (radius : Z) (unw : loc)
    (bs : list bridge) : run heap (list report) :=
  match bs with
  | [] => mret []
  | b :: bs' =>
      a ← load unw;
      '(a', r) ← lift (stitch_bridge self radius a b);
      _ ← store unw a';
      rs ← stitch_loop_run self radius unw bs';
      mret (r :: rs)
  end.

Definition unwrap_conn_comp_run (self : connectComponent) (unw : loc)
    (radius : Z) (ramp_type : option string) : run heap (loc * list report) :=
  let radius := aoi_radius self radius in
  (* unw = np.array(unw, dtype=np.float32) *)
  a ← load unw;
  unw ← alloc a;
  (* unw[unw != 0.] -= unw[self.refY, self.refX] *)
  a ← load unw;
  a' ← lift (subtract_reference self a);
  _ ← store unw a';
  (* unw, ramp = deramp(unw, ramp_mask, ramp_type, metadata) *)
  '(unw, ramp) ←
    match ramp_type with
    | None => mret (unw, None)
    | Some rt =>
        img ← lift (getattr "labelImg" (labelImg self));
        ref ← lift (getattr "labelRef" (labelRef self));
        a ← load unw;
        let '(detrended, ramp) :=
          deramp a (np_equal img ref) rt (metadata self) in
        unw ← alloc detrended;
        ramp ← alloc ramp;
        mret (unw, Some ramp)
    end;
  bs ← lift (getattr "bridges" (bridges self));
  jumps ← stitch_loop_run self radius unw bs;
  (* unw += ramp *)
  _ ← match ramp with
      | None => mret tt
      | Some ramp =>
          r ← load ramp;
          a ← load unw;
          a' ← lift (np_iadd a r);
          store unw a'
      end;
  mret (unw, jumps).

End unwrap_run.

(** A mask given as a Python list of lists: its type does not come from
    numpy and it has no [shape]. *)
Definition list_mask : pyobject :=
  PyObject "builtins" None Dbool [1; 1; 0; 1].

(** A heap holding one array, the caller's field. *)
Definition caller_heap (a : ndarray float) : heap := {[ 1%positive := a ]}.

(** * Properties *)

(** ** Tests on real numbers *)

Lemma Rltb_true x y : (x < y)%R -> Rltb x y = true.
Proof. intros H. unfold Rltb. destruct (Rlt_dec x y); [reflexivity | contradiction]. Qed.

Lemma Rltb_false x y : (y <= x)%R -> Rltb x y = false.
Proof. intros H. unfold Rltb. destruct (Rlt_dec x y); [lra | reflexivity]. Qed.

Lemma Rleb_true x y : (x <= y)%R -> Rleb x y = true.
Proof. intros H. unfold Rleb. destruct (Rle_dec x y); [reflexivity | contradiction]. Qed.

Lemma Rleb_false x y : (y < x)%R -> Rleb x y = false.
Proof. intros H. unfold Rleb. destruct (Rle_dec x y); [lra | reflexivity]. Qed.

Lemma Reqb_true x y : x = y -> Reqb x y = true.
Proof. intros H. unfold Reqb. destruct (Req_dec_T x y); [reflexivity | contradiction]. Qed.

Lemma Reqb_false x y : x <> y -> Reqb x y = false.
Proof. intros H. unfold Reqb. destruct (Req_dec_T x y); [contradiction | reflexivity]. Qed.

Lemma two_pi_neq_0 : (2 * PI)%R <> 0%R.
Proof. pose proof PI_RGT_0. lra. Qed.

(** ** The error monad *)

Lemma bind_Ok {A B} (m : result A) (f : A -> result B) (b : B) :
  m ≫= f = Ok b -> exists a, m = Ok a /\ f a = Ok b.
Proof. destruct m as [a|e]; simpl; [eauto | discriminate]. Qed.

Lemma bind_Ok_l {A B} (a : A) (f : A -> result B) : Ok a ≫= f = f a.
Proof. reflexivity. Qed.

Ltac step_bind := repeat (rewrite bind_Ok_l; cbv beta iota); cbv beta iota.

Ltac step_bind_in H :=
  repeat (rewrite bind_Ok_l in H; cbv beta iota in H); cbv beta iota in H.

Ltac inv_bind H :=
  let a := fresh "a" in
  let E := fresh "E" in
  apply bind_Ok in H; destruct H as (a & E & H).

(** ** Cells of an array *)

Lemma shape_eqb_eq s t : shape_eqb s t = true <-> s = t.
Proof.
  unfold shape_eqb. destruct s as [s1 s2], t as [t1 t2]. simpl.
  rewrite andb_true_iff, !Z.eqb_eq. split.
  - intros [-> ->]. reflexivity.
  - intros [= -> ->]. auto.
Qed.

Lemma shape_eqb_refl s : shape_eqb s s = true.
Proof. apply shape_eqb_eq. reflexivity. Qed.

Lemma shape_slice_assign {A} (a : ndarray A) ya yb xa xb v :
  shape (slice_assign a ya yb xa xb v) = shape a.
Proof. unfold slice_assign. destruct (shape a) eqn:E. simpl. auto. Qed.

Lemma length_update_cells {A} (f : A -> A) l m :
  List.length (update_cells f l m) = List.length l.
Proof.
  revert m. induction l as [|x l IH]; intros [|b m]; simpl; auto.
Qed.

Lemma update_cells_lookup {A} (f : A -> A) l m i x (b : bool) :
  l !! i = Some x -> m !! i = Some b ->
  update_cells f l m !! i = Some (if b then f x else x).
Proof.
  revert m i. induction l as [|y l IH]; intros [|c m] [|i]; simpl;
    try discriminate.
  - intros [= ->] [= ->]. reflexivity.
  - apply IH.
Qed.

Lemma update_cells_lookup_None {A} (f : A -> A) l m i :
  m !! i = None -> update_cells f l m !! i = l !! i.
Proof.
  revert m i. induction l as [|y l IH]; intros [|c m] [|i]; simpl;
    try discriminate; auto.
Qed.

Lemma select_cells_map {A B} (f : A -> B) l m :
  select_cells (map f l) m = map f (select_cells l m).
Proof.
  revert m. induction l as [|x l IH]; intros [|b m]; simpl; auto.
  destruct b; simpl; rewrite IH; reflexivity.
Qed.

Lemma np_equal_lookup img v i l :
  data img !! i = Some l -> data (np_equal img v) !! i = Some (l =? v).
Proof.
  intros H. unfold np_equal, np_map. simpl.
  change (map (fun x => x =? v) (data img)) with ((fun x => x =? v) <$> data img).
  rewrite list_lookup_fmap, H. reflexivity.
Qed.

(** ** The loop body *)

Lemma endpoint_masks_shape self radius b m0 m1 :
  endpoint_masks self radius b = Ok (m0, m1) ->
  exists img, labelImg self = Some img /\
              shape m0 = shape img /\ shape m1 = shape img.
Proof.
  unfold endpoint_masks, get_bridge_endpoint_aoi_mask. intros H.
  destruct (labelImg self) as [img|]; simpl in H; [|discriminate].
  injection H as <- <-. exists img.
  unfold np_mul_bool; simpl. rewrite !shape_slice_assign. auto.
Qed.

Lemma bridge_values_shape self radius unw b v :
  bridge_values self radius unw b = Ok v ->
  exists img, labelImg self = Some img /\ shape unw = shape img.
Proof.
  unfold bridge_values. intros H. inv_bind H. destruct a as [m0 m1].
  apply endpoint_masks_shape in E as (img & Himg & S0 & S1).
  exists img. split; [assumption|].
  unfold np_select in H.
  destruct (shape_eqb (shape unw) (shape m0)) eqn:Es; [|discriminate].
  apply shape_eqb_eq in Es. congruence.
Qed.

Lemma estimate_num_jump_Fin (d : R) :
  estimate_num_jump (Fin d) =
  Fin (IZR ((if Rlt_dec 0 d then -1 else 1) *
            Zfloor ((Rabs d + PI) / (2 * PI)))).
Proof.
  unfold estimate_num_jump, np_pi. simpl.
  rewrite (Reqb_false _ _ two_pi_neq_0). simpl. unfold Rltb.
  destruct (Rlt_dec 0 d); simpl; f_equal; rewrite mult_IZR; lra.
Qed.

(** C1.  For a bridge whose two sampled values [value0], [value1] are
    numbers, the loop body computes
    [num_jump = floor((|value1 - value0| + pi) / (2 pi))], negated when
    [value1 - value0 > 0], and adds [2 pi num_jump] to exactly the cells
    whose label is [label1]: the whole region, whatever the window. *)
Theorem stitch_bridge_adds_jump_to_region
    (self : connectComponent) (radius : Z) (unw : ndarray float)
    (b : bridge) (img : ndarray Z) (value0 value1 : R) :
  labelImg self = Some img ->
  bridge_values self radius unw b = Ok (Fin value0, Fin value1) ->
  let diff_value := (value1 - value0)%R in
  let num_jump :=
    (if Rlt_dec 0 diff_value then -1 else 1) *
    Zfloor ((Rabs diff_value + PI) / (2 * PI)) in
  exists unw',
    stitch_bridge self radius unw b
      = Ok (unw', (Fin diff_value, Fin (IZR num_jump))) /\
    shape unw' = shape unw /\
    List.length (data unw') = List.length (data unw) /\
    forall (i : nat) (l : Z) (v : float),
      data img !! i = Some l -> data unw !! i = Some v ->
      data unw' !! i =
        Some (if l =? label1 b
              then fadd v (Fin (2 * PI * IZR num_jump)) else v).
Proof.
  intros Himg Hv diff_value num_jump.
  destruct (bridge_values_shape _ _ _ _ _ Hv) as (img' & Himg' & Hshape).
  assert (img' = img) as -> by congruence.
  unfold stitch_bridge. rewrite Hv. simpl. rewrite Himg. simpl.
  unfold np_update. simpl. rewrite Hshape, shape_eqb_refl. simpl.
  fold diff_value. rewrite estimate_num_jump_Fin. fold num_jump.
  eexists. split; [reflexivity|]. simpl.
  split; [reflexivity|]. split; [apply length_update_cells|].
  intros i l v Hl Hu.
  erewrite update_cells_lookup; [| exact Hu | apply np_equal_lookup, Hl].
  reflexivity.
Qed.

Lemma stitch_bridge_adds_jump_to_region_witness :
  labelImg two_object = Some two_img /\
  bridge_values two_object 1 (two_field (Fin 0) (Fin (4 * PI))) two_bridge
    = Ok (Fin 0, Fin (4 * PI)) /\
  exists unw',
    stitch_bridge two_object 1 (two_field (Fin 0) (Fin (4 * PI))) two_bridge
      = Ok (unw',
            (Fin (4 * PI - 0),
             Fin (IZR ((if Rlt_dec 0 (4 * PI - 0) then -1 else 1) *
                       Zfloor ((Rabs (4 * PI - 0) + PI) / (2 * PI)))))).
Proof.
  split; [reflexivity|]. split; [reflexivity|].
  destruct (stitch_bridge_adds_jump_to_region
              two_object 1 (two_field (Fin 0) (Fin (4 * PI))) two_bridge
              two_img 0 (4 * PI) eq_refl eq_refl) as (unw' & H & _).
  exists unw'. exact H.
Defined.

(** ** The sampling masks *)

Ltac case_Z_tests :=
  repeat match goal with
         | |- context [?a <? ?b] => destruct (Z.ltb_spec a b)
         | |- context [?a <=? ?b] => destruct (Z.leb_spec a b)
         end.

Lemma slice_bound_nonneg n i : 0 <= i -> slice_bound n i = Z.min i n.
Proof.
  intros H. unfold slice_bound. destruct (Z.ltb_spec i 0); [lia | reflexivity].
Qed.

Lemma in_slice_clipped n c r k :
  0 <= n -> 0 <= c + r ->
  in_slice n (Z.max 0 (c - r)) (Z.min n (c + r)) k =
  (Z.max 0 (c - r) <=? k) && (k <? Z.min n (c + r)).
Proof.
  intros Hn Hc. unfold in_slice.
  rewrite !slice_bound_nonneg by lia.
  case_Z_tests; simpl; try reflexivity; lia.
Qed.

Lemma zip_mask_imap (c : nat -> bool) (q : Z -> bool) (l : list Z) (n : nat) :
  (List.length l <= n)%nat ->
  zip_with andb
    (imap (fun i (old : bool) => if c i then true else old) (repeat false n))
    (map q l)
  = imap (fun i x => c i && q x) l.
Proof.
  revert c n. induction l as [|x l IH]; intros c n Hn.
  - destruct n; reflexivity.
  - destruct n as [|n]; simpl in Hn; [lia|]. simpl.
    f_equal.
    + destruct (c 0%nat); reflexivity.
    + apply (IH (fun i => c (S i)) n). lia.
Qed.

Lemma endpoint_masks_data self radius b img m0 m1 :
  labelImg self = Some img ->
  wf_shape img ->
  shape img = (length_ self, width self) ->
  0 <= x0 b + radius -> 0 <= y0 b + radius ->
  0 <= x1 b + radius -> 0 <= y1 b + radius ->
  endpoint_masks self radius b = Ok (m0, m1) ->
  data m0 = imap (fun i l => in_aoi self (x0 b) (y0 b) radius i
                             && (l =? label0 b)) (data img) /\
  data m1 = imap (fun i l => in_aoi self (x1 b) (y1 b) radius i
                             && (l =? label1 b)) (data img).
Proof.
  intros Himg (Hl & Hw & Hlen) Hshape Hx0 Hy0 Hx1 Hy1.
  unfold endpoint_masks, get_bridge_endpoint_aoi_mask.
  rewrite Himg. simpl. intros [= <- <-].
  unfold size in Hlen. rewrite Hshape in *. simpl in *.
  unfold np_mul_bool, slice_assign, np_full, np_equal, np_map. simpl.
  split.
  - rewrite zip_mask_imap by lia. apply imap_ext. intros i l _.
    unfold in_aoi. rewrite !in_slice_clipped by lia.
    rewrite <- !andb_assoc. reflexivity.
  - rewrite zip_mask_imap by lia. apply imap_ext. intros i l _.
    unfold in_aoi. rewrite !in_slice_clipped by lia.
    rewrite <- !andb_assoc. reflexivity.
Qed.

Lemma finite_values_In (l : list float) (x : R) :
  In x (finite_values l) <-> In (Fin x) l.
Proof.
  induction l as [|[|y] l IH]; simpl.
  - tauto.
  - rewrite IH. split; [auto | intros [H|H]; [discriminate | exact H]].
  - rewrite IH. split; intros [H|H]; auto; left; congruence.
Qed.

(** C4 (amended).  For every bridge, [value0] and [value1] are the
    medians of the field over the cells that lie both inside the window
    of the end point and inside its own region ([label0] for the first
    window, [label1] for the second).  The median leaves out the NaN
    cells and nothing else: every number among the sampled cells, zero
    included, takes part. *)
Theorem bridge_values_sample_window_and_region
    (self : connectComponent) (radius : Z) (unw : ndarray float)
    (b : bridge) (img : ndarray Z) (value0 value1 : float) :
  labelImg self = Some img ->
  wf_shape img ->
  shape img = (length_ self, width self) ->
  0 <= x0 b + radius -> 0 <= y0 b + radius ->
  0 <= x1 b + radius -> 0 <= y1 b + radius ->
  bridge_values self radius unw b = Ok (value0, value1) ->
  let cells0 := sampled_cells self img unw (x0 b) (y0 b) radius (label0 b) in
  let cells1 := sampled_cells self img unw (x1 b) (y1 b) radius (label1 b) in
  value0 = median_sorted (Rsort (finite_values cells0)) /\
  value1 = median_sorted (Rsort (finite_values cells1)) /\
  (forall x, In x (finite_values cells0) <-> In (Fin x) cells0) /\
  (forall x, In x (finite_values cells1) <-> In (Fin x) cells1).
Proof.
  intros Himg Hwf Hshape Hx0 Hy0 Hx1 Hy1 Hv cells0 cells1.
  unfold bridge_values in Hv. inv_bind Hv. destruct a as [m0 m1].
  destruct (endpoint_masks_data _ _ _ _ _ _ Himg Hwf Hshape Hx0 Hy0 Hx1 Hy1 E)
    as [D0 D1].
  unfold np_select in Hv.
  destruct (shape_eqb (shape unw) (shape m0)); [|discriminate].
  destruct (shape_eqb (shape unw) (shape m1)); [|discriminate].
  simpl in Hv. injection Hv as <- <-.
  unfold cells0, cells1, sampled_cells, nanmedian. rewrite D0, D1.
  repeat split; try apply finite_values_In.
Qed.

(** ** Evaluation on sample objects *)

Arguments Rleb : simpl never.
Arguments Rltb : simpl never.
Arguments Reqb : simpl never.

Ltac eval_R :=
  repeat (simpl;
          first [ rewrite Rleb_true by lra
                | rewrite Rleb_false by lra
                | rewrite Rltb_true by lra
                | rewrite Rltb_false by lra
                | rewrite Reqb_true by lra
                | rewrite Reqb_false by lra ]);
  simpl.

Lemma six_masks :
  endpoint_masks six_object 3 six_bridge =
  Ok (NdArray (1, 6) [true; true; true; false; false; false],
      NdArray (1, 6) [false; false; false; true; true; true]).
Proof. vm_compute. reflexivity. Qed.

Lemma six_bridge_values :
  bridge_values six_object 3 six_field six_bridge = Ok (Fin 0, Fin 0).
Proof.
  unfold bridge_values. rewrite six_masks. simpl.
  unfold nanmedian, median_sorted. eval_R. reflexivity.
Qed.

Lemma six_spec_bridge_values :
  spec_bridge_values six_object 3 six_field six_bridge = Ok (Fin 5, Fin 7).
Proof.
  unfold spec_bridge_values. rewrite six_masks. simpl.
  unfold median_ignoring_zero, nanmedian, median_sorted. eval_R. reflexivity.
Qed.

(** C4, as stated, fails: with zero cells inside a region the medians of
    the code are not the medians that leave the zero cells out. *)
Lemma bridge_values_keep_zero_cells :
  bridge_values six_object 3 six_field six_bridge = Ok (Fin 0, Fin 0) /\
  spec_bridge_values six_object 3 six_field six_bridge = Ok (Fin 5, Fin 7) /\
  bridge_values six_object 3 six_field six_bridge
    <> spec_bridge_values six_object 3 six_field six_bridge.
Proof.
  split; [exact six_bridge_values|]. split; [exact six_spec_bridge_values|].
  rewrite six_bridge_values, six_spec_bridge_values.
  intros [= H _]. lra.
Qed.

Lemma bridge_values_sample_window_and_region_witness :
  let cells0 := sampled_cells six_object six_img six_field 2 0 3 1 in
  let cells1 := sampled_cells six_object six_img six_field 3 0 3 2 in
  Fin 0 = median_sorted (Rsort (finite_values cells0)) /\
  Fin 0 = median_sorted (Rsort (finite_values cells1)) /\
  (forall x, In x (finite_values cells0) <-> In (Fin x) cells0) /\
  (forall x, In x (finite_values cells1) <-> In (Fin x) cells1).
Proof.
  apply (bridge_values_sample_window_and_region
           six_object 3 six_field six_bridge six_img (Fin 0) (Fin 0)).
  - reflexivity.
  - repeat split; simpl; lia.
  - reflexivity.
  - simpl; lia.
  - simpl; lia.
  - simpl; lia.
  - simpl; lia.
  - exact six_bridge_values.
Defined.

(** ** The loop never raises on arrays of the right shape *)

Lemma endpoint_masks_total self radius b img :
  labelImg self = Some img ->
  exists m0 m1, endpoint_masks self radius b = Ok (m0, m1) /\
                shape m0 = shape img /\ shape m1 = shape img.
Proof.
  intros Himg. unfold endpoint_masks, get_bridge_endpoint_aoi_mask.
  rewrite Himg. simpl. eexists _, _. split; [reflexivity|].
  unfold np_mul_bool; simpl. rewrite !shape_slice_assign. auto.
Qed.

Lemma stitch_bridge_total self radius unw b img :
  labelImg self = Some img ->
  shape unw = shape img ->
  exists m0 m1,
    endpoint_masks self radius b = Ok (m0, m1) /\
    let value0 := nanmedian (select_cells (data unw) (data m0)) in
    let value1 := nanmedian (select_cells (data unw) (data m1)) in
    let num_jump := estimate_num_jump (fsub value1 value0) in
    bridge_values self radius unw b = Ok (value0, value1) /\
    stitch_bridge self radius unw b =
      Ok (NdArray (shape unw)
            (update_cells (jump_offset num_jump) (data unw)
                          (data (np_equal img (label1 b)))),
          (fsub value1 value0, num_jump)).
Proof.
  intros Himg Hshape.
  destruct (endpoint_masks_total self radius b img Himg)
    as (m0 & m1 & Hm & S0 & S1).
  exists m0, m1. split; [exact Hm|]. intros value0 value1 num_jump.
  assert (Hv : bridge_values self radius unw b = Ok (value0, value1)).
  { unfold bridge_values. rewrite Hm. simpl. unfold np_select.
    rewrite S0, S1, Hshape, shape_eqb_refl. reflexivity. }
  split; [exact Hv|].
  unfold stitch_bridge. rewrite Hv. simpl. rewrite Himg. simpl.
  unfold np_update. simpl. rewrite Hshape, shape_eqb_refl. reflexivity.
Qed.

Lemma select_cells_empty {A} (l : list A) (m : list bool) :
  forallb negb m = true -> select_cells l m = [].
Proof.
  revert m. induction l as [|x l IH]; intros [|b m]; simpl; auto.
  destruct b; simpl; [discriminate | apply IH].
Qed.

Lemma estimate_num_jump_NaN : estimate_num_jump NaN = NaN.
Proof. reflexivity. Qed.

Lemma fsub_NaN_l v : fsub NaN v = NaN.
Proof. reflexivity. Qed.

Lemma fsub_NaN_r v : fsub v NaN = NaN.
Proof. destruct v; reflexivity. Qed.

Lemma jump_offset_NaN v : jump_offset NaN v = NaN.
Proof. destruct v; reflexivity. Qed.

Lemma jump_offset_of_NaN j : jump_offset j NaN = NaN.
Proof. reflexivity. Qed.

(** Once a cell is NaN it stays NaN to the end of the loop, and the loop
    runs to its end. *)
Lemma stitch_bridges_total self radius img bs : forall unw,
  labelImg self = Some img ->
  shape unw = shape img ->
  exists out reports,
    stitch_bridges self radius unw bs = Ok (out, reports) /\
    shape out = shape unw /\
    List.length (data out) = List.length (data unw) /\
    List.length reports = List.length bs /\
    forall i, data unw !! i = Some NaN -> data out !! i = Some NaN.
Proof.
  induction bs as [|b bs IH]; intros unw Himg Hshape.
  - exists unw, []. simpl. auto.
  - destruct (stitch_bridge_total self radius unw b img Himg Hshape)
      as (m0 & m1 & _ & _ & Hs).
    cbn [stitch_bridges]. rewrite Hs. step_bind.
    match goal with
    | |- context [stitch_bridges _ _ ?u bs] =>
        destruct (IH u Himg Hshape) as (out & rs & Hr & So & Lo & Lr & Hn)
    end.
    rewrite Hr. step_bind. eexists _, _. split; [reflexivity|].
    cbn [data shape] in *. rewrite length_update_cells in Lo.
    split; [exact So|]. split; [exact Lo|]. split; [simpl; congruence|].
    intros i Hi. apply Hn.
    destruct (data (np_equal img (label1 b)) !! i) as [c|] eqn:Ec.
    + rewrite (update_cells_lookup _ _ _ _ _ _ Hi Ec).
      destruct c; reflexivity.
    + rewrite update_cells_lookup_None by exact Ec. exact Hi.
Qed.

(** C7 (amended).  When the window-and-region set of a bridge is empty,
    the loop does not raise and does not stop: it runs through all the
    bridges and returns normally.  The failure shows only in the values:
    the report of that bridge is NaN and every cell of its [label1]
    region is NaN in the returned field. *)
Theorem empty_window_propagates_nan_silently
    (self : connectComponent) (radius : Z) (unw : ndarray float)
    (img : ndarray Z) (pre post : list bridge) (b : bridge)
    (m0 m1 : ndarray bool) :
  labelImg self = Some img ->
  shape unw = shape img ->
  endpoint_masks self radius b = Ok (m0, m1) ->
  mask_empty m0 || mask_empty m1 = true ->
  exists out reports,
    stitch_bridges self radius unw (pre ++ b :: post) = Ok (out, reports) /\
    reports !! List.length pre = Some (NaN, NaN) /\
    forall (i : nat) (v : float),
      data img !! i = Some (label1 b) -> data unw !! i = Some v ->
      data out !! i = Some NaN.
Proof.
  intros Himg Hshape Hm Hempty. revert unw Hshape.
  induction pre as [|p pre IH]; intros unw Hshape.
  - cbn [app stitch_bridges].
    destruct (stitch_bridge_total self radius unw b img Himg Hshape)
      as (m0' & m1' & Hm' & _ & Hs).
    rewrite Hm in Hm'. injection Hm' as <- <-.
    assert (Hd : fsub (nanmedian (select_cells (data unw) (data m1)))
                      (nanmedian (select_cells (data unw) (data m0))) = NaN).
    { apply orb_true_iff in Hempty as [H|H]; unfold mask_empty in H;
        rewrite (select_cells_empty _ _ H).
      - apply fsub_NaN_r.
      - apply fsub_NaN_l. }
    rewrite Hd, estimate_num_jump_NaN in Hs. rewrite Hs. step_bind.
    match goal with
    | |- context [stitch_bridges _ _ ?u post] =>
        destruct (stitch_bridges_total self radius img post u Himg Hshape)
          as (out & rs & Hr & _ & _ & _ & Hn)
    end.
    rewrite Hr. step_bind. eexists _, _. split; [reflexivity|].
    split; [reflexivity|].
    intros i v Hl Hv. apply Hn. cbn [data].
    rewrite (update_cells_lookup _ _ _ _ _ _ Hv (np_equal_lookup _ _ _ _ Hl)).
    rewrite Z.eqb_refl. rewrite jump_offset_NaN. reflexivity.
  - cbn [app stitch_bridges].
    destruct (stitch_bridge_total self radius unw p img Himg Hshape)
      as (m0' & m1' & _ & _ & Hs).
    rewrite Hs. step_bind.
    match goal with
    | |- context [stitch_bridges _ _ ?u (pre ++ b :: post)] =>
        destruct (IH u Hshape) as (out & rs & Hr & Hrep & Hn)
    end.
    rewrite Hr. step_bind. eexists _, _. split; [reflexivity|].
    split; [exact Hrep|].
    intros i v Hl Hv.
    destruct (data (np_equal img (label1 p)) !! i) as [c|] eqn:Ec.
    + eapply Hn; [exact Hl|]. cbn [data].
      apply (update_cells_lookup _ _ _ _ _ _ Hv Ec).
    + eapply Hn; [exact Hl|]. cbn [data].
      rewrite update_cells_lookup_None by exact Ec. exact Hv.
Qed.

Lemma two_masks_radius_0 :
  endpoint_masks two_object 0 two_bridge =
  Ok (NdArray (1, 2) [false; false], NdArray (1, 2) [false; false]).
Proof. vm_compute. reflexivity. Qed.

Lemma empty_window_propagates_nan_silently_witness :
  labelImg two_object = Some two_img /\
  mask_empty (NdArray (1, 2) [false; false])
    || mask_empty (NdArray (1, 2) [false; false]) = true /\
  exists out reports,
    stitch_bridges two_object 0 (two_field (Fin 0) (Fin 1))
                   ([] ++ two_bridge :: []) = Ok (out, reports) /\
    reports !! 0%nat = Some (NaN, NaN) /\
    forall (i : nat) (v : float),
      data two_img !! i = Some 2 ->
      data (two_field (Fin 0) (Fin 1)) !! i = Some v ->
      data out !! i = Some NaN.
Proof.
  split; [reflexivity|]. split; [reflexivity|].
  exact (empty_window_propagates_nan_silently
           two_object 0 (two_field (Fin 0) (Fin 1)) two_img [] [] two_bridge
           _ _ eq_refl eq_refl two_masks_radius_0 eq_refl).
Defined.

Lemma two_radius : aoi_radius two_object 50 = 0.
Proof. vm_compute. reflexivity. Qed.

Lemma two_unwrap :
  unwrap_array no_ramp two_object (two_field (Fin 0) (Fin 1)) 50 None =
    Ok (two_field (Fin 0) NaN, [(NaN, NaN)]).
Proof.
  unfold unwrap_array. rewrite two_radius.
  cbn [subtract_reference two_object make_object refY fmap option_fmap option_map].
  step_bind. cbn [bridges two_object make_object getattr]. step_bind.
  cbn [stitch_bridges]. unfold stitch_bridge, bridge_values.
  rewrite two_masks_radius_0. reflexivity.
Qed.

(** C7, as stated, fails: on one row of two cells the radius rule gives
    radius 0, both windows are empty, and the method returns normally,
    with NaN in the second region and a NaN report. *)
Lemma unwrap_returns_normally_on_empty_window :
  aoi_radius two_object 50 = 0 /\
  endpoint_masks two_object 0 two_bridge =
    Ok (NdArray (1, 2) [false; false], NdArray (1, 2) [false; false]) /\
  unwrap_array no_ramp two_object (two_field (Fin 0) (Fin 1)) 50 None =
    Ok (two_field (Fin 0) NaN, [(NaN, NaN)]).
Proof.
  split; [exact two_radius|]. split; [exact two_masks_radius_0|].
  exact two_unwrap.
Qed.

(** ** The method works on a private copy *)

Section unwrap_heap.

Variable deramp :
  ndarray float -> ndarray bool -> string -> gmap string Z ->
  ndarray float * ndarray float.

(** The loop on the heap is the loop on array values, written back to the
    object it works on. *)
Lemma stitch_loop_spec self radius unw bs : forall (h : heap) a,
  h !! unw = Some a ->
  stitch_loop self radius unw bs h =
  match stitch_bridges self radius a bs with
  | Ok (out, rs) => Ok (rs, <[unw := out]> h)
  | Raise e => Raise e
  end.
Proof.
  induction bs as [|b bs IH]; intros h a Ha.
  - cbn [stitch_loop stitch_bridges]. rewrite insert_id by exact Ha.
    reflexivity.
  - cbn [stitch_loop stitch_bridges]. unfold heap_load. rewrite Ha. step_bind.
    destruct (stitch_bridge self radius a b) as [[a' r]|e]; [|reflexivity].
    step_bind.
    rewrite (IH (<[unw := a']> h) a') by apply lookup_insert_eq.
    destruct (stitch_bridges self radius a' bs) as [[out rs]|e];
      [|reflexivity].
    step_bind. rewrite insert_insert_eq. reflexivity.
Qed.

Lemma heap_modify_spec (h : heap) l a f :
  h !! l = Some a ->
  heap_modify h l f =
  match f a with Ok a' => Ok (<[l := a']> h) | Raise e => Raise e end.
Proof.
  intros Ha. unfold heap_modify, heap_load. rewrite Ha. step_bind.
  destruct (f a); reflexivity.
Qed.

Lemma fresh_not_in (h : heap) : h !! fresh (dom h) = None.
Proof. apply not_elem_of_dom, is_fresh. Qed.

(** C9 (amended).  The method copies the caller's array first
    ([np.array(unw, dtype=np.float32)]) and works in place, region by
    region, on a new object.  When it returns, the result is in that new
    object, whose reference it returns; the object passed in by the
    caller, like every object the caller had, holds what it held
    before. *)
Theorem unwrap_conn_comp_leaves_caller_array
    (self : connectComponent) (h h' : heap) (unw l : loc) (radius : Z)
    (ramp_type : option string) (reports : list report) :
  unwrap_conn_comp deramp self h unw radius ramp_type = Ok (l, reports, h') ->
  exists a out,
    h !! unw = Some a /\
    unwrap_array deramp self a radius ramp_type = Ok (out, reports) /\
    h' !! l = Some out /\
    h !! l = None /\
    l <> unw /\
    forall l0 a0, h !! l0 = Some a0 -> h' !! l0 = Some a0.
Proof.
  unfold unwrap_conn_comp, unwrap_array. intros H.
  inv_bind H. rename a into a0, E into Ha0.
  unfold heap_load in Ha0.
  destruct (h !! unw) as [a|] eqn:Ha; [|discriminate].
  injection Ha0 as <-.
  unfold heap_alloc in H. cbv beta iota zeta in H.
  set (u1 := fresh (dom h)) in *.
  assert (Hu1 : h !! u1 = None) by apply fresh_not_in.
  rewrite (heap_modify_spec _ u1 a) in H by apply lookup_insert_eq.
  destruct (subtract_reference self a) as [a1|e] eqn:Esub; [|discriminate].
  step_bind. rewrite bind_Ok_l in H. rewrite insert_insert_eq in H.
  destruct ramp_type as [rt|].
  - (* a ramp is removed and added back *)
    inv_bind H. destruct a0 as [[u ramp] h2].
    inv_bind E. rename a0 into img.
    inv_bind E. rename a0 into ref.
    destruct (labelImg self) as [img'|] eqn:Eimg; [|discriminate].
    destruct (labelRef self) as [ref'|] eqn:Eref; [|discriminate].
    injection E0 as ->. injection E1 as ->. step_bind.
    unfold heap_load in E. rewrite lookup_insert_eq in E.
    rewrite bind_Ok_l in E.
    destruct (deramp a1 (np_equal img ref) rt (metadata self))
      as [detrended r] eqn:Ed.
    cbv beta iota zeta in E.
    set (h1 := <[u1 := a1]> h) in *.
    set (u2 := fresh (dom h1)) in *.
    set (h2' := <[u2 := detrended]> h1) in *.
    set (u3 := fresh (dom h2')) in *.
    injection E as <- <- <-.
    assert (Hu2 : h1 !! u2 = None) by apply fresh_not_in.
    assert (Hu3 : h2' !! u3 = None) by apply fresh_not_in.
    assert (Hu23 : u3 <> u2).
    { intros ->. unfold h2' in Hu3. rewrite lookup_insert_eq in Hu3.
      discriminate. }
    assert (Hu12 : u2 <> u1).
    { intros E. rewrite E in Hu2. unfold h1 in Hu2.
      rewrite lookup_insert_eq in Hu2. discriminate. }
    assert (Hu13 : u3 <> u1).
    { intros E. rewrite E in Hu3. unfold h2', h1 in Hu3.
      rewrite lookup_insert_ne, lookup_insert_eq in Hu3 by auto.
      discriminate. }
    inv_bind H. rename a0 into bs.
    destruct (bridges self) as [bs'|] eqn:Ebs; [|discriminate].
    injection E as ->. step_bind.
    inv_bind H. destruct a0 as [rs h5].
    rewrite (stitch_loop_spec self _ u2 bs _ detrended) in E.
    2:{ rewrite lookup_insert_ne by auto. apply lookup_insert_eq. }
    destruct (stitch_bridges self (aoi_radius self radius) detrended bs)
      as [[out rs']|e] eqn:Est; [|discriminate].
    injection E as <- <-. step_bind.
    inv_bind H. rename a0 into h6.
    inv_bind E. rename a0 into rv.
    unfold heap_load in E0.
    rewrite lookup_insert_ne, lookup_insert_eq in E0 by auto.
    injection E0 as <-.
    rewrite (heap_modify_spec _ u2 out) in E by apply lookup_insert_eq.
    destruct (np_iadd out r) as [fin|e] eqn:Eadd; [|discriminate].
    injection E as <-. injection H as <- <- <-.
    exists a, fin. split; [reflexivity|].
    split.
    { rewrite Esub. cbn [getattr]. step_bind. rewrite Ed. step_bind.
      rewrite Est. step_bind. rewrite Eadd. reflexivity. }
    split; [apply lookup_insert_eq|].
    assert (Hu2h : h !! u2 = None).
    { unfold h1 in Hu2. rewrite lookup_insert_ne in Hu2 by auto. exact Hu2. }
    split; [exact Hu2h|]. split; [congruence|].
    intros l0 b0 Hl0.
    assert (l0 <> u1) by congruence.
    assert (l0 <> u2) by congruence.
    assert (l0 <> u3).
    { intros ->. unfold h2', h1 in Hu3.
      rewrite !lookup_insert_ne in Hu3 by auto. congruence. }
    unfold h2', h1. rewrite !lookup_insert_ne by auto. exact Hl0.
  - (* no ramp *)
    step_bind_in H.
    inv_bind H. rename a0 into bs.
    destruct (bridges self) as [bs'|] eqn:Ebs; [|discriminate].
    injection E as ->.
    inv_bind H. destruct a0 as [rs h5].
    rewrite (stitch_loop_spec self _ u1 bs _ a1) in E
      by apply lookup_insert_eq.
    destruct (stitch_bridges self (aoi_radius self radius) a1 bs)
      as [[out rs']|e] eqn:Est; [|discriminate].
    injection E as <- <-. step_bind_in H.
    injection H as <- <- <-.
    exists a, out. split; [reflexivity|].
    split.
    { rewrite Esub. cbn [getattr]. step_bind. rewrite Est. reflexivity. }
    rewrite insert_insert_eq.
    split; [apply lookup_insert_eq|]. split; [exact Hu1|].
    split; [congruence|].
    intros l0 b0 Hl0. rewrite lookup_insert_ne by congruence. exact Hl0.
Qed.

End unwrap_heap.

(** ** Fields that are constant on every region

    When the field is a function of the label, the loop body is a
    computation on one value per region. *)

Lemma Rinsert_repeat a n : Rinsert a (repeat a n) = repeat a (S n).
Proof.
  destruct n; simpl; [reflexivity|].
  rewrite Rleb_true by lra. reflexivity.
Qed.

Lemma Rsort_repeat a n : Rsort (repeat a n) = repeat a n.
Proof.
  induction n as [|n IH]; simpl; [reflexivity|].
  rewrite IH. apply Rinsert_repeat.
Qed.

Lemma nth_repeat_lt (a d : R) n k : (k < n)%nat -> nth k (repeat a n) d = a.
Proof.
  revert k. induction n as [|n IH]; intros [|k] H; simpl; try lia; auto.
  apply IH. lia.
Qed.

Lemma median_sorted_repeat a n : median_sorted (repeat a (S n)) = Fin a.
Proof.
  unfold median_sorted. rewrite repeat_length.
  assert (Hdiv : (S n / 2 < S n)%nat) by (apply Nat.div_lt; lia).
  destruct (Nat.even (S n)).
  - rewrite !nth_repeat_lt by lia. f_equal. lra.
  - rewrite nth_repeat_lt by lia. reflexivity.
Qed.

Lemma map_const_repeat (f : Z -> float) (l : Z) (ls : list Z) :
  forallb (Z.eqb l) ls = true -> map f ls = repeat (f l) (List.length ls).
Proof.
  induction ls as [|x ls IH]; simpl; [reflexivity|].
  intros H. apply andb_true_iff in H as [Hx Hls].
  apply Z.eqb_eq in Hx. subst x. rewrite IH by exact Hls. reflexivity.
Qed.

Lemma finite_values_repeat a n : finite_values (repeat (Fin a) n) = repeat a n.
Proof. induction n; simpl; congruence. Qed.

(** The median of a non-empty sample taken inside one region. *)
Lemma nanmedian_region (f : Z -> float) (l : Z) (ls : list Z) (a : R) :
  ls <> [] -> forallb (Z.eqb l) ls = true -> f l = Fin a ->
  nanmedian (map f ls) = Fin a.
Proof.
  intros Hne Hall Hf. rewrite (map_const_repeat f l ls Hall), Hf.
  unfold nanmedian. rewrite finite_values_repeat, Rsort_repeat.
  destruct ls as [|x ls]; [contradiction|]. apply median_sorted_repeat.
Qed.

Lemma update_cells_map_label {A} (g : A -> A) (f : Z -> A) (q : Z -> bool) ls :
  update_cells g (map f ls) (map q ls)
  = map (fun l => if q l then g (f l) else f l) ls.
Proof. induction ls as [|x ls IH]; simpl; [reflexivity|]. rewrite IH. reflexivity. Qed.

Lemma np_map_ext_in {A} (f g : Z -> A) (img : ndarray Z) :
  (forall l, In l (data img) -> f l = g l) -> np_map f img = np_map g img.
Proof. intros H. unfold np_map. f_equal. apply map_ext_in, H. Qed.

Lemma stitch_bridge_label_field self radius img (f : Z -> float) b m0 m1 :
  labelImg self = Some img ->
  endpoint_masks self radius b = Ok (m0, m1) ->
  let value0 := nanmedian (map f (select_cells (data img) (data m0))) in
  let value1 := nanmedian (map f (select_cells (data img) (data m1))) in
  let num_jump := estimate_num_jump (fsub value1 value0) in
  stitch_bridge self radius (np_map f img) b =
  Ok (np_map (fun l => if l =? label1 b then jump_offset num_jump (f l)
                       else f l) img,
      (fsub value1 value0, num_jump)).
Proof.
  intros Himg Hm value0 value1 num_jump.
  destruct (stitch_bridge_total self radius (np_map f img) b img Himg eq_refl)
    as (m0' & m1' & Hm' & _ & Hs).
  rewrite Hm in Hm'. injection Hm' as <- <-.
  rewrite Hs. subst value0 value1 num_jump.
  unfold np_equal, np_map. cbn [data shape].
  rewrite !select_cells_map, update_cells_map_label. reflexivity.
Qed.

(** The number of cycles, from bounds on the difference. *)
Lemma floor_cycles (d : R) (k : Z) :
  (IZR (2 * k - 1) * PI <= Rabs d < IZR (2 * k + 1) * PI)%R ->
  Zfloor ((Rabs d + PI) / (2 * PI)) = k.
Proof.
  intros [Hlo Hhi]. pose proof PI_RGT_0 as Hpi.
  rewrite minus_IZR, mult_IZR in Hlo. rewrite plus_IZR, mult_IZR in Hhi.
  apply Zfloor_eq. split.
  - apply Rmult_le_reg_r with (2 * PI)%R; [lra|].
    unfold Rdiv. rewrite Rmult_assoc, Rinv_l by lra. lra.
  - apply Rmult_lt_reg_r with (2 * PI)%R; [lra|].
    unfold Rdiv. rewrite Rmult_assoc, Rinv_l by lra. lra.
Qed.

Lemma estimate_num_jump_pos (d : R) (k : Z) :
  (0 < d)%R ->
  (IZR (2 * k - 1) * PI <= d < IZR (2 * k + 1) * PI)%R ->
  estimate_num_jump (Fin d) = Fin (IZR (- k)).
Proof.
  intros Hd Hb. rewrite estimate_num_jump_Fin.
  rewrite (floor_cycles d k) by (rewrite Rabs_pos_eq by lra; exact Hb).
  destruct (Rlt_dec 0 d); [|contradiction].
  replace (-1 * k) with (- k) by lia. reflexivity.
Qed.

Lemma estimate_num_jump_nonpos (d : R) (k : Z) :
  (d <= 0)%R ->
  (IZR (2 * k - 1) * PI <= - d < IZR (2 * k + 1) * PI)%R ->
  estimate_num_jump (Fin d) = Fin (IZR k).
Proof.
  intros Hd Hb. rewrite estimate_num_jump_Fin.
  rewrite (floor_cycles d k)
    by (rewrite <- Rabs_Ropp, Rabs_pos_eq by lra; exact Hb).
  destruct (Rlt_dec 0 d); [lra|].
  replace (1 * k) with k by lia. reflexivity.
Qed.

Lemma np_getitem_map {A B} (f : A -> B) (a : ndarray A) y x v :
  np_getitem a y x = Ok v -> np_getitem (np_map f a) y x = Ok (f v).
Proof.
  unfold np_getitem, np_map. cbn [shape data]. intros H.
  destruct (axis_index (fst (shape a)) y) as [y'|]; [|discriminate].
  destruct (axis_index (snd (shape a)) x) as [x'|]; [|discriminate].
  step_bind. step_bind_in H.
  change (map f (data a)) with (f <$> data a). rewrite list_lookup_fmap.
  destruct (data a !! Z.to_nat (y' * (shape a).2 + x')); [|discriminate].
  injection H as ->. reflexivity.
Qed.

Lemma subtract_reference_label_field self img (f : Z -> float) ry rx l :
  refY self = Some ry -> refX self = Some rx ->
  np_getitem img ry rx = Ok l ->
  subtract_reference self (np_map f img) =
  Ok (np_map (fun k => if fne (f k) (Fin 0) then fsub (f k) (f l) else f k)
             img).
Proof.
  intros Hy Hx Hl. unfold subtract_reference. rewrite Hy, Hx.
  cbn [getattr]. step_bind. rewrite (np_getitem_map f img ry rx l Hl).
  step_bind. unfold np_update, np_map. cbn [shape data].
  rewrite shape_eqb_refl, map_map, update_cells_map_label. reflexivity.
Qed.

Lemma sampled_labels_stitch self radius img (f : Z -> float) b ls0 ls1 :
  labelImg self = Some img ->
  sampled_labels self radius b = Ok (ls0, ls1) ->
  let value0 := nanmedian (map f ls0) in
  let value1 := nanmedian (map f ls1) in
  let num_jump := estimate_num_jump (fsub value1 value0) in
  stitch_bridge self radius (np_map f img) b =
  Ok (np_map (fun l => if l =? label1 b then jump_offset num_jump (f l)
                       else f l) img,
      (fsub value1 value0, num_jump)).
Proof.
  intros Himg Hs. unfold sampled_labels in Hs.
  destruct (endpoint_masks self radius b) as [[m0 m1]|] eqn:Hm; [|discriminate].
  rewrite Himg in Hs. cbn [getattr] in Hs. step_bind_in Hs.
  injection Hs as <- <-.
  apply (stitch_bridge_label_field self radius img f b m0 m1 Himg Hm).
Qed.

Lemma map_const_in {A} (f : Z -> A) (c : A) (ls : list Z) :
  (forall l, In l ls -> f l = c) -> map f ls = repeat c (List.length ls).
Proof.
  induction ls as [|x ls IH]; intros H; simpl; [reflexivity|].
  rewrite (H x) by (left; reflexivity).
  rewrite IH by (intros l Hl; apply H; right; exact Hl). reflexivity.
Qed.

(** ** The 10 x 10 scene *)

Lemma ten_labelled :
  (fun s => (numLabel s, labelRef s, aoi_radius s 50))
    <$> labelled ten_mask ref_metadata = Ok (Some 1, Some 1, 0).
Proof. vm_compute. reflexivity. Qed.

Lemma ten_prepare : prepare ten_mask ref_metadata = Raise IndexError.
Proof. vm_compute. reflexivity. Qed.

Lemma ten_field_levels a b :
  ten_field a b = np_map (two_level a b) split_img.
Proof. vm_compute. reflexivity. Qed.

Lemma split_facts :
  labelImg split_object = Some split_img /\
  refY split_object = Some 2 /\ refX split_object = Some 5 /\
  bridges split_object = Some [split_bridge] /\
  aoi_radius split_object 50 = 0 /\
  np_getitem split_img 2 5 = Ok 1 /\
  sampled_labels split_object 0 split_bridge = Ok ([], []) /\
  forallb (fun l => (l =? 1) || (l =? 2)) (data split_img) = true /\
  data split_img !! 50%nat = Some 2.
Proof. vm_compute. repeat split; reflexivity. Qed.

Lemma split_unwrap :
  exists out,
    unwrap_array no_ramp split_object (ten_field (Fin 0) (Fin (4 * PI))) 50 None
      = Ok (out, [(NaN, NaN)]) /\
    data out !! 50%nat = Some NaN.
Proof.
  destruct split_facts as (Himg & Hy & Hx & Hbs & Hr & Href & Hs & _ & H50).
  unfold unwrap_array. rewrite Hr, ten_field_levels.
  rewrite (subtract_reference_label_field _ _ _ _ _ _ Hy Hx Href).
  step_bind. rewrite Hbs. cbn [getattr]. step_bind.
  cbn [stitch_bridges].
  rewrite (sampled_labels_stitch _ _ _ _ _ _ _ Himg Hs). step_bind.
  cbn [map]. change (nanmedian []) with NaN. cbn [fsub].
  rewrite estimate_num_jump_NaN.
  eexists. split; [reflexivity|].
  unfold np_map. cbn [data].
  change (map ?f (data split_img)) with (f <$> data split_img).
  rewrite list_lookup_fmap, H50. cbn [fmap option_fmap option_map].
  change (2 =? label1 split_bridge) with true. cbv iota.
  rewrite jump_offset_NaN. reflexivity.
Qed.

(** C3, as stated, fails.  On the all-true 10 x 10 mask the labelling
    finds one region, not two, so the bridge search has no second region
    to reach and no bridge list is produced; the radius rule gives
    radius 0.  Even when the two halves are handed over as two regions
    joined by one bridge, the windows of radius 0 are empty and the
    second half comes out as NaN, not as 0. *)
Lemma ten_by_ten_scene_is_not_stitched :
  (fun s => (numLabel s, labelRef s, aoi_radius s 50))
    <$> labelled ten_mask ref_metadata = Ok (Some 1, Some 1, 0) /\
  prepare ten_mask ref_metadata = Raise IndexError /\
  exists out,
    unwrap_array no_ramp split_object (ten_field (Fin 0) (Fin (4 * PI))) 50 None
      = Ok (out, [(NaN, NaN)]) /\
    data out !! 50%nat = Some NaN.
Proof.
  split; [exact ten_labelled|]. split; [exact ten_prepare|].
  exact split_unwrap.
Qed.

(** ** The 20 x 20 scene *)

Lemma gap_prepared :
  (fun s => (labelImg s, numLabel s, labelRef s, bridges s, refY s, refX s,
             aoi_radius s 50, sampled_labels s 1 gap_bridge))
    <$> prepare gap_mask ref_metadata
  = Ok (Some gap_img, Some 2, Some 1, Some [gap_bridge], Some 2, Some 5,
        1, Ok ([1; 1], [2; 2])).
Proof. vm_compute. reflexivity. Qed.

Lemma gap_field_levels a b :
  gap_field a b = np_map (two_level a b) gap_img.
Proof. vm_compute. reflexivity. Qed.

Lemma gap_img_facts :
  forallb (fun l => (l =? 0) || (l =? 1) || (l =? 2)) (data gap_img) = true /\
  List.length (data gap_img) = 400%nat /\
  shape gap_img = (20, 20) /\
  np_getitem gap_img 2 5 = Ok 1.
Proof. vm_compute. repeat split; reflexivity. Qed.

Lemma gap_img_labels l :
  In l (data gap_img) -> l = 0 \/ l = 1 \/ l = 2.
Proof.
  intros H. destruct gap_img_facts as (Hall & _).
  rewrite forallb_forall in Hall. specialize (Hall l H).
  apply orb_true_iff in Hall as [Hall|Hall];
    [apply orb_true_iff in Hall as [Hall|Hall]|];
    apply Z.eqb_eq in Hall; auto.
Qed.

(** The field of a scene after the loop, from the value it takes on each
    label. *)
Lemma np_map_full (f : Z -> float) (c : float) (img : ndarray Z) :
  (forall l, In l (data img) -> f l = c) ->
  Z.to_nat (fst (shape img) * snd (shape img)) = List.length (data img) ->
  np_map f img = np_full (shape img) c.
Proof.
  intros H Hlen. unfold np_map, np_full. f_equal.
  rewrite Hlen. apply map_const_in, H.
Qed.

(** One pass over the 20 x 20 scene whose second region is offset by
    [b]: the field the loop starts from and the sampled values. *)
Lemma gap_unwrap_start self (b : R) :
  labelImg self = Some gap_img ->
  refY self = Some 2 -> refX self = Some 5 ->
  subtract_reference self (np_map (two_level (Fin 0) (Fin b)) gap_img)
  = Ok (np_map (two_level (Fin 0) (Fin b)) gap_img).
Proof.
  intros Himg Hy Hx. destruct gap_img_facts as (_ & _ & _ & Href).
  rewrite (subtract_reference_label_field _ _ _ _ _ _ Hy Hx Href).
  f_equal. apply np_map_ext_in. intros l Hl.
  destruct (gap_img_labels l Hl) as [-> | [-> | ->]];
    unfold two_level; cbn [Z.eqb Pos.eqb fne].
  - rewrite Reqb_true by reflexivity. reflexivity.
  - rewrite Reqb_true by reflexivity. reflexivity.
  - destruct (Req_dec_T b 0) as [->|Hb].
    + rewrite Reqb_true by reflexivity. reflexivity.
    + rewrite Reqb_false by exact Hb. cbn [negb fsub]. f_equal. lra.
Qed.

Lemma gap_stitch self (b : R) :
  labelImg self = Some gap_img ->
  sampled_labels self 1 gap_bridge = Ok ([1; 1], [2; 2]) ->
  stitch_bridge self 1 (np_map (two_level (Fin 0) (Fin b)) gap_img) gap_bridge
  = Ok (np_map (two_level (Fin 0)
                  (jump_offset (estimate_num_jump (Fin (b - 0))) (Fin b)))
               gap_img,
        (Fin (b - 0), estimate_num_jump (Fin (b - 0)))).
Proof.
  intros Himg Hs.
  rewrite (sampled_labels_stitch _ _ _ _ _ _ _ Himg Hs).
  rewrite (nanmedian_region _ 1 [1; 1] 0) by (reflexivity || discriminate).
  rewrite (nanmedian_region _ 2 [2; 2] b) by (reflexivity || discriminate).
  cbn [fsub].
  match goal with
  | |- Ok (?x, _) = Ok (?y, _) => assert (x = y) as ->; [|reflexivity]
  end.
  apply np_map_ext_in. intros l Hl.
  destruct (gap_img_labels l Hl) as [-> | [-> | ->]]; reflexivity.
Qed.

Lemma gap_scene :
  exists self out,
    prepare gap_mask ref_metadata = Ok self /\
    labelImg self = Some gap_img /\
    np_getitem gap_img 2 5 = Ok 1 /\
    numLabel self = Some 2 /\
    labelRef self = Some 1 /\
    bridges self = Some [gap_bridge] /\
    aoi_radius self 50 = 1 /\
    unwrap_array no_ramp self (gap_field (Fin 0) (Fin (4 * PI))) 50 None
      = Ok (out, [(Fin (4 * PI), Fin (-2))]) /\
    out = np_full (20, 20) (Fin 0).
Proof.
  pose proof gap_prepared as Hp. pose proof PI_RGT_0 as Hpi.
  destruct (prepare gap_mask ref_metadata) as [self|]; [|discriminate].
  cbn [fmap result_fmap] in Hp.
  injection Hp as Himg Hnum Href Hbs Hy Hx Hr Hs.
  destruct gap_img_facts as (_ & Hlen & Hshape & Hget).
  exists self. eexists. split; [reflexivity|].
  repeat (split; [assumption|]).
  unfold unwrap_array. rewrite Hr, gap_field_levels.
  rewrite (gap_unwrap_start self _ Himg Hy Hx). step_bind.
  rewrite Hbs. cbn [getattr]. step_bind. cbn [stitch_bridges].
  rewrite (gap_stitch self _ Himg Hs). step_bind.
  replace (4 * PI - 0)%R with (4 * PI)%R by lra.
  rewrite (estimate_num_jump_pos (4 * PI) 2).
  2:{ lra. }
  2:{ change (2 * 2 - 1) with 3. change (2 * 2 + 1) with 5. lra. }
  split; [reflexivity|].
  rewrite <- Hshape. apply np_map_full.
  - intros l Hl.
    destruct (gap_img_labels l Hl) as [-> | [-> | ->]];
      unfold two_level; cbn [Z.eqb Pos.eqb]; try reflexivity.
    unfold jump_offset, np_pi. cbn [fadd fmul]. f_equal.
    rewrite opp_IZR. lra.
  - rewrite Hlen, Hshape. reflexivity.
Qed.

(** C3 (amended).  On a 20 x 20 mask whose rows 0-8 (region A) and rows
    11-19 (region B) are true and whose rows 9-10 are false, with the
    field 0 on A and on the gap and 4 pi on B and the reference pixel at
    row 2, column 5: the prepared object has two regions, the reference
    label is the label of A, there is one bridge, from A to B, the radius
    rule gives radius 1, the bridge reports a difference of 4 pi and
    [num_jump = -2], and the returned field is 0 everywhere. *)
Theorem gap_scene_is_stitched :
  exists self out,
    prepare gap_mask ref_metadata = Ok self /\
    labelImg self = Some gap_img /\
    np_getitem gap_img 2 5 = Ok 1 /\
    numLabel self = Some 2 /\
    labelRef self = Some 1 /\
    bridges self = Some [gap_bridge] /\
    aoi_radius self 50 = 1 /\
    unwrap_array no_ramp self (gap_field (Fin 0) (Fin (4 * PI))) 50 None
      = Ok (out, [(Fin (4 * PI), Fin (-2))]) /\
    out = np_full (20, 20) (Fin 0).
Proof. exact gap_scene. Qed.

(** ** The method on the heap, without ramp *)

Lemma unwrap_conn_comp_no_ramp deramp self (h : heap) unw radius a out rs :
  h !! unw = Some a ->
  unwrap_array deramp self a radius None = Ok (out, rs) ->
  unwrap_conn_comp deramp self h unw radius None =
  Ok (fresh (dom h), rs, <[fresh (dom h) := out]> h).
Proof.
  intros Ha Hu. unfold unwrap_array in Hu. unfold unwrap_conn_comp.
  unfold heap_load. rewrite Ha. step_bind.
  unfold heap_alloc. cbv beta iota zeta.
  rewrite (heap_modify_spec _ _ a) by apply lookup_insert_eq.
  destruct (subtract_reference self a) as [a1|e]; [|discriminate].
  step_bind. step_bind_in Hu. rewrite insert_insert_eq.
  destruct (bridges self) as [bs|]; [|discriminate].
  cbn [getattr] in *. step_bind. step_bind_in Hu.
  rewrite (stitch_loop_spec self _ _ bs _ a1) by apply lookup_insert_eq.
  destruct (stitch_bridges self (aoi_radius self radius) a1 bs)
    as [[out' rs']|e]; [|discriminate].
  step_bind_in Hu. injection Hu as -> ->. step_bind.
  rewrite insert_insert_eq. reflexivity.
Qed.

Lemma unwrap_conn_comp_leaves_caller_array_witness :
  exists a out,
    ({[1%positive := two_field (Fin 0) (Fin 1)]} : heap) !! 1%positive
      = Some a /\
    unwrap_array no_ramp two_object a 50 None = Ok (out, [(NaN, NaN)]) /\
    (<[2%positive := two_field (Fin 0) NaN]>
       {[1%positive := two_field (Fin 0) (Fin 1)]} : heap) !! 2%positive
      = Some out /\
    ({[1%positive := two_field (Fin 0) (Fin 1)]} : heap) !! 2%positive = None /\
    2%positive <> 1%positive /\
    forall l0 a0,
      ({[1%positive := two_field (Fin 0) (Fin 1)]} : heap) !! l0 = Some a0 ->
      (<[2%positive := two_field (Fin 0) NaN]>
         {[1%positive := two_field (Fin 0) (Fin 1)]} : heap) !! l0 = Some a0.
Proof.
  apply (unwrap_conn_comp_leaves_caller_array no_ramp two_object
           {[1%positive := two_field (Fin 0) (Fin 1)]} _ 1%positive
           2%positive 50 None [(NaN, NaN)]).
  rewrite (unwrap_conn_comp_no_ramp no_ramp two_object _ 1%positive 50
             (two_field (Fin 0) (Fin 1)) (two_field (Fin 0) NaN)
             [(NaN, NaN)]).
  - reflexivity.
  - apply lookup_singleton_eq.
  - apply two_unwrap.
Defined.

Lemma np_full_last (c : float) :
  data (np_full (20, 20) c) !! 399%nat = Some c.
Proof. vm_compute. reflexivity. Qed.

Lemma gap_field_last (a b : float) :
  data (gap_field a b) !! 399%nat = Some b.
Proof. vm_compute. reflexivity. Qed.

(** C9, as stated, fails: after the method has stitched the 20 x 20
    scene, the array the caller passed still holds 4 pi on the second
    region; the stitched field is in another object. *)
Lemma caller_array_is_not_stitched :
  exists self l h',
    prepare gap_mask ref_metadata = Ok self /\
    unwrap_conn_comp no_ramp self
      {[1%positive := gap_field (Fin 0) (Fin (4 * PI))]} 1%positive 50 None
      = Ok (l, [(Fin (4 * PI), Fin (-2))], h') /\
    h' !! l = Some (np_full (20, 20) (Fin 0)) /\
    h' !! 1%positive = Some (gap_field (Fin 0) (Fin (4 * PI))) /\
    gap_field (Fin 0) (Fin (4 * PI)) <> np_full (20, 20) (Fin 0).
Proof.
  destruct gap_scene
    as (self & out & Hp & _ & _ & _ & _ & _ & _ & Hu & ->).
  exists self. eexists _, _. split; [exact Hp|].
  split.
  { apply (unwrap_conn_comp_no_ramp no_ramp self _ 1%positive 50 _ _ _
             (lookup_singleton_eq _ _) Hu). }
  split; [apply lookup_insert_eq|].
  split.
  { rewrite lookup_insert_ne; [apply lookup_singleton_eq|].
    intros E.
    pose proof (fresh_not_in
                  {[1%positive := gap_field (Fin 0) (Fin (4 * PI))]}) as Hf.
    rewrite E, lookup_singleton_eq in Hf. discriminate. }
  intros E. apply (f_equal (fun a => data a !! 399%nat)) in E.
  rewrite gap_field_last, np_full_last in E. injection E as E.
  pose proof PI_RGT_0. lra.
Qed.

(** ** The boundary image *)

Lemma zip_with_map_map {A B A' B' C} (f : A' -> B' -> C) (g : A -> A')
    (h : B -> B') (l : list A) (k : list B) :
  zip_with f (map g l) (map h k) = zip_with (fun a b => f (g a) (h b)) l k.
Proof.
  revert k. induction l as [|a l IH]; intros [|b k]; simpl; auto.
  rewrite IH. reflexivity.
Qed.

Lemma uint8_flag_mul (bnd : bool) (v : Z) :
  ((if bnd then 1 else 0) * (v mod 256)) mod 256
  = if bnd then v mod 256 else 0.
Proof.
  destruct bnd.
  - rewrite Z.mul_1_l. apply Z.mod_mod. lia.
  - reflexivity.
Qed.

(** C10.  The boundary image is computed from the eroded label image
    after its cast to [uint8]: a boundary cell stores the eroded label
    reduced modulo 256, every other cell stores 0.  So every stored id is
    below 256, a label of at most 255 is stored as it is, and a label
    that is a multiple of 256 is stored as 0, the background. *)
Theorem boundary_labels_mod_256 (label_img : ndarray Z) (erosion_size : Z) :
  let eroded := morph_erosion label_img erosion_size in
  let label_erosion_img := eroded_labels label_img erosion_size in
  data label_erosion_img = map (fun v => v mod 256) (data eroded) /\
  data (boundary_labels label_erosion_img) =
    zip_with (fun (bnd : bool) v => if bnd then v mod 256 else 0)
             (data (seg_find_boundaries label_erosion_img)) (data eroded) /\
  Forall (fun v => 0 <= v < 256) (data (boundary_labels label_erosion_img)).
Proof.
  intros eroded label_erosion_img.
  assert (Hd : data (boundary_labels label_erosion_img) =
    zip_with (fun (bnd : bool) v => if bnd then v mod 256 else 0)
             (data (seg_find_boundaries label_erosion_img)) (data eroded)).
  { unfold boundary_labels, uint8_imul, bool_astype_uint8, np_map.
    cbn [data]. unfold label_erosion_img at 2, eroded_labels, astype_uint8,
      np_map. cbn [data]. fold eroded.
    rewrite zip_with_map_map. apply zip_with_ext; [|reflexivity..].
    intros bnd v. apply uint8_flag_mul. }
  split; [reflexivity|]. split; [exact Hd|].
  rewrite Hd. generalize (data (seg_find_boundaries label_erosion_img)).
  generalize (data eroded). clear.
  induction l as [|v l IH]; intros [|b k]; simpl; auto.
  constructor; [|apply IH].
  destruct b; [apply Z.mod_pos_bound|]; lia.
Qed.

(** A region numbered 256 is stored as background, a region numbered 257
    as region 1, a region numbered 255 as itself. *)
Example eroded_label_wraps :
  data (eroded_labels (NdArray (1, 3) [255; 256; 257]) 1) = [255; 0; 1].
Proof. vm_compute. reflexivity. Qed.

(** ** The checks of the constructor and of the method *)


(** *** What a failing call leaves behind *)

Lemma run_bind_eq {S A B} (m : run S A) (f : A -> run S B) (s : S) :
  (m ≫= f) s =
  match m s with
  | (Ok a, s') => f a s'
  | (Raise e, s') => (Raise e, s')
  end.
Proof. reflexivity. Qed.

Ltac run_done :=
  let H := fresh in intros H; injection H as _ <-.

Ltac run_step :=
  repeat (progress
            (rewrite ?run_bind_eq;
             cbn [lift load store alloc heap_alloc setattr mret run_ret];
             cbv beta iota)).

Ltac both_step := repeat (progress (run_step; step_bind)).

(** [__init__] run on an instance has the outcome of [init]. *)
Lemma init_run_outcome (conncomp : pyobject) (meta : gmap string Z)
    (self : instance) :
  (init_run conncomp meta self).1 = (fun _ => tt) <$> init conncomp meta.
Proof.
  unfold init_run, init.
  destruct (negb (String.eqb (type_module conncomp) "numpy"));
    [reflexivity|].
  run_step.
  destruct (meta !! "REF_Y") as [y|]; run_step.
  - unfold dict_get. destruct (meta !! "REF_X") as [x|]; run_step;
      [|reflexivity].
    step_bind. destruct (obj_shape conncomp) as [shp|]; cbn [getattr];
      run_step; [|reflexivity].
    step_bind. destruct shp as [|l [|w [|? ?]]]; run_step; reflexivity.
  - step_bind. destruct (obj_shape conncomp) as [shp|]; cbn [getattr];
      run_step; [|reflexivity].
    step_bind. destruct shp as [|l [|w [|? ?]]]; run_step; reflexivity.
Qed.

Lemma construct_outcome (conncomp : pyobject) (meta : gmap string Z)
    (objs : gmap positive instance) :
  (construct conncomp meta objs).1
  = (fun _ => fresh (dom objs)) <$> init conncomp meta.
Proof.
  unfold construct.
  pose proof (init_run_outcome conncomp meta ∅) as H.
  destruct (init_run conncomp meta ∅) as [r self]. cbn [fst] in *.
  destruct (init conncomp meta) as [o|e], r as [[]|e']; cbn in H;
    try discriminate; [reflexivity|].
  injection H as ->. reflexivity.
Qed.

Lemma construct_frame (conncomp : pyobject) (meta : gmap string Z)
    (objs : gmap positive instance) (l : positive) (inst : instance) :
  objs !! l = Some inst -> (construct conncomp meta objs).2 !! l = Some inst.
Proof.
  intros Hl. unfold construct.
  destruct (init_run conncomp meta ∅) as [r self]. cbn [snd].
  rewrite lookup_insert_ne; [exact Hl|].
  intros <-. pose proof (is_fresh (dom objs)) as Hf.
  apply Hf. apply elem_of_dom. eauto.
Qed.

Lemma subtract_reference_outcome self (a : ndarray float) :
  (is_Some (refY self) -> is_Some (refX self)) ->
  subtract_reference self a = Raise IndexError \/
  exists a', subtract_reference self a = Ok a' /\ shape a' = shape a.
Proof.
  intros Href. unfold subtract_reference.
  destruct (refY self) as [ry|]; [|right; eauto].
  destruct (Href (ex_intro _ ry eq_refl)) as [rx ->]. cbn [getattr].
  step_bind.
  assert (Hget : np_getitem a ry rx = Raise IndexError \/
                 exists v, np_getitem a ry rx = Ok v).
  { unfold np_getitem, axis_index.
    repeat (match goal with
            | |- context [if ?c then _ else _] => destruct c
            end; step_bind; auto).
    all: destruct (data a !! _); eauto. }
  destruct Hget as [->|[v ->]]; [left; reflexivity|]. step_bind.
  right. unfold np_update, np_map. cbn [shape]. rewrite shape_eqb_refl.
  eexists. split; reflexivity.
Qed.

Lemma stitch_bridge_other_shape self radius (a : ndarray float) b img :
  labelImg self = Some img -> shape a <> shape img ->
  stitch_bridge self radius a b = Raise IndexError.
Proof.
  intros Himg Hshape. unfold stitch_bridge, bridge_values.
  destruct (endpoint_masks_total self radius b img Himg)
    as (m0 & m1 & Hm & S0 & S1).
  rewrite Hm. step_bind. unfold np_select.
  destruct (shape_eqb (shape a) (shape m0)) eqn:Es; [|reflexivity].
  apply shape_eqb_eq in Es. congruence.
Qed.

Section unwrap_run_facts.

Variable deramp :
  ndarray float -> ndarray bool -> string -> gmap string Z ->
  ndarray float * ndarray float.

(** The loop writes to the object [unw] only. *)
Lemma stitch_loop_run_frame self radius unw bs : forall (h : heap) r h',
  stitch_loop_run self radius unw bs h = (r, h') ->
  forall l, l <> unw -> h' !! l = h !! l.
Proof.
  induction bs as [|b bs IH]; intros h r h' H l Hl.
  - injection H as _ <-. reflexivity.
  - cbn [stitch_loop_run] in H. revert H. run_step.
    destruct (heap_load h unw) as [a|]; [|run_done; reflexivity].
    run_step.
    destruct (stitch_bridge self radius a b) as [[a' rep]|];
      [|run_done; reflexivity].
    run_step.
    destruct (stitch_loop_run self radius unw bs (<[unw := a']> h))
      as [[rs|e] h1] eqn:E; run_done;
      rewrite (IH _ _ _ E l Hl); apply lookup_insert_ne; congruence.
Qed.

(** The loop on the heap is the loop of [unwrap_conn_comp]. *)
Lemma stitch_loop_run_outcome self radius unw bs : forall h : heap,
  stitch_loop self radius unw bs h =
  match stitch_loop_run self radius unw bs h with
  | (Ok rs, h') => Ok (rs, h')
  | (Raise e, _) => Raise e
  end.
Proof.
  induction bs as [|b bs IH]; intros h; [reflexivity|].
  cbn [stitch_loop stitch_loop_run]. run_step.
  destruct (heap_load h unw) as [a|]; [|reflexivity]. both_step.
  destruct (stitch_bridge self radius a b) as [[a' rep]|]; [|reflexivity].
  both_step. rewrite IH.
  destruct (stitch_loop_run self radius unw bs (<[unw := a']> h))
    as [[rs|e] h1]; reflexivity.
Qed.

(** Whatever its outcome, the method leaves every object of the initial
    heap as it was: it writes to the objects it allocates. *)
Lemma unwrap_conn_comp_run_frame self unw radius ramp_type (h : heap) r h' :
  unwrap_conn_comp_run deramp self unw radius ramp_type h = (r, h') ->
  forall l a, h !! l = Some a -> h' !! l = Some a.
Proof.
  intros H l a Hl. revert H. unfold unwrap_conn_comp_run. run_step.
  destruct (heap_load h unw) as [a0|]; [|run_done; exact Hl].
  run_step.
  set (l0 := fresh (dom h)).
  assert (Hl0 : l <> l0).
  { intros ->. apply (is_fresh (dom h)). apply elem_of_dom. eauto. }
  unfold heap_load at 1. rewrite lookup_insert_eq. run_step.
  destruct (subtract_reference self a0) as [a1|];
    [|run_done; rewrite lookup_insert_ne by congruence; exact Hl].
  run_step. rewrite insert_insert_eq.
  set (h2 := <[l0 := a1]> h).
  assert (H2 : h2 !! l = Some a)
    by (unfold h2; rewrite lookup_insert_ne by congruence; exact Hl).
  destruct ramp_type as [rt|]; run_step.
  - destruct (getattr "labelImg" (labelImg self)) as [img|];
      [|run_done; exact H2].
    run_step.
    destruct (getattr "labelRef" (labelRef self)) as [ref|];
      [|run_done; exact H2].
    run_step.
    unfold heap_load at 1. unfold h2 at 1. rewrite lookup_insert_eq.
    fold h2. run_step.
    destruct (deramp a1 (np_equal img ref) rt (metadata self))
      as [detrended ramp]. run_step.
    set (l1 := fresh (dom h2)).
    assert (Hl1 : l <> l1).
    { intros ->. apply (is_fresh (dom h2)). apply elem_of_dom. eauto. }
    set (h3 := <[l1 := detrended]> h2).
    assert (H3 : h3 !! l = Some a)
      by (unfold h3; rewrite lookup_insert_ne by congruence; exact H2).
    set (l2 := fresh (dom h3)).
    assert (Hl2 : l <> l2).
    { intros ->. apply (is_fresh (dom h3)). apply elem_of_dom. eauto. }
    set (h4 := <[l2 := ramp]> h3).
    assert (H4 : h4 !! l = Some a)
      by (unfold h4; rewrite lookup_insert_ne by congruence; exact H3).
    destruct (getattr "bridges" (bridges self)) as [bs|];
      [|run_done; exact H4].
    run_step.
    destruct (stitch_loop_run self (aoi_radius self radius) l1 bs h4)
      as [[jumps|e] h5] eqn:E.
    2:{ run_done.
        rewrite (stitch_loop_run_frame _ _ _ _ _ _ _ E l Hl1). exact H4. }
    assert (H5 : h5 !! l = Some a)
      by (rewrite (stitch_loop_run_frame _ _ _ _ _ _ _ E l Hl1); exact H4).
    run_step.
    destruct (heap_load h5 l2) as [rv|]; [|run_done; exact H5].
    run_step.
    destruct (heap_load h5 l1) as [av|]; [|run_done; exact H5].
    run_step.
    destruct (np_iadd av rv) as [a'|]; run_step; run_done;
      [rewrite lookup_insert_ne by congruence|]; exact H5.
  - destruct (getattr "bridges" (bridges self)) as [bs|];
      [|run_done; exact H2].
    run_step.
    destruct (stitch_loop_run self (aoi_radius self radius) l0 bs h2)
      as [[jumps|e] h5] eqn:E; run_step; run_done;
      rewrite (stitch_loop_run_frame _ _ _ _ _ _ _ E l Hl0); exact H2.
Qed.

(** The method with the heap it leaves is the method above. *)
Lemma unwrap_conn_comp_run_outcome self unw radius ramp_type (h : heap) :
  unwrap_conn_comp deramp self h unw radius ramp_type =
  match unwrap_conn_comp_run deramp self unw radius ramp_type h with
  | (Ok (l, rs), h') => Ok (l, rs, h')
  | (Raise e, _) => Raise e
  end.
Proof.
  unfold unwrap_conn_comp, unwrap_conn_comp_run. run_step.
  destruct (heap_load h unw) as [a0|]; [|reflexivity]. both_step.
  unfold heap_alloc, heap_modify. both_step.
  destruct (heap_load (<[fresh (dom h) := a0]> h) (fresh (dom h)))
    as [a0'|]; [|reflexivity]. both_step.
  destruct (subtract_reference self a0') as [a1|]; [|reflexivity].
  both_step.
  destruct ramp_type as [rt|]; both_step.
  - destruct (getattr "labelImg" (labelImg self)) as [img|]; [|reflexivity].
    both_step.
    destruct (getattr "labelRef" (labelRef self)) as [ref|]; [|reflexivity].
    both_step.
    match goal with
    | |- context [heap_load ?hh ?ll] => destruct (heap_load hh ll) as [a2|]
    end; [|reflexivity].
    both_step.
    destruct (deramp a2 (np_equal img ref) rt (metadata self))
      as [detrended ramp]. both_step.
    destruct (getattr "bridges" (bridges self)) as [bs|]; [|reflexivity].
    both_step. rewrite stitch_loop_run_outcome.
    match goal with
    | |- context [stitch_loop_run ?s ?r ?l ?b ?hh] =>
        destruct (stitch_loop_run s r l b hh) as [[jumps|e] h5]
    end; [|reflexivity].
    both_step.
    match goal with
    | |- context [heap_load h5 (fresh (dom (<[?l1 := detrended]> ?h2)))] =>
        destruct (heap_load h5 (fresh (dom (<[l1 := detrended]> h2))))
          as [rv|]; [|reflexivity];
        both_step;
        destruct (heap_load h5 l1) as [av|]; [|reflexivity]
    end.
    both_step. destruct (np_iadd av rv); reflexivity.
  - destruct (getattr "bridges" (bridges self)) as [bs|]; [|reflexivity].
    both_step. rewrite stitch_loop_run_outcome.
    match goal with
    | |- context [stitch_loop_run ?s ?r ?l ?b ?hh] =>
        destruct (stitch_loop_run s r l b hh) as [[jumps|e] h5]
    end; reflexivity.
Qed.

End unwrap_run_facts.

(** C8 (amended).  The constructor checks that the type of the mask
    comes from numpy and that its shape unpacks into two dimensions,
    and nothing else: the element type is not looked at.  A type that
    does not come from numpy raises [ValueError] before any attribute is
    assigned; [REF_Y] without [REF_X] raises [KeyError]; a shape that
    does not have two dimensions raises [ValueError] (and a missing
    [shape] raises [AttributeError]).  In a failing call no reference
    reaches the caller, and in every call the instances that existed
    before are left as they were.

    The method never compares the shape of the field with the shape of
    the mask.  It works on a copy: whatever it returns or raises, every
    array of the initial heap is left as it was.  With no reference
    pixel and no bridge the field is returned as it is, whatever its
    shape; a two-dimensional field of another shape raises [IndexError]
    as soon as there is a bridge. *)
Theorem constructor_and_method_checks
    (deramp : ndarray float -> ndarray bool -> string -> gmap string Z ->
              ndarray float * ndarray float)
    (mask : pyobject) (meta : gmap string Z)
    (objs : gmap positive instance) :
  (type_module mask <> "numpy" ->
     init mask meta = Raise ValueError /\
     construct mask meta objs
       = (Raise ValueError, <[fresh (dom objs) := ∅]> objs)) /\
  (type_module mask = "numpy" ->
     is_Some (meta !! "REF_Y") -> meta !! "REF_X" = None ->
     init mask meta = Raise (KeyError "REF_X") /\
     (construct mask meta objs).1 = Raise (KeyError "REF_X")) /\
  (type_module mask = "numpy" ->
     (is_Some (meta !! "REF_Y") -> is_Some (meta !! "REF_X")) ->
     obj_shape mask = None ->
     init mask meta = Raise (AttributeError "shape") /\
     (construct mask meta objs).1 = Raise (AttributeError "shape")) /\
  (type_module mask = "numpy" ->
     (is_Some (meta !! "REF_Y") -> is_Some (meta !! "REF_X")) ->
     forall shp, obj_shape mask = Some shp -> List.length shp <> 2%nat ->
     init mask meta = Raise ValueError /\
     (construct mask meta objs).1 = Raise ValueError) /\
  (type_module mask = "numpy" ->
     (is_Some (meta !! "REF_Y") -> is_Some (meta !! "REF_X")) ->
     forall l w, obj_shape mask = Some [l; w] ->
     (exists self, init mask meta = Ok self) /\
     (construct mask meta objs).1 = Ok (fresh (dom objs))) /\
  (forall l inst, objs !! l = Some inst ->
     (construct mask meta objs).2 !! l = Some inst) /\
  (forall self (h : heap) unw a radius,
     h !! unw = Some a -> refY self = None -> bridges self = Some [] ->
     unwrap_conn_comp_run deramp self unw radius None h
       = (Ok (fresh (dom h), []), <[fresh (dom h) := a]> h)) /\
  (forall self (h : heap) unw a radius img b bs,
     h !! unw = Some a ->
     labelImg self = Some img -> shape img = shape (conncomp self) ->
     bridges self = Some (b :: bs) ->
     (is_Some (refY self) -> is_Some (refX self)) ->
     shape a <> shape (conncomp self) ->
     (unwrap_conn_comp_run deramp self unw radius None h).1
       = Raise IndexError) /\
  (forall self (h : heap) unw radius ramp_type l a,
     h !! l = Some a ->
     (unwrap_conn_comp_run deramp self unw radius ramp_type h).2 !! l
       = Some a).
Proof.
  assert (Hinit : forall e, init mask meta = Raise e ->
            (construct mask meta objs).1 = Raise e).
  { intros e He. rewrite construct_outcome, He. reflexivity. }
  split; [|split; [|split; [|split; [|split; [|split; [|split; [|split]]]]]]].
  - intros Hm. apply String.eqb_neq in Hm.
    unfold construct, init_run, init. rewrite Hm. split; reflexivity.
  - intros Hm [y Hy] Hx.
    assert (He : init mask meta = Raise (KeyError "REF_X")).
    { unfold init, dict_get. rewrite Hm, Hy, Hx. reflexivity. }
    split; [exact He | apply Hinit, He].
  - intros Hm Href Hs.
    assert (He : init mask meta = Raise (AttributeError "shape")).
    { unfold init, dict_get. rewrite Hm, Hs, String.eqb_refl. cbn [negb].
      destruct (meta !! "REF_Y") as [y|].
      - destruct (Href (ex_intro _ y eq_refl)) as [x ->]. reflexivity.
      - reflexivity. }
    split; [exact He | apply Hinit, He].
  - intros Hm Href shp Hs Hlen.
    assert (He : init mask meta = Raise ValueError).
    { unfold init, dict_get. rewrite Hm, Hs, String.eqb_refl. cbn [negb].
      destruct (meta !! "REF_Y") as [y|].
      - destruct (Href (ex_intro _ y eq_refl)) as [x ->]. step_bind.
        cbn [getattr]. step_bind.
        destruct shp as [|l [|w [|? ?]]]; try reflexivity.
        contradiction Hlen; reflexivity.
      - step_bind. cbn [getattr]. step_bind.
        destruct shp as [|l [|w [|? ?]]]; try reflexivity.
        contradiction Hlen; reflexivity. }
    split; [exact He | apply Hinit, He].
  - intros Hm Href l w Hs.
    assert (He : exists self, init mask meta = Ok self).
    { unfold init, dict_get. rewrite Hm, Hs, String.eqb_refl. cbn [negb].
      destruct (meta !! "REF_Y") as [y|].
      - destruct (Href (ex_intro _ y eq_refl)) as [x ->]. step_bind.
        cbn [getattr]. step_bind. eauto.
      - step_bind. cbn [getattr]. step_bind. eauto. }
    split; [exact He|]. destruct He as [self He].
    rewrite construct_outcome, He. reflexivity.
  - apply construct_frame.
  - intros self h unw a radius Hu Hy Hbs.
    unfold unwrap_conn_comp_run. run_step. unfold heap_load at 1.
    rewrite Hu. run_step. unfold heap_load at 1. rewrite lookup_insert_eq.
    run_step. unfold subtract_reference. rewrite Hy. run_step.
    rewrite Hbs. cbn [getattr stitch_loop_run]. run_step.
    rewrite insert_insert_eq. reflexivity.
  - intros self h unw a radius img b bs Hu Himg Hsi Hbs Href Hshape.
    rewrite <- Hsi in Hshape.
    unfold unwrap_conn_comp_run. run_step. unfold heap_load at 1.
    rewrite Hu. run_step. unfold heap_load at 1. rewrite lookup_insert_eq.
    run_step.
    destruct (subtract_reference_outcome self a Href)
      as [-> | (a' & -> & Ha')]; [reflexivity|].
    run_step. rewrite Hbs. cbn [getattr stitch_loop_run]. run_step.
    unfold heap_load at 1. rewrite lookup_insert_eq. run_step.
    rewrite (stitch_bridge_other_shape self _ a' b img Himg)
      by congruence.
    reflexivity.
  - intros self h unw radius ramp_type l a Hl.
    destruct (unwrap_conn_comp_run deramp self unw radius ramp_type h)
      as [r h'] eqn:E.
    exact (unwrap_conn_comp_run_frame deramp self unw radius ramp_type h r h'
             E l a Hl).
Qed.

Lemma constructor_and_method_checks_witness :
  construct list_mask ∅ ∅ = (Raise ValueError, {[ 1%positive := ∅ ]}) /\
  (exists self, init float_mask ∅ = Ok self) /\
  unwrap_conn_comp_run no_ramp bare_object 1 50 None (caller_heap column_field)
    = (Ok (2%positive, []),
       <[2%positive := column_field]> (caller_heap column_field)) /\
  (unwrap_conn_comp_run no_ramp two_object 1 50 None
     (caller_heap column_field)).1 = Raise IndexError /\
  (unwrap_conn_comp_run no_ramp two_object 1 50 None
     (caller_heap column_field)).2 !! 1%positive = Some column_field.
Proof.
  destruct (constructor_and_method_checks no_ramp list_mask ∅ ∅)
    as (H1 & _).
  destruct (constructor_and_method_checks no_ramp float_mask ∅ ∅)
    as (_ & _ & _ & _ & H5 & _ & H7 & H8 & H9).
  split; [|split; [|split; [|split]]].
  - apply H1. discriminate.
  - apply (H5 eq_refl) with (l := 2) (w := 2); [|reflexivity].
    intros [y Hy]. discriminate.
  - apply (H7 bare_object (caller_heap column_field) 1%positive column_field
             50); reflexivity.
  - apply (H8 two_object (caller_heap column_field) 1%positive column_field
             50 two_img two_bridge []); try reflexivity.
    + intros [y Hy]. discriminate.
    + discriminate.
  - apply H9. reflexivity.
Defined.

(** C8, as stated, fails: a mask of floating-point cells is accepted by
    the constructor, and a field of 3 x 1 cells is accepted by the method
    of an object whose mask has 1 x 2 cells. *)
Lemma float_mask_and_other_shape_accepted :
  obj_dtype float_mask = Dfloat /\
  (exists self, init float_mask ∅ = Ok self) /\
  shape column_field <> shape (conncomp bare_object) /\
  unwrap_array no_ramp bare_object column_field 50 None
    = Ok (column_field, []).
Proof.
  split; [reflexivity|]. split; [eexists; reflexivity|].
  split; [discriminate|]. reflexivity.
Qed.

(** ** The bridge list of ten stripes *)

Lemma stripes_labelled :
  (fun s => (numLabel s, labelRef s)) <$> labelled stripes_mask ∅
  = Ok (Some 10, Some 1).
Proof. vm_compute. reflexivity. Qed.

(** C2 fails on the code for ten regions in a row: the spanning tree
    joins regions 9 and 10, the key of the pair is looked up as "109"
    (the two label strings sorted as strings) while [get_all_bridge]
    stored it as "910", and [find_mst_bridge] raises [KeyError]. *)
Theorem ten_stripes_raise_key_error :
  (fun s => (numLabel s, labelRef s)) <$> labelled stripes_mask ∅
    = Ok (Some 10, Some 1) /\
  sorted2 (str 9) (str 10) = ("10", "9") /\
  prepare stripes_mask ∅ = Raise (KeyError "109").
Proof.
  split; [exact stripes_labelled|]. split; vm_compute; reflexivity.
Qed.

(** ** The labelling routine *)

Lemma lookup_repeat {A} (x y : A) n i :
  repeat x n !! i = Some y -> y = x /\ (i < n)%nat.
Proof.
  revert i. induction n as [|n IH]; intros [|i]; simpl; try discriminate.
  - intros [= <-]. split; [reflexivity | lia].
  - intros H. apply IH in H as [-> H]. split; [reflexivity | lia].
Qed.

Section flood_facts.

Variables (shp : Z * Z) (img : list Z) (v k : Z).
Hypothesis k_nonzero : k <> 0.

Lemma flood_step fuel i todo out :
  flood (S fuel) shp img v k (i :: todo) out =
  if bool_decide (img !! i = Some v /\ out !! i = Some 0)
  then flood fuel shp img v k (neighbours4 shp i ++ todo) (<[i := k]> out)
  else flood fuel shp img v k todo out.
Proof.
  cbn [flood].
  destruct (img !! i) as [u|]; [|rewrite bool_decide_eq_false_2; [reflexivity|]];
    [|intros [? _]; discriminate].
  destruct (out !! i) as [[|p|p]|];
    try (rewrite bool_decide_eq_false_2; [reflexivity|];
         intros [_ ?]; discriminate).
  destruct (Z.eqb_spec u v) as [->|Hne].
  - rewrite bool_decide_eq_true_2 by auto. reflexivity.
  - rewrite bool_decide_eq_false_2; [reflexivity|].
    intros [[= ?] _]. contradiction.
Qed.

(** What holds of the output before a flood and is kept by every single
    marking holds after the flood. *)
Lemma flood_invariant (P : list Z -> Prop) :
  (forall out i, P out -> img !! i = Some v -> out !! i = Some 0 ->
                 P (<[i := k]> out)) ->
  forall fuel todo out, P out -> P (flood fuel shp img v k todo out).
Proof.
  intros Hstep. induction fuel as [|fuel IH]; intros todo out HP;
    [exact HP|].
  destruct todo as [|i todo]; [exact HP|].
  rewrite flood_step.
  destruct (bool_decide_reflect (img !! i = Some v /\ out !! i = Some 0))
    as [[Hi Ho]|_].
  - apply IH. apply Hstep; assumption.
  - apply IH. exact HP.
Qed.

Lemma flood_length fuel todo out :
  List.length (flood fuel shp img v k todo out) = List.length out.
Proof.
  apply (flood_invariant (fun o => List.length o = List.length out));
    [|reflexivity].
  intros o i Ho _ _. rewrite length_insert. exact Ho.
Qed.

Lemma flood_keeps_marked fuel todo out i x :
  out !! i = Some x -> x <> 0 ->
  flood fuel shp img v k todo out !! i = Some x.
Proof.
  intros Hi Hx.
  apply (flood_invariant (fun o => o !! i = Some x)); [|exact Hi].
  intros o j Ho _ Hj.
  destruct (decide (j = i)) as [->|Hne]; [congruence|].
  rewrite list_lookup_insert_ne by exact Hne. exact Ho.
Qed.

Lemma flood_cells fuel todo out i y :
  flood fuel shp img v k todo out !! i = Some y ->
  out !! i = Some y \/ (y = k /\ out !! i = Some 0 /\ img !! i = Some v).
Proof.
  revert i y.
  apply (flood_invariant
           (fun o => forall i y, o !! i = Some y ->
              out !! i = Some y \/
              (y = k /\ out !! i = Some 0 /\ img !! i = Some v))); [|auto].
  intros o j Ho Hj Hoj i y Hy.
  destruct (decide (j = i)) as [->|Hne].
  - rewrite list_lookup_insert_eq in Hy by (eapply lookup_lt_Some; eauto).
    injection Hy as <-. right.
    destruct (Ho i 0 Hoj) as [H|(H & _)]; [auto | congruence].
  - rewrite list_lookup_insert_ne in Hy by exact Hne. auto.
Qed.

Lemma flood_marks_seed fuel i out :
  img !! i = Some v -> out !! i = Some 0 ->
  flood (S fuel) shp img v k [i] out !! i = Some k.
Proof.
  intros Hi Ho. rewrite flood_step.
  rewrite bool_decide_eq_true_2 by auto.
  apply flood_keeps_marked; [|exact k_nonzero].
  apply list_lookup_insert_eq. eapply lookup_lt_Some; eauto.
Qed.

End flood_facts.

(** The state of the scan after a prefix of the cells. *)
Record scan_ok (img : list Z) (m : nat) (out : list Z) (k : Z) : Prop := {
  scan_length : List.length out = List.length img;
  scan_count : 0 <= k;
  scan_range : forall i x, out !! i = Some x -> 0 <= x <= k;
  scan_dense : forall j, 1 <= j <= k -> exists i, out !! i = Some j;
  scan_support : forall i x, out !! i = Some x -> x <> 0 ->
                 exists u, img !! i = Some u /\ u <> 0;
  scan_done : forall i u, (i < m)%nat -> img !! i = Some u -> u <> 0 ->
              exists x, out !! i = Some x /\ x <> 0;
  scan_value : forall i j x, out !! i = Some x -> out !! j = Some x ->
               x <> 0 -> img !! i = img !! j
}.

Lemma label_step_ok shp img m out k :
  (m < List.length img)%nat ->
  scan_ok img m out k ->
  let st := label_step shp img (out, k) m in
  scan_ok img (S m) st.1 st.2.
Proof.
  intros Hm [Hlen Hk Hrange Hdense Hsupp Hdone Hval].
  unfold label_step.
  destruct (img !! m) as [v|] eqn:Ev;
    [|apply lookup_ge_None in Ev; lia].
  assert (Hout : is_Some (out !! m))
    by (apply lookup_lt_is_Some; lia).
  destruct Hout as [x Hx]. rewrite Hx.
  assert (Hkeep : scan_ok img (S m) out k -> x <> 0 \/ v = 0 ->
                  scan_ok img (S m) out k) by auto.
  assert (Hold : x <> 0 \/ v = 0 -> scan_ok img (S m) out k).
  { intros Hcase. constructor; auto.
    intros i u Hi Hu Hu0.
    destruct (decide (i = m)) as [->|Hne].
    - destruct Hcase as [Hx0|Hv0]; [eauto|congruence].
    - apply (Hdone i u); [lia|assumption..]. }
  destruct x as [|p|p]; try (apply Hold; left; discriminate).
  destruct (Z.eqb_spec v 0) as [->|Hv]; [apply Hold; right; reflexivity|].
  cbn [fst snd].
  set (fuel := (4 * List.length img + 2)%nat).
  set (out' := flood fuel shp img v (k + 1) [m] out).
  assert (Hk1 : k + 1 <> 0) by lia.
  assert (Hseed : out' !! m = Some (k + 1)).
  { unfold out', fuel.
    replace (4 * List.length img + 2)%nat
      with (S (4 * List.length img + 1)) by lia.
    apply flood_marks_seed; assumption. }
  assert (Hcells : forall i y, out' !! i = Some y ->
            out !! i = Some y \/
            (y = k + 1 /\ out !! i = Some 0 /\ img !! i = Some v))
    by (intros i y; apply flood_cells; exact Hk1).
  assert (Hkept : forall i y, out !! i = Some y -> y <> 0 ->
                              out' !! i = Some y)
    by (intros i y; apply flood_keeps_marked; exact Hk1).
  constructor.
  - unfold out'. rewrite flood_length by exact Hk1. exact Hlen.
  - lia.
  - intros i y Hy. destruct (Hcells i y Hy) as [H|(-> & _)]; [|lia].
    apply Hrange in H. lia.
  - intros j Hj. destruct (decide (j = k + 1)) as [->|Hne]; [eauto|].
    destruct (Hdense j) as [i Hi]; [lia|].
    exists i. apply Hkept; [exact Hi | lia].
  - intros i y Hy Hy0. destruct (Hcells i y Hy) as [H|(_ & _ & H)]; eauto.
  - intros i u Hi Hu Hu0.
    destruct (decide (i = m)) as [->|Hne]; [exists (k + 1); auto|].
    destruct (Hdone i u) as (y & Hy & Hy0); [lia|assumption..|].
    exists y. split; [apply Hkept; assumption | exact Hy0].
  - intros i j y Hi Hj Hy0.
    destruct (Hcells i y Hi) as [Hi'|(Hyi & _ & Hi')];
      destruct (Hcells j y Hj) as [Hj'|(Hyj & _ & Hj')].
    + eapply Hval; eauto.
    + subst y. apply Hrange in Hi'. lia.
    + subst y. apply Hrange in Hj'. lia.
    + congruence.
Qed.

Lemma scan_prefix_ok shp img m :
  (m <= List.length img)%nat ->
  let st := foldl (label_step shp img)
                  (repeat 0 (List.length img), 0) (seq 0 m) in
  scan_ok img m st.1 st.2.
Proof.
  induction m as [|m IH]; intros Hm.
  - cbn [seq foldl fst snd]. constructor.
    + apply repeat_length.
    + lia.
    + intros i x Hx. apply lookup_repeat in Hx as [-> _]. lia.
    + intros j Hj. lia.
    + intros i x Hx Hx0. apply lookup_repeat in Hx as [-> _]. contradiction.
    + intros i u Hi. lia.
    + intros i j x Hx _ Hx0. apply lookup_repeat in Hx as [-> _].
      contradiction.
  - rewrite seq_S, foldl_app. cbn [foldl Nat.add].
    specialize (IH ltac:(lia)). cbv zeta in IH.
    destruct (foldl (label_step shp img) (repeat 0 (List.length img), 0)
                    (seq 0 m)) as [out k].
    apply (label_step_ok shp img m out k); [lia | exact IH].
Qed.

(** The labels of [measure.label] are dense: every cell holds a label
    between 0 and the number of regions, every label from 1 to that
    number occurs, the labelled cells are the non-zero cells of the
    input, and cells with one label have one input value. *)
Lemma measure_label_dense (img lab : ndarray Z) (num : Z) :
  measure_label img = (lab, num) ->
  shape lab = shape img /\
  List.length (data lab) = List.length (data img) /\
  0 <= num /\
  (forall i x, data lab !! i = Some x -> 0 <= x <= num) /\
  (forall j, 1 <= j <= num -> exists i, data lab !! i = Some j) /\
  (forall i x u, data lab !! i = Some x -> data img !! i = Some u ->
                 (x = 0 <-> u = 0)) /\
  (forall i j x, data lab !! i = Some x -> data lab !! j = Some x ->
                 x <> 0 -> data img !! i = data img !! j).
Proof.
  unfold measure_label. intros H.
  pose proof (scan_prefix_ok (shape img) (data img) (List.length (data img))
                (Nat.le_refl _)) as Hok.
  cbv zeta in Hok.
  destruct (foldl (label_step (shape img) (data img))
                  (repeat 0 (List.length (data img)), 0)
                  (seq 0 (List.length (data img)))) as [out k].
  injection H as <- <-. cbn [shape data fst snd] in *.
  destruct Hok as [Hlen Hk Hrange Hdense Hsupp Hdone Hval].
  split; [reflexivity|]. split; [exact Hlen|]. split; [exact Hk|].
  split; [exact Hrange|]. split; [exact Hdense|]. split; [|exact Hval].
  intros i x u Hx Hu. split.
  - intros ->. destruct (Z.eq_dec u 0) as [|Hu0]; [assumption|].
    destruct (Hdone i u) as (y & Hy & Hy0);
      [eapply lookup_lt_Some; eauto | assumption.. |].
    congruence.
  - intros ->. destruct (Z.eq_dec x 0) as [|Hx0]; [assumption|].
    destruct (Hsupp i x) as (u' & Hu' & Hu0); [assumption..|]. congruence.
Qed.

(** ** Clearing the small regions *)

Lemma np_where_elem (flags : list bool) (v : Z) :
  v ∈ np_where flags <-> exists i : nat, v = Z.of_nat i /\ flags !! i = Some true.
Proof.
  unfold np_where. rewrite list_elem_of_omap. split.
  - intros ([i b] & Hin & Hv). apply elem_of_lookup_imap in Hin
      as (j & c & [= -> ->] & Hj).
    cbn [fst snd] in Hv. destruct c; [|discriminate].
    injection Hv as <-. eauto.
  - intros (i & -> & Hi). exists (i, true). split; [|reflexivity].
    apply (elem_of_lookup_imap_2 pair flags true i Hi).
Qed.

Lemma list_max_ge (l : list Z) (x : Z) : x ∈ l -> x <= list_max l.
Proof.
  unfold list_max. induction l as [|y l IH]; intros H.
  - inversion H.
  - cbn [foldr]. apply elem_of_cons in H as [->|H]; [lia|].
    specialize (IH H). lia.
Qed.

Lemma small_labels_elem (img : ndarray Z) (min_area : Q) (ls : list Z) :
  small_labels img min_area = Ok ls ->
  forall v, v ∈ data img -> 1 <= v ->
    (v ∈ ls <->
     Qltb (inject_Z (count_eq v (data img)))
          (small_area_threshold img min_area) = true).
Proof.
  unfold small_labels. intros H v Hv Hv1.
  set (thr := small_area_threshold img min_area) in *.
  destruct (data img) as [|x l] eqn:El; [inversion Hv|].
  rewrite <- El in *. unfold np_bincount in H. rewrite El in H.
  rewrite <- El in H.
  set (flags := map (fun c => Qltb (inject_Z c) thr)
                    (map (fun v => count_eq v (data img))
                         (seqZ 0 (list_max (data img) + 1)))) in *.
  assert (Hflag : forall i : nat, (Z.of_nat i <= list_max (data img)) ->
            flags !! i =
            Some (Qltb (inject_Z (count_eq (Z.of_nat i) (data img))) thr)).
  { intros i Hi. unfold flags.
    change (map ?f ?l) with (f <$> l). rewrite !list_lookup_fmap.
    rewrite lookup_seqZ_lt by lia. reflexivity. }
  destruct flags as [|f0 fl] eqn:Ef; [discriminate|].
  injection H as <-.
  pose proof (list_max_ge _ _ Hv) as Hmax.
  rewrite np_where_elem. split.
  - intros (i & -> & Hi). destruct i as [|i]; [lia|].
    cbn [lookup list_lookup] in Hi.
    specialize (Hflag (S i) Hmax). cbn [lookup list_lookup] in Hflag.
    congruence.
  - intros Hq. exists (Z.to_nat v). split; [lia|].
    specialize (Hflag (Z.to_nat v) ltac:(lia)).
    rewrite Z2Nat.id in Hflag by lia.
    destruct (Z.to_nat v) as [|i] eqn:Ei; [lia|].
    cbn [lookup list_lookup] in *. congruence.
Qed.

Lemma small_labels_positive (img : ndarray Z) (min_area : Q) (ls : list Z) :
  small_labels img min_area = Ok ls -> forall v, v ∈ ls -> 1 <= v.
Proof.
  unfold small_labels. intros H v Hv.
  destruct (map _ (np_bincount (data img))) as [|f0 fl]; [discriminate|].
  injection H as <-. apply np_where_elem in Hv as (i & -> & Hi).
  destruct i; [discriminate | lia].
Qed.

Lemma foldl_clear_label (ls : list Z) : forall img : ndarray Z,
  shape (foldl clear_label img ls) = shape img /\
  data (foldl clear_label img ls)
  = map (fun x => if bool_decide (x ∈ ls) then 0 else x) (data img).
Proof.
  induction ls as [|i ls IH]; intros img.
  - cbn [foldl]. split; [reflexivity|].
    rewrite <- (map_id (data img)) at 1. apply map_ext. intros x.
    rewrite bool_decide_eq_false_2; [reflexivity | apply not_elem_of_nil].
  - cbn [foldl]. destruct (IH (clear_label img i)) as [Hs Hd].
    split; [exact Hs|]. rewrite Hd. unfold clear_label, np_map.
    cbn [data]. rewrite map_map. apply map_ext. intros x.
    destruct (Z.eqb_spec x i) as [->|Hne].
    + rewrite (bool_decide_eq_true_2 (i ∈ i :: ls)) by (apply elem_of_cons; left; reflexivity).
      destruct (bool_decide (0 ∈ ls)); reflexivity.
    + destruct (bool_decide_reflect (x ∈ ls)) as [Hin|Hnin].
      * rewrite bool_decide_eq_true_2 by (apply elem_of_cons; right; exact Hin).
        reflexivity.
      * rewrite bool_decide_eq_false_2; [reflexivity|].
        intros Hin. apply elem_of_cons in Hin as [?|?]; contradiction.
Qed.

(** C6.  Every region of the first labelling whose pixel count is below
    [min(min_area, 0.3% of the pixels)] is cleared to background, the
    other cells keep their label, and the second labelling numbers the
    surviving cells densely: every cell holds an id between 0 and N,
    every id from 1 to N occurs, and the cells with id 0 are the
    background cells. *)
Theorem small_regions_cleared_and_relabelled
    (mask label_img : ndarray Z) (min_area : Q) (num_label : Z) :
  remove_small_regions mask min_area = Ok (label_img, num_label) ->
  let initial := (measure_label mask).1 in
  let threshold := small_area_threshold initial min_area in
  exists cleared,
    clear_small initial min_area = Ok cleared /\
    (forall i v, data initial !! i = Some v ->
       data cleared !! i =
       Some (if Qltb (inject_Z (count_eq v (data initial))) threshold
             then 0 else v)) /\
    measure_label cleared = (label_img, num_label) /\
    (forall i x, data label_img !! i = Some x -> 0 <= x <= num_label) /\
    (forall j, 1 <= j <= num_label ->
               exists i, data label_img !! i = Some j) /\
    (forall i x u, data label_img !! i = Some x ->
                   data cleared !! i = Some u -> (x = 0 <-> u = 0)).
Proof.
  unfold remove_small_regions. intros H.
  destruct (measure_label mask) as [l0 n0] eqn:E0. cbn [fst].
  set (threshold := small_area_threshold l0 min_area).
  inv_bind H. rename a into cleared, E into Hc. injection H as H.
  exists cleared. split; [exact Hc|].
  destruct (measure_label_dense _ _ _ E0)
    as (_ & _ & _ & Hrange0 & _).
  destruct (measure_label_dense _ _ _ H)
    as (_ & _ & _ & Hrange & Hdense & Hsupp & _).
  split; [|split; [exact H|split; [exact Hrange|split; [exact Hdense|exact Hsupp]]]].
  intros i v Hv. unfold clear_small in Hc. inv_bind Hc. rename a into ls.
  injection Hc as <-.
  destruct (foldl_clear_label ls l0) as [_ Hd]. rewrite Hd.
  change (map ?f ?l) with (f <$> l). rewrite list_lookup_fmap, Hv.
  cbn [fmap option_fmap option_map]. f_equal.
  assert (Hin : v ∈ data l0) by (apply list_elem_of_lookup; eauto).
  destruct (Z.eq_dec v 0) as [->|Hv0].
  - rewrite bool_decide_eq_false_2.
    + destruct (Qltb _ threshold); reflexivity.
    + intros H0. apply (small_labels_positive _ _ _ E) in H0. lia.
  - assert (1 <= v) by (specialize (Hrange0 i v Hv); lia).
    pose proof (small_labels_elem _ _ _ E v Hin ltac:(assumption)) as Hiff.
    fold threshold in Hiff.
    destruct (Qltb (inject_Z (count_eq v (data l0))) threshold).
    + rewrite bool_decide_eq_true_2 by (apply Hiff; reflexivity).
      reflexivity.
    + rewrite bool_decide_eq_false_2; [reflexivity|].
      intros Hl. apply Hiff in Hl. discriminate.
Qed.

Lemma speck_removed :
  remove_small_regions speck_mask 2500 = Ok (speck_labels, 1) /\
  data (measure_label speck_mask).1 !! 305%nat = Some 2 /\
  (small_area_threshold (measure_label speck_mask).1 2500 == 12 # 10)%Q.
Proof. vm_compute. repeat split; reflexivity || discriminate. Qed.

Lemma small_regions_cleared_and_relabelled_witness :
  remove_small_regions speck_mask 2500 = Ok (speck_labels, 1) /\
  exists cleared,
    clear_small (measure_label speck_mask).1 2500 = Ok cleared /\
    (forall i v, data (measure_label speck_mask).1 !! i = Some v ->
       data cleared !! i =
       Some (if Qltb (inject_Z (count_eq v (data (measure_label speck_mask).1)))
                     (small_area_threshold (measure_label speck_mask).1 2500)
             then 0 else v)) /\
    measure_label cleared = (speck_labels, 1) /\
    (forall i x, data speck_labels !! i = Some x -> 0 <= x <= 1) /\
    (forall j, 1 <= j <= 1 -> exists i, data speck_labels !! i = Some j) /\
    (forall i x u, data speck_labels !! i = Some x ->
                   data cleared !! i = Some u -> (x = 0 <-> u = 0)).
Proof.
  split; [apply speck_removed|].
  apply (small_regions_cleared_and_relabelled speck_mask speck_labels 2500 1).
  apply speck_removed.
Defined.

(** ** A second pass over a stitched field *)

Lemma jump_offset_zero v : jump_offset (Fin 0) v = v.
Proof.
  destruct v as [|x]; [reflexivity|].
  unfold jump_offset, np_pi. cbn [fadd fmul]. f_equal. lra.
Qed.

Lemma jump_offset_Fin n x :
  jump_offset (Fin n) (Fin x) = Fin (x + 2 * PI * n).
Proof. reflexivity. Qed.

Lemma update_cells_id {A} (g : A -> A) l m :
  (forall v, g v = v) -> update_cells g l m = l.
Proof.
  intros Hg. revert m. induction l as [|x l IH]; intros [|b m]; simpl; auto.
  rewrite IH. destruct b; [rewrite Hg|]; reflexivity.
Qed.

(** *** The median of shifted values *)

Lemma Fin_inj x y : Fin x = Fin y -> x = y.
Proof. intros [= H]. exact H. Qed.

Lemma finite_values_shift n l :
  finite_values (map (jump_offset (Fin n)) l)
  = map (fun x => (x + 2 * PI * n)%R) (finite_values l).
Proof.
  induction l as [|[|x] l IH]; simpl; [reflexivity | exact IH |].
  rewrite IH. reflexivity.
Qed.

Lemma Rleb_shift c x y : Rleb (x + c) (y + c) = Rleb x y.
Proof.
  destruct (Rle_dec x y) as [H|H].
  - rewrite !Rleb_true by lra. reflexivity.
  - rewrite !Rleb_false by lra. reflexivity.
Qed.

Lemma Rinsert_shift c x s :
  Rinsert (x + c) (map (fun y => (y + c)%R) s)
  = map (fun y => (y + c)%R) (Rinsert x s).
Proof.
  induction s as [|y s IH]; simpl; [reflexivity|].
  rewrite Rleb_shift. destruct (Rleb x y); simpl; [reflexivity|].
  rewrite IH. reflexivity.
Qed.

Lemma Rsort_shift c l :
  Rsort (map (fun y => (y + c)%R) l) = map (fun y => (y + c)%R) (Rsort l).
Proof.
  induction l as [|x l IH]; simpl; [reflexivity|].
  rewrite IH. apply Rinsert_shift.
Qed.

Lemma nth_map_shift c k s :
  (k < List.length s)%nat ->
  nth k (map (fun y => (y + c)%R) s) 0%R = (nth k s 0 + c)%R.
Proof.
  intros Hk.
  rewrite (nth_indep _ 0%R ((fun y => (y + c)%R) 0%R))
    by (rewrite length_map; exact Hk).
  apply (map_nth (fun y => (y + c)%R)).
Qed.

Lemma median_sorted_shift c s v :
  median_sorted s = Fin v ->
  median_sorted (map (fun y => (y + c)%R) s) = Fin (v + c).
Proof.
  unfold median_sorted. rewrite length_map.
  destruct (List.length s) as [|n] eqn:En; [discriminate|].
  assert (Hdiv : (S n / 2 < List.length s)%nat)
    by (rewrite En; apply Nat.div_lt; lia).
  assert (Hdiv' : (S n / 2 - 1 < List.length s)%nat) by lia.
  destruct (Nat.even (S n)); intros H; apply Fin_inj in H; subst v.
  - rewrite (nth_map_shift c _ s Hdiv), (nth_map_shift c _ s Hdiv').
    f_equal. lra.
  - rewrite (nth_map_shift c _ s Hdiv). reflexivity.
Qed.

Lemma nanmedian_shift n l v :
  nanmedian l = Fin v ->
  nanmedian (map (jump_offset (Fin n)) l) = Fin (v + 2 * PI * n).
Proof.
  unfold nanmedian. intros H.
  rewrite finite_values_shift, Rsort_shift.
  apply median_sorted_shift, H.
Qed.

(** *** Samples and updates of regions *)

Lemma sample_update_same g lbl : forall cells labels aoi,
  sample aoi labels lbl
         (update_cells g cells (map (fun x => x =? lbl) labels))
  = map g (sample aoi labels lbl cells).
Proof.
  unfold sample.
  induction cells as [|v cells IH]; intros [|l labels] [|a aoi];
    simpl; auto.
  destruct a, (l =? lbl); simpl; rewrite IH; reflexivity.
Qed.

Lemma sample_update_other g lbl other : lbl <> other ->
  forall cells labels aoi,
  sample aoi labels lbl
         (update_cells g cells (map (fun x => x =? other) labels))
  = sample aoi labels lbl cells.
Proof.
  intros Hne. unfold sample.
  induction cells as [|v cells IH]; intros [|l labels] [|a aoi];
    simpl; auto.
  destruct (Z.eqb_spec l lbl) as [E1|H1], (Z.eqb_spec l other) as [E2|H2],
    a; simpl; rewrite ?IH; try reflexivity; congruence.
Qed.

Lemma endpoint_masks_form self radius b img m0 m1 :
  labelImg self = Some img ->
  endpoint_masks self radius b = Ok (m0, m1) ->
  exists aoi0 aoi1,
    data m0 = zip_with andb aoi0 (map (fun x => x =? label0 b) (data img)) /\
    data m1 = zip_with andb aoi1 (map (fun x => x =? label1 b) (data img)).
Proof.
  intros Himg. unfold endpoint_masks, get_bridge_endpoint_aoi_mask.
  rewrite Himg. cbn [getattr]. step_bind. intros [= <- <-].
  eexists _, _. split; reflexivity.
Qed.

(** The loop body, in terms of samples. *)
Lemma stitch_bridge_samples self radius b img :
  labelImg self = Some img ->
  exists aoi0 aoi1,
    forall u, shape u = shape img ->
      let value0 := nanmedian (sample aoi0 (data img) (label0 b) (data u)) in
      let value1 := nanmedian (sample aoi1 (data img) (label1 b) (data u)) in
      let num_jump := estimate_num_jump (fsub value1 value0) in
      stitch_bridge self radius u b =
        Ok (NdArray (shape u)
              (update_cells (jump_offset num_jump) (data u)
                 (map (fun x => x =? label1 b) (data img))),
            (fsub value1 value0, num_jump)).
Proof.
  intros Himg.
  destruct (endpoint_masks_total self radius b img Himg)
    as (m0 & m1 & Hm & _ & _).
  destruct (endpoint_masks_form self radius b img m0 m1 Himg Hm)
    as (aoi0 & aoi1 & H0 & H1).
  exists aoi0, aoi1. intros u Hu.
  destruct (stitch_bridge_total self radius u b img Himg Hu)
    as (m0' & m1' & Hm' & _ & Hs).
  rewrite Hm in Hm'. injection Hm' as <- <-.
  rewrite Hs. unfold sample. rewrite H0, H1. reflexivity.
Qed.

(** Later bridges leave alone the samples of the regions they do not
    correct. *)
Lemma stitch_bridges_frame self radius img lbl aoi bs : forall unw out rs,
  labelImg self = Some img ->
  shape unw = shape img ->
  Forall (fun c => label1 c <> lbl) bs ->
  stitch_bridges self radius unw bs = Ok (out, rs) ->
  sample aoi (data img) lbl (data out) = sample aoi (data img) lbl (data unw).
Proof.
  induction bs as [|c bs IH]; intros unw out rs Himg Hshape Hall H.
  - cbn [stitch_bridges] in H. injection H as <- <-. reflexivity.
  - cbn [stitch_bridges] in H.
    destruct (stitch_bridge_samples self radius c img Himg)
      as (aoi0 & aoi1 & Hs).
    rewrite (Hs unw Hshape) in H. step_bind_in H.
    inv_bind H. destruct a as [out' rs'].
    injection H as <- <-.
    apply Forall_cons in Hall as [Hc Hall].
    rewrite (IH (NdArray (shape unw) _) _ _ Himg Hshape Hall E). cbn [data].
    apply sample_update_other. auto.
Qed.

(** *** The order of the bridges *)

Lemma bfs_ordered_from_later seen bs :
  bfs_ordered_from seen bs = true ->
  Forall (fun c => label1 c ∉ seen) bs.
Proof.
  revert seen. induction bs as [|b bs IH]; intros seen H; [constructor|].
  cbn [bfs_ordered_from] in H.
  apply andb_true_iff in H as [H Hrest].
  apply andb_true_iff in H as [_ H1].
  apply negb_true_iff, bool_decide_eq_false in H1.
  constructor; [exact H1|].
  specialize (IH _ Hrest).
  eapply Forall_impl; [exact IH|].
  intros c Hc Hin. apply Hc. apply elem_of_cons. right. exact Hin.
Qed.

Lemma bfs_ordered_from_head seen b bs :
  bfs_ordered_from seen (b :: bs) = true ->
  label0 b <> label1 b /\
  bfs_ordered_from (label1 b :: seen) bs = true /\
  Forall (fun c => label1 c <> label0 b) bs /\
  Forall (fun c => label1 c <> label1 b) bs.
Proof.
  intros H. cbn [bfs_ordered_from] in H.
  apply andb_true_iff in H as [H Hrest].
  apply andb_true_iff in H as [H0 H1].
  apply bool_decide_eq_true in H0.
  apply negb_true_iff, bool_decide_eq_false in H1.
  pose proof (bfs_ordered_from_later _ _ Hrest) as Hlater.
  split; [congruence|]. split; [exact Hrest|]. split.
  - eapply Forall_impl; [exact Hlater|]. intros c Hc E. apply Hc.
    rewrite E. apply elem_of_cons. right. exact H0.
  - eapply Forall_impl; [exact Hlater|]. intros c Hc E. apply Hc.
    rewrite E. apply elem_of_cons. left. reflexivity.
Qed.

Lemma ndarray_eta {A} (a : ndarray A) : NdArray (shape a) (data a) = a.
Proof. destruct a. reflexivity. Qed.

(** *** The reference pixel in a second pass *)

Lemma np_getitem_inv {A} (a : ndarray A) y x v :
  np_getitem a y x = Ok v ->
  exists y' x',
    axis_index (fst (shape a)) y = Ok y' /\
    axis_index (snd (shape a)) x = Ok x' /\
    data a !! Z.to_nat (y' * snd (shape a) + x') = Some v.
Proof.
  unfold np_getitem. intros H.
  inv_bind H. rename a0 into y'. inv_bind H. rename a0 into x'.
  exists y', x'. split; [exact E|]. split; [exact E0|].
  destruct (data a !! Z.to_nat (y' * (shape a).2 + x')); [|discriminate].
  injection H as ->. reflexivity.
Qed.

Lemma np_getitem_intro {A} (a : ndarray A) y x y' x' v :
  axis_index (fst (shape a)) y = Ok y' ->
  axis_index (snd (shape a)) x = Ok x' ->
  data a !! Z.to_nat (y' * snd (shape a) + x') = Some v ->
  np_getitem a y x = Ok v.
Proof.
  intros Hy Hx Hv. unfold np_getitem. rewrite Hy, Hx. step_bind.
  rewrite Hv. reflexivity.
Qed.

Lemma update_cells_lookup_out {A} (f : A -> A) l m i :
  l !! i = None -> update_cells f l m !! i = None.
Proof.
  intros H. apply lookup_ge_None. rewrite length_update_cells.
  apply lookup_ge_None, H.
Qed.


Lemma fsub_zero v : fsub v (Fin 0) = v.
Proof. destruct v as [|x]; [reflexivity|]. cbn [fsub]. f_equal. lra. Qed.

Lemma subtract_reference_zero self (u : ndarray float) ry rx :
  refY self = Some ry -> refX self = Some rx ->
  np_getitem u ry rx = Ok (Fin 0) ->
  subtract_reference self u = Ok u.
Proof.
  intros Hy Hx Hr. unfold subtract_reference. rewrite Hy, Hx.
  cbn [getattr]. step_bind. rewrite Hr. step_bind.
  unfold np_update, np_map. cbn [shape data]. rewrite shape_eqb_refl.
  rewrite (update_cells_id _ _ _ fsub_zero), ndarray_eta. reflexivity.
Qed.

Lemma subtract_reference_cell self (u a : ndarray float) ry rx (x : R) :
  refY self = Some ry -> refX self = Some rx ->
  np_getitem u ry rx = Ok (Fin x) ->
  subtract_reference self u = Ok a ->
  shape a = shape u /\ np_getitem a ry rx = Ok (Fin 0).
Proof.
  intros Hy Hx Hr. unfold subtract_reference. rewrite Hy, Hx.
  cbn [getattr]. step_bind. rewrite Hr. step_bind.
  unfold np_update, np_map. cbn [shape data]. rewrite shape_eqb_refl.
  intros [= <-]. split; [reflexivity|].
  apply np_getitem_inv in Hr as (y' & x' & Hy' & Hx' & Hv).
  apply (np_getitem_intro _ ry rx y' x'); cbn [shape data]; try assumption.
  erewrite update_cells_lookup; [| exact Hv |].
  2:{ change (map ?f ?l) with (f <$> l). rewrite list_lookup_fmap, Hv.
      reflexivity. }
  cbn [fne]. destruct (Req_dec_T x 0) as [->|Hx0].
  - rewrite Reqb_true by reflexivity. reflexivity.
  - rewrite Reqb_false by exact Hx0. cbn [negb fsub]. do 2 f_equal. lra.
Qed.

(** ** A second pass in rounded arithmetic *)

(** *** Sorting is monotone *)

Lemma Rabs_bound (x y : R) : (Rabs x <= y)%R -> (- y <= x <= y)%R.
Proof. unfold Rabs. destruct (Rcase_abs x); lra. Qed.

Lemma Rinsert_elem (x y : R) (s : list R) :
  In y (Rinsert x s) <-> y = x \/ In y s.
Proof.
  induction s as [|z s IH]; simpl; [intuition congruence|].
  destruct (Rleb x z); simpl; [intuition congruence|].
  rewrite IH. intuition congruence.
Qed.

Lemma Rsort_elem (y : R) (l : list R) : In y (Rsort l) <-> In y l.
Proof.
  induction l as [|x l IH]; simpl; [tauto|].
  rewrite Rinsert_elem, IH. intuition congruence.
Qed.

Lemma length_Rinsert (x : R) (s : list R) :
  List.length (Rinsert x s) = S (List.length s).
Proof.
  induction s as [|z s IH]; simpl; [reflexivity|].
  destruct (Rleb x z); simpl; [reflexivity|]. rewrite IH. reflexivity.
Qed.

Lemma length_Rsort (l : list R) : List.length (Rsort l) = List.length l.
Proof.
  induction l as [|x l IH]; simpl; [reflexivity|].
  rewrite length_Rinsert, IH. reflexivity.
Qed.

Lemma Rleb_cases (x y : R) :
  (Rleb x y = true /\ (x <= y)%R) \/ (Rleb x y = false /\ (y < x)%R).
Proof.
  unfold Rleb. destruct (Rle_dec x y); [left | right]; split; auto; lra.
Qed.

Lemma Rinsert_sorted (x : R) (s : list R) :
  StronglySorted Rle s -> StronglySorted Rle (Rinsert x s).
Proof.
  induction 1 as [|z s Hs IH Hz]; simpl.
  - constructor; constructor.
  - destruct (Rleb_cases x z) as [[-> Hle]|[-> Hlt]].
    + constructor; [constructor; assumption|].
      constructor; [exact Hle|].
      eapply Forall_impl; [exact Hz|]. intros a Ha. simpl in *. lra.
    + constructor; [exact IH|].
      apply List.Forall_forall. intros a Ha.
      apply Rinsert_elem in Ha as [->|Ha]; [lra|].
      rewrite List.Forall_forall in Hz. apply Hz, Ha.
Qed.

Lemma Rsort_sorted (l : list R) : StronglySorted Rle (Rsort l).
Proof.
  induction l as [|x l IH]; simpl; [constructor | apply Rinsert_sorted, IH].
Qed.

Lemma Forall2_Rle_refl (s : list R) : Forall2 Rle s s.
Proof. induction s; constructor; [lra | assumption]. Qed.

Lemma Rinsert_above (x : R) (t : list R) : forall y,
  StronglySorted Rle (y :: t) -> (y <= x)%R ->
  Forall2 Rle (y :: t) (Rinsert x t).
Proof.
  induction t as [|z t IH]; intros y Hs Hyx; simpl.
  - constructor; [exact Hyx | constructor].
  - apply StronglySorted_inv in Hs as [Hs Hy].
    apply Forall_cons in Hy as [Hyz Hy].
    destruct (Rleb_cases x z) as [[-> Hle]|[-> Hlt]].
    + constructor; [exact Hyx | apply Forall2_Rle_refl].
    + constructor; [exact Hyz|]. apply IH; [exact Hs | lra].
Qed.

Lemma Rinsert_below (x : R) (t t' : list R) :
  Forall2 Rle t t' -> forall y',
  StronglySorted Rle (y' :: t') -> (x <= y')%R ->
  Forall2 Rle (Rinsert x t) (y' :: t').
Proof.
  induction 1 as [|z z' t t' Hz Ht IH]; intros y' Hs Hx; simpl.
  - constructor; [exact Hx | constructor].
  - apply StronglySorted_inv in Hs as [Hs Hy].
    apply Forall_cons in Hy as [Hyz Hy].
    destruct (Rleb_cases x z) as [[-> Hle]|[-> Hlt]].
    + constructor; [exact Hx|]. constructor; assumption.
    + constructor; [lra|]. apply IH; [exact Hs | lra].
Qed.

Lemma Forall2_Rle_trans (s t u : list R) :
  Forall2 Rle s t -> Forall2 Rle t u -> Forall2 Rle s u.
Proof.
  intros H. revert u. induction H as [|x y s t Hxy Hst IH]; intros u Hu.
  - inversion Hu. constructor.
  - inversion Hu as [|y' z t' u' Hyz Htu]; subst.
    constructor; [lra | apply IH, Htu].
Qed.

Lemma Rinsert_mono (s s' : list R) :
  Forall2 Rle s s' -> forall x x',
  StronglySorted Rle s -> StronglySorted Rle s' -> (x <= x')%R ->
  Forall2 Rle (Rinsert x s) (Rinsert x' s').
Proof.
  induction 1 as [|y y' t t' Hy Ht IH]; intros x x' Hs Hs' Hx; simpl.
  - constructor; [exact Hx | constructor].
  - pose proof Hs as Hs0. pose proof Hs' as Hs0'.
    apply StronglySorted_inv in Hs as [Hs Hyt].
    apply StronglySorted_inv in Hs' as [Hs' Hyt'].
    destruct (Rleb_cases x y) as [[-> Hle]|[-> Hlt]],
             (Rleb_cases x' y') as [[-> Hle']|[-> Hlt']].
    + constructor; [exact Hx|]. constructor; assumption.
    + constructor; [lra|].
      apply (Forall2_Rle_trans _ (y' :: t')); [constructor; assumption|].
      apply Rinsert_above; [exact Hs0' | lra].
    + constructor; [lra|]. apply Rinsert_below; [exact Ht | exact Hs0' | lra].
    + constructor; [exact Hy|]. apply IH; assumption.
Qed.

Lemma Rsort_mono (l l' : list R) :
  Forall2 Rle l l' -> Forall2 Rle (Rsort l) (Rsort l').
Proof.
  induction 1 as [|x x' l l' Hx Hl IH]; simpl; [constructor|].
  apply Rinsert_mono; auto using Rsort_sorted.
Qed.

Lemma Forall2_Rle_nth (s s' : list R) :
  Forall2 Rle s s' -> forall j, (j < List.length s)%nat ->
  (nth j s 0 <= nth j s' 0)%R.
Proof.
  induction 1 as [|x x' s s' Hx Hs IH]; intros j Hj; simpl in *; [lia|].
  destruct j as [|j]; [exact Hx | apply IH; lia].
Qed.

(** The order statistics of values that moved by [c], up to [delta]. *)
Lemma Rsort_nth_close (c delta : R) (l l' : list R) :
  Forall2 (fun x x' => (Rabs (x' - (x + c)) <= delta)%R) l l' ->
  forall j, (j < List.length l)%nat ->
  (Rabs (nth j (Rsort l') 0 - (nth j (Rsort l) 0 + c)) <= delta)%R.
Proof.
  intros H.
  assert (Hlo : Forall2 Rle (map (fun y => (y + (c - delta))%R) l) l').
  { induction H as [|x x' l l' Hx Hl IH]; simpl; constructor; [|exact IH].
    apply Rabs_bound in Hx. lra. }
  assert (Hhi : Forall2 Rle l' (map (fun y => (y + (c + delta))%R) l)).
  { clear Hlo. induction H as [|x x' l l' Hx Hl IH]; simpl; constructor;
      [|exact IH].
    apply Rabs_bound in Hx. lra. }
  intros j Hj.
  apply Rsort_mono in Hlo, Hhi. rewrite Rsort_shift in Hlo, Hhi.
  pose proof (Forall2_length _ _ _ H) as Hlen.
  apply Forall2_Rle_nth with (j := j) in Hlo;
    [|rewrite length_map, length_Rsort; exact Hj].
  apply Forall2_Rle_nth with (j := j) in Hhi;
    [|rewrite length_Rsort; lia].
  rewrite nth_map_shift in Hlo, Hhi by (rewrite length_Rsort; exact Hj).
  apply Rabs_le. lra.
Qed.

Lemma floor_div_bounds (a b : R) :
  (0 < b)%R ->
  (IZR (Zfloor (a / b)) * b <= a < (IZR (Zfloor (a / b)) + 1) * b)%R.
Proof.
  intros Hb. pose proof (Zfloor_bound (a / b)) as [Hlo Hhi]. split.
  - apply Rmult_le_compat_r with (r := b) in Hlo; [|lra].
    unfold Rdiv in Hlo at 2. rewrite Rmult_assoc, Rinv_l in Hlo by lra. lra.
  - apply Rmult_lt_compat_r with (r := b) in Hhi; [|lra].
    unfold Rdiv in Hhi at 1. rewrite Rmult_assoc, Rinv_l in Hhi by lra. lra.
Qed.

Lemma floor_div_zero (a b : R) :
  (0 < b)%R -> (0 <= a < b)%R -> Zfloor (a / b) = 0.
Proof.
  intros Hb [H0 H1]. apply Zfloor_eq. unfold Rdiv.
  pose proof (Rinv_0_lt_compat b Hb) as Hi. split.
  - apply Rmult_le_pos; lra.
  - apply Rmult_lt_compat_r with (r := (/ b)%R) in H1; [|exact Hi].
    rewrite Rinv_r in H1 by lra. lra.
Qed.

Lemma PI_bounds : (3 < PI <= 4)%R.
Proof. pose proof PI2_3_2. pose proof PI_4. lra. Qed.

(** *** Medians of cells *)

Lemma finite_values_within (k : R) (l : list float) :
  Forall (within k) l -> Forall (fun x => (Rabs x <= k)%R) (finite_values l).
Proof.
  induction 1 as [|[|x] l Hv Hl IH]; simpl; [constructor | exact IH |].
  constructor; assumption.
Qed.

Lemma finite_values_map_close (g : float -> float) (c delta k : R) l :
  g NaN = NaN ->
  (forall x, (Rabs x <= k)%R ->
     exists x', g (Fin x) = Fin x' /\ (Rabs (x' - (x + c)) <= delta)%R) ->
  Forall (within k) l ->
  Forall2 (fun x x' => (Rabs (x' - (x + c)) <= delta)%R)
          (finite_values l) (finite_values (map g l)).
Proof.
  intros Hnan Hg. induction 1 as [|[|x] l Hv Hl IH]; simpl.
  - constructor.
  - rewrite Hnan. exact IH.
  - destruct (Hg x Hv) as (x' & -> & Hx'). constructor; assumption.
Qed.

Lemma select_cells_Forall {A} (P : A -> Prop) (l : list A) (m : list bool) :
  Forall P l -> Forall P (select_cells l m).
Proof.
  intros H. revert m. induction H as [|x l Hx Hl IH]; intros [|b m]; simpl;
    try constructor.
  destruct b; [constructor; [exact Hx | apply IH] | apply IH].
Qed.

Lemma update_cells_Forall {A} (P : A -> Prop) (g : A -> A) l m :
  (forall v, P (g v)) -> Forall P l -> Forall P (update_cells g l m).
Proof.
  intros Hg H. revert m.
  induction H as [|x l Hx Hl IH]; intros [|b m]; simpl;
    try (constructor; assumption).
  constructor; [destruct b; [apply Hg | exact Hx] | apply IH].
Qed.

Lemma update_cells_fixed {A} (g : A -> A) l m :
  Forall (fun v => g v = v) l -> update_cells g l m = l.
Proof.
  intros H. revert m.
  induction H as [|x l Hx Hl IH]; intros [|b m]; simpl; try reflexivity.
  rewrite IH. destruct b; [rewrite Hx|]; reflexivity.
Qed.

Lemma update_cells_Forall_impl {A} (P Q : A -> Prop) (g : A -> A) l m :
  (forall v, P v -> Q (g v)) -> (forall v, P v -> Q v) ->
  Forall P l -> Forall Q (update_cells g l m).
Proof.
  intros Hg HPQ H. revert m.
  induction H as [|x l Hx Hl IH]; intros [|b m]; simpl.
  - constructor.
  - constructor.
  - constructor; [apply HPQ, Hx|]. eapply Forall_impl; [exact Hl | exact HPQ].
  - constructor; [destruct b; [apply Hg | apply HPQ]; exact Hx | apply IH].
Qed.

Lemma np_map_fixed {A} (f : A -> A) (a : ndarray A) :
  Forall (fun v => f v = v) (data a) -> np_map f a = a.
Proof.
  intros H. unfold np_map. rewrite <- (ndarray_eta a) at 3. f_equal.
  induction H as [|x l Hx Hl IH]; simpl; [reflexivity|].
  rewrite Hx, IH. reflexivity.
Qed.

Section rounded_arithmetic.

Variables (ar : Rounded.arith) (eps eta omega : R).
Hypothesis Hsm : standard_model ar eps eta omega.
Hypothesis Heps : (eps <= 1 / 64)%R.
Hypothesis Heta : (eta <= 1)%R.

(** *** Rounded operations *)

Lemma rnd_close (x : R) :
  (Rabs x <= omega)%R ->
  (Rabs (Rounded.rnd ar x - x) <= eps * Rabs x + eta)%R.
Proof. apply (rnd_error _ _ _ _ Hsm). Qed.

Lemma rnd_s_close (x : R) :
  (Rabs x <= omega)%R ->
  (Rabs (Rounded.rnd_s ar x - x) <= eps * Rabs x + eta)%R.
Proof. apply (rnd_s_error _ _ _ _ Hsm). Qed.

Lemma eps_scale (x y : R) :
  (0 <= x <= y)%R -> (0 <= eps * x <= eps * y)%R /\ (eps * y <= y / 64)%R.
Proof.
  intros [H0 H1]. pose proof (eps_nonneg _ _ _ _ Hsm) as He.
  split; [split|].
  - apply Rmult_le_pos; assumption.
  - apply Rmult_le_compat_l; assumption.
  - replace (y / 64)%R with (1 / 64 * y)%R by lra.
    apply Rmult_le_compat_r; lra.
Qed.

(** The mean of two [float32] values. *)
Lemma mean_close (a b k : R) :
  (Rabs a <= k)%R -> (Rabs b <= k)%R -> (2 * k + 1 <= omega)%R ->
  (Rabs (Rounded.rnd ar (Rounded.rnd ar (a + b) / 2) - (a + b) / 2)
   <= 3 * (eps * k) + 2 * eta)%R.
Proof.
  intros Ha Hb Hk.
  pose proof (eta_nonneg _ _ _ _ Hsm) as He.
  pose proof (Rabs_pos a) as Ha0.
  pose proof (Rabs_triang a b) as Hs.
  pose proof (Rabs_pos (a + b)) as Hs0.
  assert (H1 := rnd_close (a + b) ltac:(lra)).
  destruct (eps_scale (Rabs (a + b)) (2 * k) ltac:(lra)) as [[E1 E2] E3].
  set (s := Rounded.rnd ar (a + b)) in *.
  apply Rabs_bound in H1.
  assert (Ht : (Rabs (s / 2) <= k + eps * k + eta / 2)%R).
  { apply Rabs_le.
    pose proof (Rabs_bound (a + b) (Rabs (a + b)) ltac:(lra)). lra. }
  assert (H2 := rnd_close (s / 2) ltac:(lra)).
  pose proof (Rabs_pos (s / 2)) as Ht0.
  destruct (eps_scale (Rabs (s / 2)) (k + eps * k + eta / 2) ltac:(lra))
    as [[F1 F2] F3].
  destruct (eps_scale (eps * k) (eps * k) ltac:(lra)) as [_ G].
  destruct (eps_scale eta eta ltac:(lra)) as [_ G'].
  apply Rabs_bound in H2. apply Rabs_le. lra.
Qed.

(** The median of sorted values that are bounded by [k]. *)
Lemma median_sorted_within (k : R) (s : list R) (v : R) :
  Forall (fun x => (Rabs x <= k)%R) s -> (2 * k + 1 <= omega)%R ->
  Rounded.median_sorted ar s = Fin v ->
  (Rabs v <= k + 3 * (eps * k) + 2 * eta)%R.
Proof.
  intros Hs Hk. unfold Rounded.median_sorted.
  destruct (List.length s) as [|n] eqn:En; [discriminate|].
  assert (Hdiv : (S n / 2 < List.length s)%nat)
    by (rewrite En; apply Nat.div_lt; lia).
  assert (Hdiv' : (S n / 2 - 1 < List.length s)%nat) by lia.
  rewrite List.Forall_forall in Hs.
  pose proof (Hs _ (nth_In s 0%R Hdiv)) as Hb.
  pose proof (Hs _ (nth_In s 0%R Hdiv')) as Ha.
  pose proof (eta_nonneg _ _ _ _ Hsm) as He.
  pose proof (Rabs_pos (nth (S n / 2)%nat s 0%R)) as Hp.
  destruct (eps_scale k k ltac:(lra)) as [[E1 _] _].
  destruct (Nat.even (S n)); intros H; apply Fin_inj in H; subst v.
  - pose proof (mean_close _ _ k Ha Hb Hk) as Hm.
    apply Rabs_bound in Hm, Ha, Hb. apply Rabs_le. lra.
  - lra.
Qed.

(** The medians of two sorted lists whose values differ by [c], up to
    [delta], position by position. *)
Lemma median_sorted_close (c delta k : R) (s s' : list R) (v : R) :
  List.length s' = List.length s ->
  (forall j, (j < List.length s)%nat ->
     (Rabs (nth j s' 0 - (nth j s 0 + c)) <= delta)%R) ->
  Forall (fun x => (Rabs x <= k)%R) s ->
  Forall (fun x => (Rabs x <= k)%R) s' ->
  (2 * k + 1 <= omega)%R ->
  Rounded.median_sorted ar s = Fin v ->
  exists v', Rounded.median_sorted ar s' = Fin v' /\
    (Rabs (v' - (v + c)) <= delta + 6 * (eps * k) + 4 * eta)%R.
Proof.
  intros Hlen Hnth Hs Hs' Hk. unfold Rounded.median_sorted. rewrite Hlen.
  destruct (List.length s) as [|n] eqn:En; [discriminate|].
  assert (Hdiv : (S n / 2 < S n)%nat) by (apply Nat.div_lt; lia).
  assert (Hdiv' : (S n / 2 - 1 < S n)%nat) by lia.
  rewrite List.Forall_forall in Hs, Hs'.
  assert (Hb : (Rabs (nth (S n / 2) s 0) <= k)%R)
    by (apply Hs, nth_In; rewrite En; exact Hdiv).
  assert (Ha : (Rabs (nth (S n / 2 - 1) s 0) <= k)%R)
    by (apply Hs, nth_In; rewrite En; exact Hdiv').
  assert (Hb' : (Rabs (nth (S n / 2) s' 0) <= k)%R)
    by (apply Hs', nth_In; rewrite Hlen; exact Hdiv).
  assert (Ha' : (Rabs (nth (S n / 2 - 1) s' 0) <= k)%R)
    by (apply Hs', nth_In; rewrite Hlen; exact Hdiv').
  pose proof (Hnth _ Hdiv) as Cb. pose proof (Hnth _ Hdiv') as Ca.
  pose proof (eta_nonneg _ _ _ _ Hsm) as He.
  pose proof (Rabs_pos (nth (S n / 2)%nat s 0%R)) as Hp.
  destruct (eps_scale k k ltac:(lra)) as [[E1 _] _].
  destruct (Nat.even (S n)); intros H; apply Fin_inj in H; subst v;
    eexists; (split; [reflexivity|]).
  - pose proof (mean_close _ _ k Ha Hb Hk) as Hm.
    pose proof (mean_close _ _ k Ha' Hb' Hk) as Hm'.
    apply Rabs_bound in Hm, Hm', Ca, Cb. apply Rabs_le. lra.
  - apply Rabs_bound in Cb. apply Rabs_le. lra.
Qed.

Lemma pi_s_bounds :
  (PI - eps * PI <= Rounded.pi_s ar <= PI + eps * PI)%R /\
  (29 / 10 < Rounded.pi_s ar < 41 / 10)%R.
Proof.
  pose proof (pi_s_error _ _ _ _ Hsm) as H. apply Rabs_bound in H.
  pose proof PI_bounds as Hpi.
  destruct (eps_scale PI PI ltac:(lra))
    as [[E1 _] E2].
  split; lra.
Qed.

Lemma estimate_num_jump_eq (d : R) :
  Rounded.estimate_num_jump ar (Fin d) =
  Fin (IZR ((if Rlt_dec 0 d then -1 else 1) *
            Zfloor (Rounded.rnd_s ar (Rabs d + Rounded.pi_s ar)
                    / (2 * Rounded.pi_s ar)))).
Proof.
  destruct pi_s_bounds as [_ Hp].
  unfold Rounded.estimate_num_jump, Rounded.np_pi, Rounded.cast_s.
  cbn [fabs fadd fmul ffloordiv fgt].
  rewrite Reqb_false by lra. unfold Rltb.
  destruct (Rlt_dec 0 d); cbn [fmul]; f_equal; rewrite mult_IZR; lra.
Qed.

(** The number of cycles of a difference that keeps the rounding margin
    away from the odd multiples of pi: the residual stays inside half a
    cycle by that margin. *)
Lemma first_jump (m d : R) :
  (0 <= m)%R -> (Rabs d + 8 <= omega)%R ->
  (forall j : Z,
     (Rabs (d - IZR (2 * j + 1) * PI) > rounding_margin eps eta m d)%R) ->
  exists k : Z,
    Rounded.estimate_num_jump ar (Fin d) = Fin (IZR k) /\
    (Rabs (d + 2 * PI * IZR k) < PI - rounding_margin eps eta m d)%R /\
    (2 * PI * Rabs (IZR k) <= Rabs d + PI)%R.
Proof.
  intros Hm Hom Hmargin.
  destruct pi_s_bounds as [Hp Hp'].
  pose proof PI_bounds as Hpi.
  pose proof (eps_nonneg _ _ _ _ Hsm) as He.
  pose proof (eta_nonneg _ _ _ _ Hsm) as Ht.
  pose proof (Rabs_pos d) as Hd0.
  set (p := Rounded.pi_s ar) in *.
  set (tau := rounding_margin eps eta m d) in *.
  assert (Htau : (tau = 32 * (eps * Rabs d) + 32 * (eps * m) + 64 * eps
                        + 16 * eta)%R)
    by (unfold tau, rounding_margin; ring).
  destruct (eps_scale (Rabs d) (Rabs d) ltac:(lra))
    as [[Ed _] Ed'].
  destruct (eps_scale m m ltac:(lra))
    as [[Em _] _].
  destruct (eps_scale PI PI ltac:(lra))
    as [[Epi _] Epi'].
  (* the rounded sum *)
  assert (Ha := rnd_s_close (Rabs d + p)).
  rewrite (Rabs_pos_eq (Rabs d + p)) in Ha by lra.
  specialize (Ha ltac:(lra)). apply Rabs_bound in Ha.
  destruct (eps_scale p p ltac:(lra))
    as [[Ep _] Ep'].
  set (a := Rounded.rnd_s ar (Rabs d + p)) in *.
  (* the floor *)
  pose proof (floor_div_bounds a (2 * p) ltac:(lra)) as [Hlo Hhi].
  set (q := Zfloor (a / (2 * p))) in *.
  assert (Hq : 0 <= q).
  { apply Z.lt_succ_r. apply lt_IZR. rewrite succ_IZR.
    assert (0 < (IZR q + 1) * (2 * p))%R as H by lra.
    destruct (Rle_or_lt (IZR q + 1) 0) as [Hn|Hn]; [|exact Hn].
    exfalso. assert ((IZR q + 1) * (2 * p) <= 0 * (2 * p))%R
      by (apply Rmult_le_compat_r; lra). lra. }
  apply IZR_le in Hq.
  (* pi_s * q against PI * q *)
  assert (Hx : (0 <= PI * IZR q)%R) by (apply Rmult_le_pos; lra).
  assert (Hy1 : ((PI - eps * PI) * IZR q <= p * IZR q)%R)
    by (apply Rmult_le_compat_r; lra).
  assert (Hy2 : (p * IZR q <= (PI + eps * PI) * IZR q)%R)
    by (apply Rmult_le_compat_r; lra).
  destruct (eps_scale (PI * IZR q) (PI * IZR q)
              ltac:(lra)) as [_ Ez3].
  destruct (eps_scale (PI * IZR q) (Rabs d + 3)
              ltac:(lra)) as [[Ez1 Ez2] _].
  destruct (eps_scale p (41 / 10) ltac:(lra))
    as [[_ Ep4] _].
  destruct (eps_scale PI 4 ltac:(lra))
    as [[_ Epi4] _].
  assert (Hlower : ((2 * IZR q - 1) * PI - tau <= Rabs d)%R) by lra.
  assert (Hupper : (Rabs d <= (2 * IZR q + 1) * PI + tau)%R) by lra.
  assert (Hin : ((2 * IZR q - 1) * PI + tau < Rabs d
                 < (2 * IZR q + 1) * PI - tau)%R).
  { destruct (Rle_or_lt 0 d) as [Hpos|Hneg].
    - rewrite (Rabs_pos_eq d Hpos) in *.
      pose proof (Hmargin (q - 1)) as H1. pose proof (Hmargin q) as H2.
      rewrite plus_IZR, mult_IZR in H1, H2. rewrite minus_IZR in H1.
      unfold Rabs in H1, H2.
      destruct (Rcase_abs _) in H1; destruct (Rcase_abs _) in H2; lra.
    - rewrite (Rabs_left d Hneg) in *.
      pose proof (Hmargin (- q)) as H1. pose proof (Hmargin (- q - 1)) as H2.
      rewrite plus_IZR, mult_IZR in H1, H2.
      rewrite minus_IZR in H2. rewrite opp_IZR in H1, H2.
      unfold Rabs in H1, H2.
      destruct (Rcase_abs _) in H1; destruct (Rcase_abs _) in H2; lra. }
  rewrite estimate_num_jump_eq. fold p. fold a. fold q.
  eexists. split; [reflexivity|].
  assert (tau >= 0)%R by lra.
  destruct (Rlt_dec 0 d) as [Hpos|Hnpos].
  - rewrite (Rabs_pos_eq d) in Hin by lra.
    rewrite mult_IZR. split.
    + apply Rabs_def1; lra.
    + rewrite Rabs_mult, (Rabs_left (-1)) by lra.
      rewrite (Rabs_pos_eq (IZR q)), (Rabs_pos_eq d) by lra. lra.
  - assert (Rabs d = (- d)%R) as Habs by (apply Rabs_left1; lra).
    rewrite Habs in Hin. rewrite mult_IZR. split.
    + apply Rabs_def1; lra.
    + rewrite Rabs_mult, (Rabs_pos_eq 1) by lra.
      rewrite (Rabs_pos_eq (IZR q)), Habs by lra. lra.
Qed.

(** A difference inside half a cycle, with room for the rounding of the
    test itself, gives no jump. *)
Lemma no_jump (d : R) :
  (Rabs d + 5 <= omega)%R ->
  (Rabs d + (eps * (Rabs d + Rounded.pi_s ar) + eta) < Rounded.pi_s ar)%R ->
  Rounded.estimate_num_jump ar (Fin d) = Fin 0.
Proof.
  intros Hom Hd.
  destruct pi_s_bounds as [Hp Hp'].
  pose proof (eta_nonneg _ _ _ _ Hsm) as Ht.
  pose proof (Rabs_pos d) as Hd0.
  set (p := Rounded.pi_s ar) in *.
  assert (Ha := rnd_s_close (Rabs d + p)).
  rewrite (Rabs_pos_eq (Rabs d + p)) in Ha by lra.
  specialize (Ha ltac:(lra)). apply Rabs_bound in Ha.
  destruct (eps_scale (Rabs d + p) (Rabs d + p)
              ltac:(lra)) as [[E1 _] E2].
  rewrite estimate_num_jump_eq. fold p.
  rewrite floor_div_zero by lra.
  rewrite Z.mul_0_r. reflexivity.
Qed.

(** The update of a cell of magnitude at most [k] by [n] cycles, for a
    number of cycles that a difference [d] asked for. *)
Lemma jump_offset_close (k d x : R) (n : Z) :
  (0 <= k)%R -> (Rabs x <= k)%R ->
  (2 * PI * Rabs (IZR n) <= Rabs d + PI)%R ->
  (k + 2 * Rabs d + 8 <= omega)%R ->
  exists x',
    Rounded.jump_offset ar (Fin (IZR n)) (Fin x) = Fin x' /\
    (Rabs (x' - (x + 2 * PI * IZR n))
     <= eps * (k + 5 * Rabs d + 24) + 3 * eta)%R.
Proof.
  intros Hk Hx Hn Hom.
  destruct pi_s_bounds as [Hp Hp'].
  pose proof PI_bounds as Hpi.
  pose proof (eps_nonneg _ _ _ _ Hsm) as He.
  pose proof (eta_nonneg _ _ _ _ Hsm) as Ht.
  pose proof (Rabs_pos d) as Hd0. pose proof (Rabs_pos (IZR n)) as Hn0.
  set (p := Rounded.pi_s ar) in *.
  unfold Rounded.jump_offset, Rounded.np_pi, Rounded.cast_s, Rounded.cast.
  cbn [fmul fadd]. fold p.
  eexists. split; [reflexivity|].
  set (u := Rabs (IZR n)) in *.
  set (b := (Rabs d + 4)%R).
  assert (Hw : (0 <= PI * u)%R) by (apply Rmult_le_pos; lra).
  (* the exact product *)
  assert (H0 : (Rabs (2 * p * IZR n - 2 * PI * IZR n) <= 2 * (eps * (PI * u)))%R).
  { replace (2 * p * IZR n - 2 * PI * IZR n)%R
      with (2 * ((p - PI) * IZR n))%R by ring.
    rewrite Rabs_mult, (Rabs_pos_eq 2), Rabs_mult by lra. fold u.
    assert (Rabs (p - PI) * u <= eps * PI * u)%R.
    { apply Rmult_le_compat_r; [exact Hn0|]. apply Rabs_le. lra. }
    lra. }
  destruct (eps_scale (PI * u) (b / 2)
              ltac:(unfold b; lra)) as [[E1 E2] E3].
  set (c0 := (2 * p * IZR n)%R) in *.
  assert (Hc0 : (Rabs c0 <= 65 / 64 * b)%R).
  { apply Rabs_bound in H0. apply Rabs_le.
    assert (Rabs (2 * PI * IZR n) <= b)%R.
    { rewrite !Rabs_mult, (Rabs_pos_eq 2), (Rabs_pos_eq PI) by lra.
      fold u. unfold b. lra. }
    pose proof (Rabs_bound _ _ H). lra. }
  (* the rounded product *)
  pose proof (Rabs_pos c0) as Hc00.
  assert (H1 := rnd_s_close c0 ltac:(unfold b in *; lra)).
  destruct (eps_scale (Rabs c0) (65 / 64 * b)
              ltac:(lra)) as [[F1 F2] F3].
  set (c := Rounded.rnd_s ar c0) in *.
  assert (Hc : (Rabs c <= 17 / 16 * b + 1)%R).
  { apply Rabs_bound in H1. apply Rabs_le.
    pose proof (Rabs_bound _ _ Hc0). unfold b in *. lra. }
  (* its cast to float32 *)
  pose proof (Rabs_pos c) as Hc1.
  assert (H2 := rnd_close c ltac:(unfold b in *; lra)).
  destruct (eps_scale (Rabs c) (17 / 16 * b + 1)
              ltac:(lra)) as [[G1 G2] G3].
  set (rc := Rounded.rnd ar c) in *.
  assert (Hrc : (Rabs rc <= 9 / 8 * b + 3)%R).
  { apply Rabs_bound in H2. apply Rabs_le.
    pose proof (Rabs_bound _ _ Hc). unfold b in *. lra. }
  (* the sum *)
  assert (Hs : (Rabs (x + rc) <= k + (9 / 8 * b + 3))%R).
  { pose proof (Rabs_triang x rc). lra. }
  pose proof (Rabs_pos (x + rc)) as Hs0.
  assert (H3 := rnd_close (x + rc)
                  ltac:(unfold b in *; lra)).
  destruct (eps_scale (Rabs (x + rc))
              (k + (9 / 8 * b + 3)) ltac:(lra)) as [[I1 I2] _].
  apply Rabs_bound in H0, H1, H2, H3. apply Rabs_le.
  unfold b in *. lra.
Qed.

(** After a correction by the number of cycles that the first difference
    asked for, the difference of the medians gives no jump. *)
Lemma second_difference (m k v0 v1 v1' d : R) (n : Z) :
  (0 <= m)%R -> (0 <= k <= 3 * m + 4 * eta)%R -> (4 * k + 12 <= omega)%R ->
  (Rabs v0 <= 17 / 16 * k + 2)%R -> (Rabs v1 <= 17 / 16 * k + 2)%R ->
  d = Rounded.rnd ar (v1 - v0) ->
  (Rabs (d + 2 * PI * IZR n) < PI - rounding_margin eps eta m d)%R ->
  (Rabs (v1' - (v1 + 2 * PI * IZR n))
   <= eps * (7 * k + 5 * Rabs d + 24) + 7 * eta)%R ->
  Rounded.estimate_num_jump ar (Fin (Rounded.rnd ar (v1' - v0))) = Fin 0.
Proof.
  intros Hm Hk Hom H0 H1 Hd Hres Hv.
  destruct pi_s_bounds as [Hp Hp'].
  pose proof PI_bounds as Hpi.
  pose proof (eps_nonneg _ _ _ _ Hsm) as He.
  pose proof (eta_nonneg _ _ _ _ Hsm) as Ht.
  set (p := Rounded.pi_s ar) in *.
  set (tau := rounding_margin eps eta m d) in *.
  assert (Htau : (tau = 32 * (eps * Rabs d) + 32 * (eps * m) + 64 * eps
                        + 16 * eta)%R)
    by (unfold tau, rounding_margin; ring).
  pose proof (Rabs_pos d) as Hd0.
  destruct (eps_scale (Rabs d) (Rabs d) ltac:(lra))
    as [[Ed _] Ed'].
  destruct (eps_scale m m ltac:(lra))
    as [[Em _] _].
  destruct (eps_scale k (3 * m + 4 * eta) ltac:(lra))
    as [[Ek1 Ek2] _].
  destruct (eps_scale eta eta ltac:(lra))
    as [_ Ee].
  (* the first difference *)
  set (D := (v1 - v0)%R) in *.
  assert (HD : (Rabs D <= 17 / 8 * k + 4)%R).
  { unfold D. apply Rabs_bound in H0, H1. apply Rabs_le. lra. }
  assert (Hr := rnd_close D ltac:(lra)).
  rewrite <- Hd in Hr.
  pose proof (Rabs_pos D) as HD0.
  destruct (eps_scale (Rabs D) (Rabs D) ltac:(lra))
    as [[ED1 _] ED2].
  assert (HDd : (Rabs D <= 65 / 63 * Rabs d + 65 / 63)%R).
  { pose proof (Rabs_triang_inv D d) as Hti.
    rewrite <- (Rabs_Ropp (D - d)) in Hti.
    replace (- (D - d))%R with (d - D)%R in Hti by ring. lra. }
  destruct (eps_scale (Rabs D)
              (65 / 63 * Rabs d + 65 / 63) ltac:(lra)) as [[_ ED3] _].
  (* the second difference *)
  set (D' := (v1' - v0)%R).
  assert (HD' : (Rabs D' < PI - tau
                           + (eps * (65 / 63 * Rabs d + 65 / 63) + eta)
                           + (eps * (7 * k + 5 * Rabs d + 24) + 7 * eta))%R).
  { unfold D'. apply Rabs_bound in Hr, Hv.
    apply Rabs_def2 in Hres as [R1 R2]. unfold D in *.
    apply Rabs_def1; lra. }
  assert (HD4 : (Rabs D' <= 4)%R) by lra.
  pose proof (Rabs_pos D') as HD'0.
  assert (Hr' := rnd_close D' ltac:(lra)).
  destruct (eps_scale (Rabs D') 4 ltac:(lra))
    as [[J1 J2] _].
  set (d' := Rounded.rnd ar D') in *.
  assert (Hd' : (Rabs d' <= Rabs D' + (4 * eps + eta))%R).
  { pose proof (Rabs_triang_inv d' D'). lra. }
  pose proof (Rabs_pos d') as Hd'0.
  destruct (eps_scale (Rabs d' + p) 10 ltac:(lra))
    as [[L1 L2] _].
  destruct (eps_scale PI 4 ltac:(lra))
    as [[_ Epi4] _].
  apply no_jump; fold p; lra.
Qed.

Lemma nanmedian_within (k : R) (l : list float) (v : R) :
  Forall (within k) l -> (2 * k + 1 <= omega)%R ->
  Rounded.nanmedian ar l = Fin v ->
  (Rabs v <= k + 3 * (eps * k) + 2 * eta)%R.
Proof.
  intros Hl Hk. unfold Rounded.nanmedian.
  apply median_sorted_within; [|exact Hk].
  apply List.Forall_forall. intros x Hx. apply (proj1 (Rsort_elem _ _)) in Hx.
  pose proof (finite_values_within k l Hl) as Hf.
  rewrite List.Forall_forall in Hf. apply Hf, Hx.
Qed.

Lemma nanmedian_close (g : float -> float) (c delta k : R) l (v : R) :
  g NaN = NaN ->
  (forall x, (Rabs x <= k)%R ->
     exists x', g (Fin x) = Fin x' /\ (Rabs (x' - (x + c)) <= delta)%R) ->
  Forall (within k) l -> Forall (within k) (map g l) ->
  (2 * k + 1 <= omega)%R ->
  Rounded.nanmedian ar l = Fin v ->
  exists v', Rounded.nanmedian ar (map g l) = Fin v' /\
    (Rabs (v' - (v + c)) <= delta + 6 * (eps * k) + 4 * eta)%R.
Proof.
  intros Hnan Hg Hl Hl' Hk. unfold Rounded.nanmedian.
  pose proof (finite_values_map_close g c delta k l Hnan Hg Hl) as Hc.
  pose proof (Forall2_length _ _ _ Hc) as Hlen.
  apply (median_sorted_close c delta k).
  - rewrite !length_Rsort. symmetry. exact Hlen.
  - intros j Hj. rewrite length_Rsort in Hj.
    apply Rsort_nth_close; assumption.
  - apply List.Forall_forall. intros x Hx. apply (proj1 (Rsort_elem _ _)) in Hx.
    pose proof (finite_values_within k l Hl) as Hf.
    rewrite List.Forall_forall in Hf. apply Hf, Hx.
  - apply List.Forall_forall. intros x Hx. apply (proj1 (Rsort_elem _ _)) in Hx.
    pose proof (finite_values_within k _ Hl') as Hf.
    rewrite List.Forall_forall in Hf. apply Hf, Hx.
  - exact Hk.
Qed.

Lemma cast_idem (v : float) : Rounded.cast ar (Rounded.cast ar v) = Rounded.cast ar v.
Proof.
  destruct v as [|x]; [reflexivity|]. cbn [Rounded.cast].
  rewrite (rnd_idem _ _ _ _ Hsm). reflexivity.
Qed.

Lemma jump_offset_zero_fixed (v : float) :
  Rounded.cast ar v = v -> Rounded.jump_offset ar (Fin 0) v = v.
Proof.
  intros Hv. unfold Rounded.jump_offset, Rounded.np_pi.
  cbn [fmul Rounded.cast_s Rounded.cast].
  replace (2 * Rounded.pi_s ar * 0)%R with 0%R by ring.
  rewrite (rnd_s_zero _ _ _ _ Hsm), (rnd_zero _ _ _ _ Hsm).
  destruct v as [|x]; [reflexivity|]. cbn [fadd].
  replace (x + 0)%R with x by ring. exact Hv.
Qed.

Lemma subtract_zero_fixed (v : float) :
  Rounded.cast ar v = v -> Rounded.cast ar (fsub v (Fin 0)) = v.
Proof. intros Hv. rewrite fsub_zero. exact Hv. Qed.

(** *** The loop in rounded arithmetic *)

Lemma rounded_stitch_bridge_samples self radius b img :
  labelImg self = Some img ->
  exists aoi0 aoi1,
    forall u, shape u = shape img ->
      let value0 :=
        Rounded.nanmedian ar (sample aoi0 (data img) (label0 b) (data u)) in
      let value1 :=
        Rounded.nanmedian ar (sample aoi1 (data img) (label1 b) (data u)) in
      let diff_value := Rounded.cast ar (fsub value1 value0) in
      let num_jump := Rounded.estimate_num_jump ar diff_value in
      Rounded.stitch_bridge ar self radius u b =
        Ok (NdArray (shape u)
              (update_cells (Rounded.jump_offset ar num_jump) (data u)
                 (map (fun x => x =? label1 b) (data img))),
            (diff_value, num_jump)).
Proof.
  intros Himg.
  destruct (endpoint_masks_total self radius b img Himg)
    as (m0 & m1 & Hm & S0 & S1).
  destruct (endpoint_masks_form self radius b img m0 m1 Himg Hm)
    as (aoi0 & aoi1 & H0 & H1).
  exists aoi0, aoi1. intros u Hu. cbv zeta.
  unfold Rounded.stitch_bridge, Rounded.bridge_values. rewrite Hm.
  step_bind. unfold np_select. rewrite S0, S1, Hu, shape_eqb_refl.
  step_bind. rewrite Himg. cbn [getattr]. step_bind.
  unfold np_update. cbn [shape np_equal np_map]. rewrite Hu, shape_eqb_refl.
  step_bind. unfold sample. rewrite H0, H1. reflexivity.
Qed.

Lemma rounded_stitch_bridges_total self radius img bs : forall unw,
  labelImg self = Some img ->
  shape unw = shape img ->
  exists out reports,
    Rounded.stitch_bridges ar self radius unw bs = Ok (out, reports) /\
    shape out = shape unw.
Proof.
  induction bs as [|b bs IH]; intros unw Himg Hshape.
  - exists unw, []. split; reflexivity.
  - destruct (rounded_stitch_bridge_samples self radius b img Himg)
      as (aoi0 & aoi1 & Hs).
    cbn [Rounded.stitch_bridges]. rewrite (Hs unw Hshape). cbv zeta.
    step_bind.
    match goal with
    | |- context [Rounded.stitch_bridges _ _ _ ?u bs] =>
        destruct (IH u Himg Hshape) as (out & rs & Hr & So)
    end.
    rewrite Hr. step_bind. eexists _, _. split; [reflexivity | exact So].
Qed.

Lemma rounded_stitch_bridges_frame self radius img lbl aoi bs :
  forall unw out rs,
  labelImg self = Some img ->
  shape unw = shape img ->
  Forall (fun c => label1 c <> lbl) bs ->
  Rounded.stitch_bridges ar self radius unw bs = Ok (out, rs) ->
  sample aoi (data img) lbl (data out) = sample aoi (data img) lbl (data unw).
Proof.
  induction bs as [|c bs IH]; intros unw out rs Himg Hshape Hall H.
  - cbn [Rounded.stitch_bridges] in H. injection H as <- <-. reflexivity.
  - cbn [Rounded.stitch_bridges] in H.
    destruct (rounded_stitch_bridge_samples self radius c img Himg)
      as (aoi0 & aoi1 & Hs).
    rewrite (Hs unw Hshape) in H. cbv zeta in H. step_bind_in H.
    inv_bind H. destruct a as [out' rs'].
    injection H as <- <-.
    apply Forall_cons in Hall as [Hc Hall].
    rewrite (IH (NdArray (shape unw) _) _ _ Himg Hshape Hall E). cbn [data].
    apply sample_update_other. auto.
Qed.

Lemma rounded_stitch_bridges_cell self radius img bs : forall unw out rs,
  labelImg self = Some img ->
  shape unw = shape img ->
  Rounded.stitch_bridges ar self radius unw bs = Ok (out, rs) ->
  forall i l, data img !! i = Some l ->
    Forall (fun c => label1 c <> l) bs ->
    data out !! i = data unw !! i.
Proof.
  induction bs as [|c bs IH]; intros unw out rs Himg Hshape H i l Hl Hall.
  - cbn [Rounded.stitch_bridges] in H. injection H as <- <-. reflexivity.
  - cbn [Rounded.stitch_bridges] in H.
    destruct (rounded_stitch_bridge_samples self radius c img Himg)
      as (aoi0 & aoi1 & Hs).
    rewrite (Hs unw Hshape) in H. cbv zeta in H. step_bind_in H.
    inv_bind H. destruct a as [out' rs']. injection H as <- <-.
    apply Forall_cons in Hall as [Hc Hall].
    rewrite (IH (NdArray (shape unw) _) _ _ Himg Hshape E i l Hl Hall).
    cbn [data].
    assert (Hmask : map (fun x => x =? label1 c) (data img) !! i
                    = Some (l =? label1 c)).
    { change (map ?f ?xs) with (f <$> xs). rewrite list_lookup_fmap, Hl.
      reflexivity. }
    destruct (data unw !! i) as [v|] eqn:Ev.
    + rewrite (update_cells_lookup _ _ _ _ _ _ Ev Hmask).
      destruct (Z.eqb_spec l (label1 c)) as [->|_]; [contradiction|].
      reflexivity.
    + apply update_cells_lookup_out, Ev.
Qed.

Lemma rounded_stitch_bridges_Forall (P : float -> Prop) self radius img bs :
  (forall n v, P (Rounded.jump_offset ar n v)) ->
  forall unw out rs,
  labelImg self = Some img ->
  shape unw = shape img ->
  Rounded.stitch_bridges ar self radius unw bs = Ok (out, rs) ->
  Forall P (data unw) -> Forall P (data out).
Proof.
  intros HP.
  induction bs as [|c bs IH]; intros unw out rs Himg Hshape H Hall.
  - cbn [Rounded.stitch_bridges] in H. injection H as <- <-. exact Hall.
  - cbn [Rounded.stitch_bridges] in H.
    destruct (rounded_stitch_bridge_samples self radius c img Himg)
      as (aoi0 & aoi1 & Hs).
    rewrite (Hs unw Hshape) in H. cbv zeta in H. step_bind_in H.
    inv_bind H. destruct a as [out' rs']. injection H as <- <-.
    apply (IH (NdArray (shape unw) _) _ _ Himg Hshape E). cbn [data].
    apply update_cells_Forall; [apply HP | exact Hall].
Qed.

(** *** A second pass leaves the field alone *)

Lemma second_pass_idle_rounded self radius img (m : R) :
  labelImg self = Some img ->
  (0 <= m)%R -> (64 * (m + 1) <= omega)%R ->
  forall bs seen unw out rs,
    shape unw = shape img ->
    bfs_ordered_from seen bs = true ->
    Rounded.stitch_bridges ar self radius unw bs = Ok (out, rs) ->
    Forall (within (3 * m + 4 * eta)) (data unw) ->
    Forall (within (3 * m + 4 * eta)) (data out) ->
    Forall (fun v => Rounded.cast ar v = v) (data out) ->
    Forall (clear_report eps eta m) rs ->
    exists rs',
      Rounded.stitch_bridges ar self radius out bs = Ok (out, rs') /\
      List.length rs' = List.length bs /\
      Forall (fun r : report => r.2 = Fin 0) rs'.
Proof.
  intros Himg Hm Hom.
  pose proof (eta_nonneg _ _ _ _ Hsm) as Ht.
  pose proof (eps_nonneg _ _ _ _ Hsm) as He.
  set (k := (3 * m + 4 * eta)%R).
  assert (Hk : (0 <= k <= 3 * m + 4 * eta)%R) by (unfold k; lra).
  destruct (eps_scale k k ltac:(lra)) as [[Ek _] Ek'].
  induction bs as [|b bs IH];
    intros seen unw out rs Hshape Hord H Hu Ho Hrepr Hgen.
  - cbn [Rounded.stitch_bridges] in *. injection H as <- <-.
    exists []. split; [reflexivity|]. split; [reflexivity | constructor].
  - destruct (bfs_ordered_from_head _ _ _ Hord)
      as (Hne & Hrest & Hlater0 & Hlater1).
    destruct (rounded_stitch_bridge_samples self radius b img Himg)
      as (aoi0 & aoi1 & Hs).
    cbn [Rounded.stitch_bridges] in H. rewrite (Hs unw Hshape) in H.
    cbv zeta in H. step_bind_in H.
    inv_bind H. destruct a as [out' rs1]. injection H as -> <-.
    apply Forall_cons in Hgen as [(d & Hd & Hmargin) Hgen].
    cbn [fst] in Hd.
    destruct (Rounded.nanmedian ar
                (sample aoi1 (data img) (label1 b) (data unw)))
      as [|v1] eqn:E1; [discriminate|].
    destruct (Rounded.nanmedian ar
                (sample aoi0 (data img) (label0 b) (data unw)))
      as [|v0] eqn:E0; [discriminate|].
    cbn [fsub Rounded.cast] in Hd, E. apply Fin_inj in Hd.
    rewrite Hd in E.
    (* magnitudes *)
    assert (Hv1 : (Rabs v1 <= 17 / 16 * k + 2)%R).
    { pose proof (nanmedian_within k _ v1
                    (select_cells_Forall _ _ _ Hu) ltac:(lra) E1). lra. }
    assert (Hv0 : (Rabs v0 <= 17 / 16 * k + 2)%R).
    { pose proof (nanmedian_within k _ v0
                    (select_cells_Forall _ _ _ Hu) ltac:(lra) E0). lra. }
    assert (HD : (Rabs (v1 - v0) <= 17 / 8 * k + 4)%R).
    { apply Rabs_bound in Hv0, Hv1. apply Rabs_le. lra. }
    assert (Hdb : (Rabs d <= 5 / 2 * k + 6)%R).
    { pose proof (rnd_close (v1 - v0) ltac:(lra)) as Hr. rewrite Hd in Hr.
      pose proof (Rabs_pos (v1 - v0)) as HD0.
      destruct (eps_scale (Rabs (v1 - v0)) (Rabs (v1 - v0)) ltac:(lra))
        as [_ HDe].
      pose proof (Rabs_triang_inv d (v1 - v0)). lra. }
    (* the jump of the first pass *)
    destruct (first_jump m d Hm ltac:(lra) Hmargin) as (n & Hn & Hres & Hcyc).
    rewrite Hn in E.
    set (g := Rounded.jump_offset ar (Fin (IZR n))) in *.
    set (unw1 := NdArray (shape unw)
                   (update_cells g (data unw)
                      (map (fun x => x =? label1 b) (data img)))) in *.
    assert (Hshape1 : shape unw1 = shape img) by exact Hshape.
    destruct (rounded_stitch_bridges_total self radius img bs unw1 Himg Hshape1)
      as (o & rs0 & Hrun & Hso).
    rewrite E in Hrun. injection Hrun as <- <-.
    assert (Hshape_out : shape out = shape img) by congruence.
    (* the two samples of the bridge in the final field *)
    assert (S0 : sample aoi0 (data img) (label0 b) (data out)
                 = sample aoi0 (data img) (label0 b) (data unw)).
    { rewrite (rounded_stitch_bridges_frame self radius img (label0 b) aoi0 bs
                 unw1 out rs1 Himg Hshape1 Hlater0 E).
      unfold unw1. cbn [data]. apply sample_update_other. exact Hne. }
    assert (S1 : sample aoi1 (data img) (label1 b) (data out)
                 = map g (sample aoi1 (data img) (label1 b) (data unw))).
    { rewrite (rounded_stitch_bridges_frame self radius img (label1 b) aoi1 bs
                 unw1 out rs1 Himg Hshape1 Hlater1 E).
      unfold unw1. cbn [data]. apply sample_update_same. }
    destruct (nanmedian_close g (2 * PI * IZR n)
                (eps * (k + 5 * Rabs d + 24) + 3 * eta) k
                (sample aoi1 (data img) (label1 b) (data unw)) v1)
      as (v1' & E1' & Hclose).
    { reflexivity. }
    { intros x Hx. apply (jump_offset_close k d x n); lra. }
    { apply select_cells_Forall, Hu. }
    { rewrite <- S1. apply select_cells_Forall, Ho. }
    { lra. }
    { exact E1. }
    rewrite <- S1 in E1'.
    assert (Hz : Rounded.estimate_num_jump ar
                   (Fin (Rounded.rnd ar (v1' - v0))) = Fin 0).
    { apply (second_difference m k v0 v1 v1' d n); auto; try lra. }
    (* the second pass *)
    cbn [Rounded.stitch_bridges]. rewrite (Hs out Hshape_out). cbv zeta.
    rewrite S0, E0, E1'. cbn [fsub Rounded.cast].
    rewrite Hz.
    rewrite update_cells_fixed, ndarray_eta.
    2:{ eapply Forall_impl; [exact Hrepr|]. intros v Hv.
        apply jump_offset_zero_fixed, Hv. }
    step_bind.
    destruct (IH (label1 b :: seen) unw1 out rs1 Hshape1 Hrest E)
      as (rs' & Hrs' & Hlen & Hall); try assumption.
    { apply Forall_lookup. intros i v Hi. unfold unw1 in Hi. cbn [data] in Hi.
      rewrite Forall_lookup in Hu, Ho.
      destruct (data img !! i) as [l|] eqn:El.
      - destruct (Z.eq_dec l (label1 b)) as [->|Hl].
        + apply (Ho i).
          rewrite (rounded_stitch_bridges_cell self radius img bs unw1 out rs1
                     Himg Hshape1 E i (label1 b) El).
          * exact Hi.
          * eapply Forall_impl; [exact Hlater1|]. intros c Hc. exact Hc.
        + destruct (data unw !! i) as [w|] eqn:Ew.
          * erewrite update_cells_lookup in Hi; [| exact Ew |].
            2:{ change (map ?f ?xs) with (f <$> xs).
                rewrite list_lookup_fmap, El. reflexivity. }
            destruct (Z.eqb_spec l (label1 b)) as [->|_]; [contradiction|].
            injection Hi as <-. apply (Hu i), Ew.
          * rewrite update_cells_lookup_out in Hi by exact Ew. discriminate.
      - rewrite update_cells_lookup_None in Hi.
        + apply (Hu i), Hi.
        + change (map ?f ?xs) with (f <$> xs).
          rewrite list_lookup_fmap, El. reflexivity. }
    rewrite Hrs'. step_bind. eexists. split; [reflexivity|].
    split; [simpl; congruence|]. constructor; [reflexivity | exact Hall].
Qed.

(** *** The cast and the reference pixel *)

Lemma cast_within (m : R) (v : float) :
  (0 <= m)%R -> (m <= omega)%R -> within m v ->
  within (m + eps * m + eta) (Rounded.cast ar v).
Proof.
  intros Hm Hom Hv. destruct v as [|x]; [exact I|]. cbn [Rounded.cast within] in *.
  pose proof (rnd_close x ltac:(lra)) as Hr.
  pose proof (Rabs_pos x) as Hx0.
  destruct (eps_scale (Rabs x) m ltac:(lra)) as [[E1 E2] _].
  pose proof (Rabs_triang_inv (Rounded.rnd ar x) x). lra.
Qed.

Lemma rounded_subtract_reference_facts self (m : R) (a0 a1 : ndarray float) :
  (0 <= m)%R -> (4 * (m + 1) <= omega)%R ->
  Forall (within (m + eps * m + eta)) (data a0) ->
  Forall (fun v => Rounded.cast ar v = v) (data a0) ->
  Rounded.subtract_reference ar self a0 = Ok a1 ->
  shape a1 = shape a0 /\
  Forall (within (3 * m + 4 * eta)) (data a1) /\
  Forall (fun v => Rounded.cast ar v = v) (data a1) /\
  forall ry rx x, refY self = Some ry -> refX self = Some rx ->
    np_getitem a0 ry rx = Ok (Fin x) -> np_getitem a1 ry rx = Ok (Fin 0).
Proof.
  intros Hm Hom Hw Hrepr.
  pose proof (eta_nonneg _ _ _ _ Hsm) as Ht.
  pose proof (eps_nonneg _ _ _ _ Hsm) as He.
  destruct (eps_scale m m ltac:(lra)) as [[Em _] Em'].
  destruct (eps_scale eta eta ltac:(lra)) as [[Ee _] Ee'].
  set (m1 := (m + eps * m + eta)%R) in *.
  assert (Hweak : forall v, within m1 v -> within (3 * m + 4 * eta) v).
  { intros [|y]; [auto|]. cbn [within]. unfold m1. lra. }
  unfold Rounded.subtract_reference.
  destruct (refY self) as [ry|] eqn:Ey.
  - destruct (refX self) as [rx|] eqn:Ex; [|discriminate].
    cbn [getattr]. step_bind.
    destruct (np_getitem a0 ry rx) as [ref|] eqn:Er; [|discriminate].
    step_bind. unfold np_update, np_map. cbn [shape data].
    rewrite shape_eqb_refl. intros [= <-]. cbn [shape data].
    assert (Hrw : within m1 ref).
    { apply np_getitem_inv in Er as (y' & x' & _ & _ & Hv).
      rewrite Forall_lookup in Hw. exact (Hw _ _ Hv). }
    split; [reflexivity|]. split; [|split].
    + apply (update_cells_Forall_impl (within m1)); [| exact Hweak | exact Hw].
      intros [|y] Hy; [exact I|]. destruct ref as [|r]; [exact I|].
      cbn [fsub Rounded.cast within] in *.
      assert (Hyr : (Rabs (y - r) <= 2 * m1)%R).
      { apply Rabs_bound in Hy, Hrw. apply Rabs_le. lra. }
      pose proof (rnd_close (y - r) ltac:(unfold m1 in *; lra)) as Hr.
      pose proof (Rabs_pos (y - r)) as H0.
      destruct (eps_scale (Rabs (y - r)) (2 * m1) ltac:(lra)) as [[F1 F2] _].
      destruct (eps_scale (eps * m) (eps * m) ltac:(lra)) as [_ F3].
      pose proof (Rabs_triang_inv (Rounded.rnd ar (y - r)) (y - r)).
      unfold m1 in *. lra.
    + apply (update_cells_Forall_impl (fun v => Rounded.cast ar v = v));
        [| auto | exact Hrepr].
      intros v _. apply cast_idem.
    + intros ry' rx' x [= <-] [= <-] Hx. rewrite Hx in Er. injection Er as <-.
      apply np_getitem_inv in Hx as (y' & x' & Hy' & Hx' & Hv).
      apply (np_getitem_intro _ ry rx y' x'); cbn [shape data];
        try assumption.
      erewrite update_cells_lookup; [| exact Hv |].
      2:{ change (map ?f ?l) with (f <$> l). rewrite list_lookup_fmap, Hv.
          reflexivity. }
      cbn [fne]. destruct (Req_dec_T x 0) as [->|Hx0].
      * rewrite Reqb_true by reflexivity. reflexivity.
      * rewrite Reqb_false by exact Hx0. cbn [negb fsub Rounded.cast].
        replace (x - x)%R with 0%R by ring.
        rewrite (rnd_zero _ _ _ _ Hsm). reflexivity.
  - intros [= <-]. split; [reflexivity|]. split; [|split].
    + eapply Forall_impl; [exact Hw | exact Hweak].
    + exact Hrepr.
    + intros ry rx x Hy. discriminate.
Qed.

Lemma rounded_subtract_reference_zero self (u : ndarray float) ry rx :
  refY self = Some ry -> refX self = Some rx ->
  np_getitem u ry rx = Ok (Fin 0) ->
  Forall (fun v => Rounded.cast ar v = v) (data u) ->
  Rounded.subtract_reference ar self u = Ok u.
Proof.
  intros Hy Hx Hr Hrepr. unfold Rounded.subtract_reference. rewrite Hy, Hx.
  cbn [getattr]. step_bind. rewrite Hr. step_bind.
  unfold np_update, np_map. cbn [shape data]. rewrite shape_eqb_refl.
  rewrite update_cells_fixed, ndarray_eta; [reflexivity|].
  eapply Forall_impl; [exact Hrepr|]. intros v Hv.
  apply subtract_zero_fixed, Hv.
Qed.

End rounded_arithmetic.

(** *** Arithmetic that does not round *)

Lemma update_cells_ext {A} (g h : A -> A) l m :
  (forall v, g v = h v) -> update_cells g l m = update_cells h l m.
Proof.
  intros Hgh. revert m.
  induction l as [|x l IH]; intros [|b m]; simpl; try reflexivity.
  rewrite IH, Hgh. reflexivity.
Qed.

Lemma exact_cast (v : float) : Rounded.cast exact_arith v = v.
Proof. destruct v; reflexivity. Qed.

Lemma exact_cast_s (v : float) : Rounded.cast_s exact_arith v = v.
Proof. destruct v; reflexivity. Qed.

Lemma exact_estimate_num_jump (d : float) :
  Rounded.estimate_num_jump exact_arith d = estimate_num_jump d.
Proof.
  unfold Rounded.estimate_num_jump, estimate_num_jump.
  rewrite exact_cast_s. reflexivity.
Qed.

Lemma exact_jump_offset (n v : float) :
  Rounded.jump_offset exact_arith n v = jump_offset n v.
Proof.
  unfold Rounded.jump_offset, jump_offset.
  rewrite exact_cast_s, !exact_cast. reflexivity.
Qed.

Lemma exact_stitch_bridge self radius unw b :
  Rounded.stitch_bridge exact_arith self radius unw b
  = stitch_bridge self radius unw b.
Proof.
  unfold Rounded.stitch_bridge, stitch_bridge.
  change (Rounded.bridge_values exact_arith self radius unw b)
    with (bridge_values self radius unw b).
  destruct (bridge_values self radius unw b) as [[v0 v1]|e]; [|reflexivity].
  step_bind. destruct (labelImg self) as [img|]; [|reflexivity].
  cbn [getattr]. step_bind.
  rewrite exact_cast, exact_estimate_num_jump.
  unfold np_update. destruct (shape_eqb _ _); [|reflexivity].
  step_bind. do 3 f_equal. apply update_cells_ext, exact_jump_offset.
Qed.

Lemma exact_stitch_bridges self radius bs : forall unw,
  Rounded.stitch_bridges exact_arith self radius unw bs
  = stitch_bridges self radius unw bs.
Proof.
  induction bs as [|b bs IH]; intros unw; [reflexivity|].
  cbn [Rounded.stitch_bridges stitch_bridges]. rewrite exact_stitch_bridge.
  destruct (stitch_bridge self radius unw b) as [[u r]|e]; [|reflexivity].
  step_bind. rewrite IH. reflexivity.
Qed.

Lemma exact_subtract_reference self unw :
  Rounded.subtract_reference exact_arith self unw
  = subtract_reference self unw.
Proof.
  unfold Rounded.subtract_reference, subtract_reference.
  destruct (refY self); [|reflexivity].
  destruct (getattr "refX" (refX self)) as [rx|]; [|reflexivity].
  step_bind. destruct (np_getitem unw _ rx) as [ref|]; [|reflexivity].
  step_bind. unfold np_update. destruct (shape_eqb _ _); [|reflexivity].
  do 2 f_equal. apply update_cells_ext. intros v. apply exact_cast.
Qed.

(** Without rounding, the pass is the pass on idealised values. *)
Lemma exact_unwrap_array deramp self unw radius :
  Rounded.unwrap_array exact_arith deramp self unw radius None
  = unwrap_array deramp self unw radius None.
Proof.
  unfold Rounded.unwrap_array, unwrap_array.
  rewrite np_map_fixed by (apply Forall_forall; intros v _; apply exact_cast).
  rewrite exact_subtract_reference.
  destruct (subtract_reference self unw) as [a|]; [|reflexivity].
  step_bind. destruct (getattr "bridges" (bridges self)) as [bs|];
    [|reflexivity].
  step_bind. rewrite exact_stitch_bridges. reflexivity.
Qed.

Lemma exact_standard_model (eps eta omega : R) :
  (0 <= eps)%R -> (0 <= eta)%R -> standard_model exact_arith eps eta omega.
Proof.
  intros He Ht. pose proof PI_bounds as Hpi.
  assert (Hz : forall x, (Rabs (x - x) <= eps * Rabs x + eta)%R).
  { intros x. replace (x - x)%R with 0%R by ring. rewrite Rabs_R0.
    pose proof (Rabs_pos x).
    assert (0 <= eps * Rabs x)%R by (apply Rmult_le_pos; assumption). lra. }
  split; cbn [Rounded.rnd Rounded.rnd_s Rounded.pi_s exact_arith]; auto.
  replace (PI - PI)%R with 0%R by ring. rewrite Rabs_R0.
  apply Rmult_le_pos; lra.
Qed.

(** C5 (amended).  The stitching pass in [float32] arithmetic, without
    ramp removal, along a bridge list in breadth-first order from the
    reference region.  The roundings have relative error at most [eps]
    and absolute error at most [eta] on values up to [omega]; the cells
    of the field have magnitude at most [m], before and after the pass;
    and every bridge reported a difference that is a number and keeps
    more than [32 eps (|d| + m + 2) + 16 eta] away from every odd
    multiple of pi.  Then running the method again on the result, with
    the same bridges, label image and parameters, recomputes
    [num_jump = 0] at every bridge and returns the field unchanged. *)
Theorem second_pass_applies_no_jump
    (deramp : ndarray float -> ndarray bool -> string -> gmap string Z ->
              ndarray float * ndarray float)
    (ar : Rounded.arith) (eps eta omega m : R)
    (self : connectComponent) (radius : Z) (unw out : ndarray float)
    (img : ndarray Z) (ref : Z) (bs : list bridge) (reports : list report) :
  standard_model ar eps eta omega ->
  (eps <= 1 / 64)%R -> (eta <= 1)%R ->
  (0 <= m)%R -> (64 * (m + 1) <= omega)%R ->
  labelImg self = Some img ->
  labelRef self = Some ref ->
  bridges self = Some bs ->
  bfs_ordered ref bs = true ->
  shape unw = shape img ->
  reference_ok self img ref unw ->
  Forall (within m) (data unw) ->
  Rounded.unwrap_array ar deramp self unw radius None = Ok (out, reports) ->
  Forall (within m) (data out) ->
  Forall (clear_report eps eta m) reports ->
  exists reports',
    Rounded.unwrap_array ar deramp self out radius None
      = Ok (out, reports') /\
    List.length reports' = List.length bs /\
    Forall (fun r : report => r.2 = Fin 0) reports'.
Proof.
  intros Hsm Heps Heta Hm Hom Himg Href Hbs Hord Hshape Hrefok Hw H Hwo Hgen.
  pose proof (eta_nonneg _ _ _ _ Hsm) as Ht.
  pose proof (eps_nonneg _ _ _ _ Hsm) as He.
  unfold Rounded.unwrap_array in *. rewrite Hbs in *. cbn [getattr] in *.
  inv_bind H. rename a into a1, E into Hsub. step_bind_in H.
  inv_bind H. destruct a as [o rs]. step_bind_in H.
  injection H as -> ->. rename E into Hloop.
  set (a0 := np_map (Rounded.cast ar) unw) in *.
  assert (Hw0 : Forall (within (m + eps * m + eta)) (data a0)).
  { unfold a0, np_map. cbn [data]. change (map ?f ?l) with (f <$> l).
    apply Forall_fmap. eapply Forall_impl; [exact Hw|]. intros v Hv.
    apply (cast_within ar eps eta omega Hsm Heps); [lra | lra | exact Hv]. }
  assert (Hr0 : Forall (fun v => Rounded.cast ar v = v) (data a0)).
  { unfold a0, np_map. cbn [data]. change (map ?f ?l) with (f <$> l).
    apply Forall_fmap, Forall_forall. intros v _.
    apply (cast_idem ar eps eta omega Hsm). }
  destruct (rounded_subtract_reference_facts ar eps eta omega Hsm Heps Heta
              self m a0 a1 Hm ltac:(lra) Hw0 Hr0 Hsub)
    as (Hs1 & Hw1 & Hr1 & Hzero).
  assert (Hs : shape a1 = shape img) by (rewrite Hs1; exact Hshape).
  assert (Hro : Forall (fun v => Rounded.cast ar v = v) (data out)).
  { apply (rounded_stitch_bridges_Forall ar _ self (aoi_radius self radius)
             img bs) with (unw := a1) (rs := reports); try assumption.
    intros n v. apply (cast_idem ar eps eta omega Hsm). }
  rewrite (np_map_fixed _ _ Hro).
  assert (Hsub2 : Rounded.subtract_reference ar self out = Ok out).
  { unfold reference_ok in Hrefok.
    destruct (refY self) as [ry|] eqn:Ey.
    - destruct (refX self) as [rx|] eqn:Ex; [|contradiction].
      destruct Hrefok as (Hlab & x & Hx).
      pose proof (np_getitem_map (Rounded.cast ar) unw ry rx _ Hx) as Hx0.
      fold a0 in Hx0. cbn [Rounded.cast] in Hx0.
      pose proof (Hzero ry rx _ eq_refl eq_refl Hx0) as Hz.
      destruct (rounded_stitch_bridges_total ar self (aoi_radius self radius)
                  img bs a1 Himg Hs) as (o & rs0 & Ho & Hso).
      rewrite Hloop in Ho. injection Ho as <- <-.
      apply (rounded_subtract_reference_zero ar self out ry rx Ey Ex);
        [|exact Hro].
      apply np_getitem_inv in Hz as (y' & x' & Hy' & Hx' & Hv).
      apply np_getitem_inv in Hlab as (y2 & x2 & Hy2 & Hx2 & Hl).
      rewrite <- Hs in Hy2, Hx2, Hl.
      assert (y2 = y') as -> by congruence.
      assert (x2 = x') as -> by congruence.
      apply (np_getitem_intro _ ry rx y' x'); rewrite ?Hso; try assumption.
      rewrite (rounded_stitch_bridges_cell ar self _ img bs a1 out reports
                 Himg Hs Hloop _ ref Hl); [exact Hv|].
      eapply Forall_impl; [apply (bfs_ordered_from_later _ _ Hord)|].
      intros c Hc E. apply Hc. rewrite E. apply elem_of_cons. left.
      reflexivity.
    - unfold Rounded.subtract_reference. rewrite Ey. reflexivity. }
  rewrite Hsub2. step_bind.
  destruct (second_pass_idle_rounded ar eps eta omega Hsm Heps Heta
              self (aoi_radius self radius) img m Himg Hm Hom bs [ref]
              a1 out reports Hs Hord Hloop Hw1) as (rs' & Hrs' & Hlen & Hall);
    try assumption.
  { eapply Forall_impl; [exact Hwo|]. intros [|y] Hy; [exact I|].
    cbn [within] in *. lra. }
  rewrite Hrs'. step_bind. exists rs'. auto.
Qed.


Lemma four_pi_from_odd_multiples (k : Z) :
  (PI <= Rabs (4 * PI - IZR (2 * k + 1) * PI))%R.
Proof.
  pose proof PI_bounds as Hpi.
  destruct (Z_le_gt_dec k 1) as [Hk|Hk].
  - assert (IZR (2 * k + 1) <= 3)%R as H by (apply IZR_le; lia).
    assert (IZR (2 * k + 1) * PI <= 3 * PI)%R
      by (apply Rmult_le_compat_r; lra).
    rewrite Rabs_pos_eq; lra.
  - assert (5 <= IZR (2 * k + 1))%R as H by (apply IZR_le; lia).
    assert (5 * PI <= IZR (2 * k + 1) * PI)%R
      by (apply Rmult_le_compat_r; lra).
    rewrite Rabs_left; lra.
Qed.

Lemma second_pass_applies_no_jump_witness :
  exists self reports',
    prepare gap_mask ref_metadata = Ok self /\
    standard_model exact_arith (/ 16777216) (/ 1000000) 1088 /\
    bfs_ordered 1 [gap_bridge] = true /\
    clear_report (/ 16777216) (/ 1000000) 16 (Fin (4 * PI), Fin (-2)) /\
    Rounded.unwrap_array exact_arith no_ramp self
      (np_full (20, 20) (Fin 0)) 50 None
      = Ok (np_full (20, 20) (Fin 0), reports') /\
    List.length reports' = 1%nat /\
    Forall (fun r : report => r.2 = Fin 0) reports'.
Proof.
  pose proof gap_prepared as Hp. pose proof PI_bounds as Hpi.
  destruct gap_scene
    as (self & out & Hprep & Himg & Hget & _ & Href & Hbs & _ & Hu & ->).
  rewrite Hprep in Hp. cbn [fmap result_fmap] in Hp.
  injection Hp as _ _ _ _ Hy Hx _ _.
  assert (Hsm : standard_model exact_arith (/ 16777216) (/ 1000000) 1088)
    by (apply exact_standard_model; lra).
  assert (Hclear : clear_report (/ 16777216) (/ 1000000) 16
                     (Fin (4 * PI), Fin (-2))).
  { exists (4 * PI)%R. split; [reflexivity|]. intros k.
    pose proof (four_pi_from_odd_multiples k) as Hk.
    unfold rounding_margin. rewrite (Rabs_pos_eq (4 * PI)) by lra. lra. }
  destruct (second_pass_applies_no_jump no_ramp exact_arith
              (/ 16777216) (/ 1000000) 1088 16 self 50
              (gap_field (Fin 0) (Fin (4 * PI))) (np_full (20, 20) (Fin 0))
              gap_img 1 [gap_bridge] [(Fin (4 * PI), Fin (-2))]
              Hsm ltac:(lra) ltac:(lra) ltac:(lra) ltac:(lra)
              Himg Href Hbs eq_refl eq_refl) as (reports' & H1 & H2 & H3).
  - unfold reference_ok. rewrite Hy, Hx. split; [exact Hget|].
    exists 0%R. rewrite gap_field_levels.
    apply (np_getitem_map (two_level (Fin 0) (Fin (4 * PI))) gap_img 2 5 1
             Hget).
  - rewrite gap_field_levels. unfold np_map. cbn [data].
    change (map ?f ?l) with (f <$> l). apply Forall_fmap, Forall_forall.
    intros l _. unfold two_level. cbn [compose].
    destruct (l =? 2); cbn [within].
    + rewrite Rabs_pos_eq; lra.
    + rewrite Rabs_R0. lra.
  - rewrite exact_unwrap_array. exact Hu.
  - apply List.Forall_forall. intros v Hv. apply repeat_spec in Hv as ->.
    cbn [within]. rewrite Rabs_R0. lra.
  - constructor; [exact Hclear | constructor].
  - exists self, reports'. split; [exact Hprep|]. split; [exact Hsm|].
    split; [reflexivity|]. split; [exact Hclear|]. split; [exact H1|].
    split; assumption.
Defined.

(** *** Two passes over the 20 x 20 scene *)

Lemma gap_pass self (b : R) :
  labelImg self = Some gap_img ->
  refY self = Some 2 -> refX self = Some 5 ->
  bridges self = Some [gap_bridge] ->
  aoi_radius self 50 = 1 ->
  sampled_labels self 1 gap_bridge = Ok ([1; 1], [2; 2]) ->
  unwrap_array no_ramp self (np_map (two_level (Fin 0) (Fin b)) gap_img)
               50 None
  = Ok (np_map (two_level (Fin 0)
                  (jump_offset (estimate_num_jump (Fin b)) (Fin b))) gap_img,
        [(Fin b, estimate_num_jump (Fin b))]).
Proof.
  intros Himg Hy Hx Hbs Hr Hs. unfold unwrap_array. rewrite Hr.
  rewrite (gap_unwrap_start self _ Himg Hy Hx). step_bind.
  rewrite Hbs. cbn [getattr]. step_bind. cbn [stitch_bridges].
  rewrite (gap_stitch self _ Himg Hs). step_bind.
  replace (b - 0)%R with b by lra. reflexivity.
Qed.

(** C5, as stated, fails.  On the 20 x 20 scene with the second region
    offset by pi, the first pass applies [num_jump = -1] and leaves the
    second region at [pi - 2 pi]; the second pass finds a difference of
    that value, half a cycle below, and applies [num_jump = 1]. *)
Lemma second_pass_after_half_cycle_jumps :
  exists self out out',
    prepare gap_mask ref_metadata = Ok self /\
    bridges self = Some [gap_bridge] /\
    bfs_ordered 1 [gap_bridge] = true /\
    unwrap_array no_ramp self (gap_field (Fin 0) (Fin PI)) 50 None
      = Ok (out, [(Fin PI, Fin (-1))]) /\
    unwrap_array no_ramp self out 50 None
      = Ok (out', [(Fin (PI + 2 * PI * -1), Fin 1)]) /\
    Fin 1 <> Fin 0.
Proof.
  pose proof gap_prepared as Hp. pose proof PI_RGT_0 as Hpi.
  destruct (prepare gap_mask ref_metadata) as [self|]; [|discriminate].
  cbn [fmap result_fmap] in Hp.
  injection Hp as Himg Hnum Href Hbs Hy Hx Hr Hs.
  exists self. eexists _, _. split; [reflexivity|]. split; [exact Hbs|].
  split; [reflexivity|].
  assert (H1 : estimate_num_jump (Fin PI) = Fin (-1)).
  { rewrite (estimate_num_jump_pos PI 1); [reflexivity | lra |].
    change (2 * 1 - 1) with 1. change (2 * 1 + 1) with 3. lra. }
  assert (H2 : estimate_num_jump (Fin (PI + 2 * PI * -1)) = Fin 1).
  { rewrite (estimate_num_jump_nonpos _ 1); [reflexivity | lra |].
    change (2 * 1 - 1) with 1. change (2 * 1 + 1) with 3. lra. }
  split; [|split].
  - rewrite gap_field_levels.
    rewrite (gap_pass self PI Himg Hy Hx Hbs Hr Hs), H1. reflexivity.
  - rewrite jump_offset_Fin.
    rewrite (gap_pass self _ Himg Hy Hx Hbs Hr Hs), H2. reflexivity.
  - intros H. apply Fin_inj in H. lra.
Qed.

(** * Further properties of the code *)

(** ** What one bridge does to the two medians *)

Lemma residual_at_most_half_cycle (d : R) :
  let n := (if Rlt_dec 0 d then -1 else 1) *
           Zfloor ((Rabs d + PI) / (2 * PI)) in
  (Rabs (d + 2 * PI * IZR n) <= PI)%R.
Proof.
  intros n. pose proof PI_RGT_0 as Hpi.
  set (k := Zfloor ((Rabs d + PI) / (2 * PI))) in *.
  assert (Hb : (IZR k * (2 * PI) <= Rabs d + PI < (IZR k + 1) * (2 * PI))%R).
  { pose proof (Zfloor_bound ((Rabs d + PI) / (2 * PI))) as [Hlo Hhi].
    fold k in Hlo, Hhi. split.
    - apply Rmult_le_compat_r with (r := (2 * PI)%R) in Hlo; [|lra].
      unfold Rdiv in Hlo. rewrite Rmult_assoc, Rinv_l in Hlo by lra. lra.
    - apply Rmult_lt_compat_r with (r := (2 * PI)%R) in Hhi; [|lra].
      unfold Rdiv in Hhi. rewrite Rmult_assoc, Rinv_l in Hhi by lra. lra. }
  destruct Hb as [Hlo Hhi].
  subst n. destruct (Rlt_dec 0 d) as [Hd|Hd].
  - rewrite Rabs_pos_eq in Hlo, Hhi by lra.
    rewrite mult_IZR. apply Rabs_le. lra.
  - assert (Rabs d = (- d)%R) as Ha by (apply Rabs_left1; lra).
    rewrite Ha in Hlo, Hhi.
    rewrite mult_IZR. apply Rabs_le. lra.
Qed.

(** The medians and the loop body through the same two windows. *)
Lemma bridge_samples self radius b img :
  labelImg self = Some img ->
  exists aoi0 aoi1,
    forall u, shape u = shape img ->
      let value0 := nanmedian (sample aoi0 (data img) (label0 b) (data u)) in
      let value1 := nanmedian (sample aoi1 (data img) (label1 b) (data u)) in
      let num_jump := estimate_num_jump (fsub value1 value0) in
      bridge_values self radius u b = Ok (value0, value1) /\
      stitch_bridge self radius u b =
        Ok (NdArray (shape u)
              (update_cells (jump_offset num_jump) (data u)
                 (map (fun x => x =? label1 b) (data img))),
            (fsub value1 value0, num_jump)).
Proof.
  intros Himg.
  destruct (endpoint_masks_total self radius b img Himg)
    as (m0 & m1 & Hm & _ & _).
  destruct (endpoint_masks_form self radius b img m0 m1 Himg Hm)
    as (aoi0 & aoi1 & H0 & H1).
  exists aoi0, aoi1. intros u Hu.
  destruct (stitch_bridge_total self radius u b img Himg Hu)
    as (m0' & m1' & Hm' & Hv & Hs).
  rewrite Hm in Hm'. injection Hm' as <- <-.
  cbv zeta. unfold sample. rewrite <- H0, <- H1. split; [exact Hv | exact Hs].
Qed.

(** In exact arithmetic: after the loop body has corrected a bridge
    whose two medians are numbers and whose two labels differ, the
    median of the [label0] window is what it was, the median of the
    [label1] window has moved by a whole number of cycles, and the two
    now differ by at most half a cycle. *)
Theorem stitch_bridge_aligns_medians
    (self : connectComponent) (radius : Z) (unw : ndarray float)
    (b : bridge) (img : ndarray Z) (value0 value1 : R) :
  labelImg self = Some img ->
  label0 b <> label1 b ->
  bridge_values self radius unw b = Ok (Fin value0, Fin value1) ->
  exists unw' r (k : Z),
    stitch_bridge self radius unw b = Ok (unw', r) /\
    r.2 = Fin (IZR k) /\
    bridge_values self radius unw' b
      = Ok (Fin value0, Fin (value1 + 2 * PI * IZR k)) /\
    (Rabs (value1 + 2 * PI * IZR k - value0) <= PI)%R.
Proof.
  intros Himg Hne Hv.
  destruct (bridge_values_shape _ _ _ _ _ Hv) as (img' & Himg' & Hshape).
  assert (img' = img) as -> by congruence.
  destruct (bridge_samples self radius b img Himg) as (aoi0 & aoi1 & Hs).
  destruct (Hs unw Hshape) as [Hv' Hst]. cbv zeta in Hv', Hst.
  rewrite Hv in Hv'. injection Hv' as E0 E1.
  rewrite <- E0, <- E1 in Hst. cbn [fsub] in Hst.
  rewrite estimate_num_jump_Fin in Hst.
  set (k := (if Rlt_dec 0 (value1 - value0) then -1 else 1) *
            Zfloor ((Rabs (value1 - value0) + PI) / (2 * PI))) in *.
  eexists _, _, k. split; [exact Hst|]. split; [reflexivity|].
  split.
  - match goal with
    | |- bridge_values _ _ ?u _ = _ =>
        destruct (Hs u Hshape) as [Hv2 _]
    end.
    cbv zeta in Hv2. rewrite Hv2. cbn [data].
    rewrite sample_update_other by exact Hne.
    rewrite sample_update_same.
    rewrite <- E0. rewrite (nanmedian_shift _ _ value1) by (symmetry; exact E1).
    reflexivity.
  - replace (value1 + 2 * PI * IZR k - value0)%R
      with ((value1 - value0) + 2 * PI * IZR k)%R by lra.
    apply residual_at_most_half_cycle.
Qed.

Lemma two_values :
  bridge_values two_object 1 (two_field (Fin 0) (Fin (4 * PI))) two_bridge
  = Ok (Fin 0, Fin (4 * PI)).
Proof. reflexivity. Qed.

Lemma stitch_bridge_aligns_medians_witness :
  labelImg two_object = Some two_img /\
  label0 two_bridge <> label1 two_bridge /\
  exists unw' r (k : Z),
    stitch_bridge two_object 1 (two_field (Fin 0) (Fin (4 * PI))) two_bridge
      = Ok (unw', r) /\
    r.2 = Fin (IZR k) /\
    bridge_values two_object 1 unw' two_bridge
      = Ok (Fin 0, Fin (4 * PI + 2 * PI * IZR k)) /\
    (Rabs (4 * PI + 2 * PI * IZR k - 0) <= PI)%R.
Proof.
  split; [reflexivity|]. split; [discriminate|].
  apply (stitch_bridge_aligns_medians two_object 1
           (two_field (Fin 0) (Fin (4 * PI))) two_bridge two_img 0 (4 * PI)).
  - reflexivity.
  - discriminate.
  - exact two_values.
Defined.

(** ** What the loop does to the cells *)

(** In exact arithmetic: when every bridge reports a difference that is
    a number, the loop changes every number of the field by a whole
    number of cycles:
    a cell holding [x] ends as [x + 2 pi k] for an integer [k]. *)
Theorem stitch_bridges_adds_whole_cycles
    (self : connectComponent) (radius : Z) (img : ndarray Z)
    (bs : list bridge) (unw out : ndarray float) (reports : list report) :
  labelImg self = Some img ->
  shape unw = shape img ->
  stitch_bridges self radius unw bs = Ok (out, reports) ->
  Forall (fun r : report => exists d : R, r.1 = Fin d) reports ->
  forall (i : nat) (x : R),
    data unw !! i = Some (Fin x) ->
    exists k : Z, data out !! i = Some (Fin (x + 2 * PI * IZR k)).
Proof.
  intros Himg. revert unw out reports.
  induction bs as [|b bs IH]; intros unw out reports Hshape H Hrep i x Hx.
  - cbn [stitch_bridges] in H. injection H as <- <-. exists 0.
    rewrite Hx. do 2 f_equal. lra.
  - cbn [stitch_bridges] in H.
    destruct (bridge_samples self radius b img Himg) as (aoi0 & aoi1 & Hs).
    destruct (Hs unw Hshape) as [_ Hst]. cbv zeta in Hst.
    rewrite Hst in H. step_bind_in H.
    inv_bind H. destruct a as [out' rs]. injection H as -> <-.
    apply Forall_cons in Hrep as [(d & Hd) Hrep]. cbn [fst] in Hd.
    rewrite Hd, estimate_num_jump_Fin in E.
    set (n := (if Rlt_dec 0 d then -1 else 1) *
              Zfloor ((Rabs d + PI) / (2 * PI))) in *.
    assert (Hcell : exists m : Z,
              update_cells (jump_offset (Fin (IZR n))) (data unw)
                (map (fun x => x =? label1 b) (data img)) !! i
              = Some (Fin (x + 2 * PI * IZR m))).
    { destruct (map (fun x => x =? label1 b) (data img) !! i) as [c|] eqn:Ec.
      - rewrite (update_cells_lookup _ _ _ _ _ _ Hx Ec). destruct c.
        + exists n. reflexivity.
        + exists 0. do 2 f_equal. lra.
      - rewrite update_cells_lookup_None by exact Ec. exists 0.
        rewrite Hx. do 2 f_equal. lra. }
    destruct Hcell as (m & Hm).
    destruct (IH (NdArray (shape unw) _) _ _ Hshape E Hrep i _ Hm)
      as (k & Hk).
    exists (m + k). rewrite Hk. do 2 f_equal. rewrite plus_IZR. lra.
Qed.


Lemma two_stitch :
  stitch_bridges two_object 1 (two_field (Fin 0) (Fin (4 * PI))) [two_bridge]
  = Ok (two_field (Fin 0) (Fin (4 * PI + 2 * PI * -2)),
        [(Fin (4 * PI - 0), Fin (-2))]).
Proof.
  pose proof PI_RGT_0 as Hpi.
  cbn [stitch_bridges]. unfold stitch_bridge. rewrite two_values.
  step_bind. cbn [labelImg two_object make_object getattr]. step_bind.
  cbn [fsub].
  rewrite (estimate_num_jump_pos (4 * PI - 0) 2).
  2:{ lra. }
  2:{ change (2 * 2 - 1) with 3. change (2 * 2 + 1) with 5. lra. }
  reflexivity.
Qed.

Lemma stitch_bridges_adds_whole_cycles_witness :
  exists k : Z,
    data (two_field (Fin 0) (Fin (4 * PI + 2 * PI * -2))) !! 1%nat
    = Some (Fin (4 * PI + 2 * PI * IZR k)).
Proof.
  apply (stitch_bridges_adds_whole_cycles two_object 1 two_img [two_bridge]
           (two_field (Fin 0) (Fin (4 * PI))) _ _ eq_refl eq_refl two_stitch).
  - constructor; [|constructor]. exists (4 * PI - 0)%R. reflexivity.
  - reflexivity.
Defined.


(** ** The radius rule *)



